(** * FolderSynchronizer: filters, scheduler, pair manager and copy engine

  A shallow embedding of the Go sources
    internal/core/filters.go, internal/core/pair.go,
    internal/core/hooks.go (hook filter and the copier that follows it),
    internal/scheduler/scheduler.go
  together with the properties the specification states about them.

  Conventions.
  - Go strings are byte strings; they are modelled by [string], whose
    characters are 8-bit [ascii] values.
  - Go maps keyed by string are [gmap string _].
  - Go's [int] is 64 bits wide; arithmetic on it wraps (see [wrap64]).
  - Calls into the operating system can fail; every such call draws its
    outcome from a stream of fault decisions carried by the [World]. *)

From Stdlib Require Import ZArith Ascii String List Bool Lia.
From stdpp Require Import base option list sorting gmap strings.

Local Open Scope string_scope.
Local Open Scope Z_scope.

#[local] Set Warnings "-clear-no-such-hyp".

(** ** Strings: the fragments of [strings] and [path/filepath] that are used *)

Module GoStrings.

(** [strings.ToLower], on ASCII: 'A'..'Z' are mapped to 'a'..'z', every
    other byte is kept. (Go additionally maps non-ASCII letters; the
    extensions and paths considered here are ASCII.) *)
Definition lower_ascii (c : ascii) : ascii :=
  let n := nat_of_ascii c in
  if ((65 <=? n)%nat && (n <=? 90)%nat)%bool then ascii_of_nat (n + 32) else c.

Fixpoint ToLower (s : string) : string :=
  match s with
  | EmptyString => EmptyString
  | String c r => String (lower_ascii c) (ToLower r)
  end.

(** White space as [strings.TrimSpace] sees it in ASCII:
    '\t', '\n', '\v', '\f', '\r' and ' '. *)
Definition is_space (c : ascii) : bool :=
  let n := nat_of_ascii c in
  (((9 <=? n)%nat && (n <=? 13)%nat) || (n =? 32)%nat)%bool.

Fixpoint trim_left (s : string) : string :=
  match s with
  | EmptyString => EmptyString
  | String c r => if is_space c then trim_left r else s
  end.

(** Drop trailing white space: a character is kept when it is not a space
    or when something non-blank follows it. *)
Fixpoint trim_right (s : string) : string :=
  match s with
  | EmptyString => EmptyString
  | String c r =>
      match trim_right r with
      | EmptyString => if is_space c then EmptyString else String c EmptyString
      | r' => String c r'
      end
  end.

Definition TrimSpace (s : string) : string := trim_right (trim_left s).

(** [strings.HasPrefix]. *)
Definition HasPrefix (s p : string) : bool := String.prefix p s.

(** [os.IsPathSeparator]: '/' everywhere, and also '\' on Windows. *)
Definition IsPathSeparator (windows : bool) (c : ascii) : bool :=
  (Ascii.eqb c "/" || (windows && Ascii.eqb c "\"))%bool.

(** [filepath.Ext]: the suffix starting at the last dot of the last path
    element, or the empty string when that element has no dot.  Go scans
    from the end; scanning from the front, the answer for [c :: r] is the
    answer for [r] unless [r] holds neither a dot-suffix nor a separator. *)
Fixpoint has_sep (windows : bool) (s : string) : bool :=
  match s with
  | EmptyString => false
  | String c r => (IsPathSeparator windows c || has_sep windows r)%bool
  end.

Fixpoint Ext (windows : bool) (path : string) : string :=
  match path with
  | EmptyString => EmptyString
  | String c r =>
      match Ext windows r with
      | String d e => String d e
      | EmptyString =>
          if has_sep windows r then EmptyString
          else if IsPathSeparator windows c then EmptyString
          else if Ascii.eqb c "." then path
          else EmptyString
      end
  end.

(** [filepath.ToSlash]: on Windows every '\' becomes '/'; elsewhere the
    path is returned as it is. *)
Fixpoint back_to_slash (s : string) : string :=
  match s with
  | EmptyString => EmptyString
  | String c r => String (if Ascii.eqb c "\" then "/"%char else c) (back_to_slash r)
  end.

Definition ToSlash (windows : bool) (s : string) : string :=
  if windows then back_to_slash s else s.

End GoStrings.

Import GoStrings.

(** ** internal/core/filters.go *)

Section Filters.

(** [runtime.GOOS == "windows"]. *)
Variable windows : bool.

(** [doublestar.PathMatch pattern path], an external library; a pattern
    that does not parse counts as "no match" because the callers drop
    the error. *)
Variable PathMatch : string -> string -> bool.

(** The loop of [MatchesInclude] over the allowed extensions. *)
Fixpoint include_loop (extensions : list string) (fileExt : string) : bool :=
  match extensions with
  | [] => false
  | allowedExt :: rest =>
      if String.eqb (ToLower allowedExt) fileExt then true
      else include_loop rest fileExt
  end.

Definition MatchesInclude (extensions : list string) (filePath : string) : bool :=
  match extensions with
  | [] => true
  | _ => include_loop extensions (ToLower (Ext windows filePath))
  end.

(** The loop shared by [MatchesExclude] and [MatchesAnyGlob]. *)
Fixpoint glob_loop (globs : list string) (normalizedPath : string) : bool :=
  match globs with
  | [] => false
  | pattern :: rest =>
      if PathMatch pattern normalizedPath then true
      else glob_loop rest normalizedPath
  end.

Definition MatchesExclude (globs : list string) (filePath : string) : bool :=
  match globs with
  | [] => false
  | _ => glob_loop globs (ToSlash windows filePath)
  end.

Definition MatchesAnyGlob (globs : list string) (filePath : string) : bool :=
  match globs with
  | [] => false
  | _ => glob_loop globs (ToSlash windows filePath)
  end.

Definition ShouldIncludeFile (includeExtensions excludeGlobs : list string)
    (filePath : string) : bool :=
  if negb (MatchesInclude includeExtensions filePath) then false
  else if MatchesExclude excludeGlobs filePath then false
  else true.

(** [len(l) == 0] and [len(l) > 0]. *)
Definition is_empty {A} (l : list A) : bool :=
  match l with [] => true | _ => false end.

Definition ShouldTriggerHook (hookExtensions hookGlobs : list string)
    (filePath : string) : bool :=
  if (is_empty hookExtensions && is_empty hookGlobs)%bool then true
  else if (negb (is_empty hookExtensions) && MatchesInclude hookExtensions filePath)%bool
  then true
  else if (negb (is_empty hookGlobs) && MatchesAnyGlob hookGlobs filePath)%bool
  then true
  else false.

(** internal/config: the filter part of a [Hook]. *)
Record Hook := {
  MatchExtensions : list string;
  MatchGlobs : list string
}.

(** internal/core/hooks.go, [shouldTriggerHook]. *)
Definition shouldTriggerHook (hook : Hook) (filePath : string) : bool :=
  if (is_empty (MatchExtensions hook) && is_empty (MatchGlobs hook))%bool then true
  else if (negb (is_empty (MatchExtensions hook))
           && MatchesInclude (MatchExtensions hook) filePath)%bool
  then true
  else if (negb (is_empty (MatchGlobs hook))
           && MatchesAnyGlob (MatchGlobs hook) filePath)%bool
  then true
  else false.

(** *** internal/core/pair.go, [normalizeIncludeExtensions]

    The loop state is the slice [normalized], the flag [matchAll] and the
    set [seen]. *)
Record NormState := {
  normalized : list string;
  matchAll : bool;
  seen : gset string
}.

Definition norm_step (st : NormState) (ext : string) : NormState :=
  let cleanExt := TrimSpace (ToLower ext) in
  if String.eqb cleanExt "" then st
  else if (String.eqb cleanExt "*" || String.eqb cleanExt ".*")%bool then
    {| normalized := normalized st; matchAll := true; seen := seen st |}
  else
    let cleanExt := if HasPrefix cleanExt "." then cleanExt else "." ++ cleanExt in
    if decide (cleanExt ∈ seen st) then st
    else {| normalized := normalized st ++ [cleanExt];
            matchAll := matchAll st;
            seen := {[cleanExt]} ∪ seen st |}.

Definition norm_loop (exts : list string) : NormState :=
  fold_left norm_step exts {| normalized := []; matchAll := false; seen := ∅ |}.

(** The new value of [pair.IncludeExt]; Go's [nil] slice is the empty list. *)
Definition normalizeIncludeExtensions (IncludeExt : list string) : list string :=
  match IncludeExt with
  | [] => IncludeExt
  | _ =>
      let st := norm_loop IncludeExt in
      if (matchAll st || is_empty (normalized st))%bool then []
      else normalized st
  end.

End Filters.


(** ** Integers *)

(** Go's [int] on the 64-bit targets: two's complement, wrapping. *)
Definition wrap64 (z : Z) : Z := (z + 2 ^ 63) mod 2 ^ 64 - 2 ^ 63.

(** [x++] on an [int]. *)
Definition incr (x : Z) : Z := wrap64 (x + 1).

(** ** internal/scheduler/scheduler.go *)

Module scheduler.


(** [ScheduleType] is a string type; these are its named constants. *)
Definition ScheduleTypeDisabled : string := "disabled".
Definition ScheduleTypeWatcher : string := "watcher".
Definition ScheduleTypeInterval : string := "interval".
Definition ScheduleTypeCron : string := "cron".
Definition ScheduleTypeCustom : string := "custom".

Record CustomSchedule := {
  WeekDays : list Z;
  StartTime : string;
  EndTime : string;
  CustomInterval : string;
  SkipHolidays : bool;
  OnlyWorkDays : bool
}.

(** Times are instants on an integer time line (nanoseconds); a nil
    [*time.Time] is [None]. *)
Record Schedule := {
  SType : string;
  Interval : string;
  CronExpr : string;
  Custom : option CustomSchedule;
  Timezone : string;
  StartDate : option Z;
  EndDate : option Z;
  MaxRuns : Z
}.

Definition NewWatcherSchedule : Schedule :=
  {| SType := ScheduleTypeWatcher; Interval := ""; CronExpr := ""; Custom := None;
     Timezone := ""; StartDate := None; EndDate := None; MaxRuns := 0 |}.

Definition NewIntervalSchedule (interval : string) : Schedule :=
  {| SType := ScheduleTypeInterval; Interval := interval; CronExpr := ""; Custom := None;
     Timezone := ""; StartDate := None; EndDate := None; MaxRuns := 0 |}.

Definition NewCronSchedule (cronExpr : string) : Schedule :=
  {| SType := ScheduleTypeCron; Interval := ""; CronExpr := cronExpr; Custom := None;
     Timezone := ""; StartDate := None; EndDate := None; MaxRuns := 0 |}.

(** The task as the scheduler keeps it.  The callable [fn] is opaque: what
    one invocation of it does is an [Outcome] handed to [executeTask].
    [ticker] is the period of the running ticker ([None] for nil),
    [cronEntry] the id of the cron entry (0 for none).  The goroutines that
    wait on the ticker and on [stopChan] are not modelled. *)
Record Task := {
  ID : string;
  Name : string;
  TSchedule : Schedule;
  Enabled : bool;
  LastRun : option Z;
  NextRun : option Z;
  RunCount : Z;
  FailCount : Z;
  LastError : string;
  cronEntry : Z;
  ticker : option Z
}.

(** What one call of a [TaskFunc] does: it returns nil, returns an error, or
    panics with a value (rendered with [%v]). *)
Inductive Outcome :=
| Returns
| ReturnsError (msg : string)
| Panics (value : string).

(** The errors of the scheduler, one constructor per [fmt.Errorf] format,
    and the one way a call ends without returning: [time.NewTicker] panics
    on an interval that is not positive.  [TickerPanic d] stands for that
    panic.  It unwinds through [scheduleTask], through [AddTask],
    [UpdateTask] or [EnableTask], and through the pair manager's call, past
    all they had left to do; the deferred unlocks run, and what was written
    before the panic stays written. *)
Inductive SchedError :=
| TaskExists (id : string)
| TaskNotFound (id : string)
| FailedToSchedule (id : string) (cause : SchedError)
| FailedToReschedule (id : string) (cause : SchedError)
| InvalidInterval (s : string)
| InvalidCron (s : string)
| CustomMissing
| InvalidCustomInterval (s : string)
| InvalidStartTime (s : string)
| InvalidEndTime (s : string)
| UnsupportedType (s : string)
| TickerPanic (d : Z).

(** [fmt.Errorf("...: %w", err)] on the way out: an error is wrapped, a
    panic passes as it is. *)
Definition wrapped (wrap : SchedError -> SchedError) (err : SchedError) : SchedError :=
  match err with
  | TickerPanic _ => err
  | _ => wrap err
  end.

(** The scheduler: the task map and the cron component (its entries, keyed
    by entry id, and the id it hands out next; ids start at 1). *)
Record Scheduler := {
  tasks : gmap string Task;
  cronEntries : gmap Z string;
  cronNextID : Z
}.

Definition set_tasks (s : Scheduler) (m : gmap string Task) : Scheduler :=
  {| tasks := m; cronEntries := cronEntries s; cronNextID := cronNextID s |}.

(** The schedule type of the task registered under [id], if there is one. *)
Definition typeOf (s : Scheduler) (id : string) : option string :=
  (fun t => SType (TSchedule t)) <$> tasks s !! id.

Section SchedulerOps.

(** [time.ParseDuration], in nanoseconds. *)
Variable ParseDuration : string -> option Z.

(** [time.Parse("15:04", s)], as seconds since midnight. *)
Variable ParseClock : string -> option Z.

(** The cron parser: for an expression that parses, the function from an
    instant to the next activation after it. *)
Variable CronParse : string -> option (Z -> Z).

Definition NewScheduler : Scheduler :=
  {| tasks := ∅; cronEntries := ∅; cronNextID := 1 |}.

Definition minute : Z := 60 * 1000 * 1000 * 1000.

Definition calculateCheckInterval (interval : Z) : Z :=
  if interval <? minute then interval else minute.

Definition validateCustomSchedule (custom : CustomSchedule) : option SchedError :=
  match ParseDuration (CustomInterval custom) with
  | None => Some (InvalidCustomInterval (CustomInterval custom))
  | Some _ =>
      match ParseClock (StartTime custom) with
      | None => Some (InvalidStartTime (StartTime custom))
      | Some _ =>
          match ParseClock (EndTime custom) with
          | None => Some (InvalidEndTime (EndTime custom))
          | Some _ => None
          end
      end
  end.

Definition set_sched (t : Task) (tk : option Z) (nx : option Z) (ce : Z) : Task :=
  {| ID := ID t; Name := Name t; TSchedule := TSchedule t; Enabled := Enabled t;
     LastRun := LastRun t; NextRun := nx; RunCount := RunCount t;
     FailCount := FailCount t; LastError := LastError t;
     cronEntry := ce; ticker := tk |}.

Definition scheduleIntervalTask (now : Z) (s : Scheduler) (task : Task)
    : Scheduler * Task * option SchedError :=
  match ParseDuration (Interval (TSchedule task)) with
  | None => (s, task, Some (InvalidInterval (Interval (TSchedule task))))
  | Some interval =>
      if interval <=? 0 then (s, task, Some (TickerPanic interval))
      else (s, set_sched task (Some interval) (Some (now + interval)) (cronEntry task), None)
  end.

Definition scheduleCronTask (now : Z) (s : Scheduler) (task : Task)
    : Scheduler * Task * option SchedError :=
  match CronParse (CronExpr (TSchedule task)) with
  | None => (s, task, Some (InvalidCron (CronExpr (TSchedule task))))
  | Some next =>
      let entryID := cronNextID s in
      ({| tasks := tasks s;
          cronEntries := <[entryID := ID task]> (cronEntries s);
          cronNextID := entryID + 1 |},
       set_sched task (ticker task) (Some (next now)) entryID, None)
  end.

Definition scheduleCustomTask (now : Z) (s : Scheduler) (task : Task)
    : Scheduler * Task * option SchedError :=
  match Custom (TSchedule task) with
  | None => (s, task, Some CustomMissing)
  | Some custom =>
      match validateCustomSchedule custom with
      | Some err => (s, task, Some err)
      | None =>
          let interval := default 0 (ParseDuration (CustomInterval custom)) in
          let checkInterval := calculateCheckInterval interval in
          if checkInterval <=? 0 then (s, task, Some (TickerPanic checkInterval))
          else (s, set_sched task (Some checkInterval)
                     (Some (now + interval)) (cronEntry task), None)
      end
  end.

Definition scheduleTask (now : Z) (s : Scheduler) (task : Task)
    : Scheduler * Task * option SchedError :=
  let ty := SType (TSchedule task) in
  if String.eqb ty ScheduleTypeDisabled then (s, task, None)
  else if String.eqb ty ScheduleTypeWatcher then (s, task, None)
  else if String.eqb ty ScheduleTypeInterval then scheduleIntervalTask now s task
  else if String.eqb ty ScheduleTypeCron then scheduleCronTask now s task
  else if String.eqb ty ScheduleTypeCustom then scheduleCustomTask now s task
  else (s, task, Some (UnsupportedType ty)).

Definition unscheduleTask (s : Scheduler) (task : Task) : Scheduler * Task :=
  let s1 :=
    if cronEntry task =? 0 then s
    else {| tasks := tasks s;
            cronEntries := delete (cronEntry task) (cronEntries s);
            cronNextID := cronNextID s |} in
  (s1, set_sched task None None 0).

Definition AddTask (now : Z) (s : Scheduler) (id name : string) (schedule : Schedule)
    : Scheduler * option SchedError :=
  match tasks s !! id with
  | Some _ => (s, Some (TaskExists id))
  | None =>
      let task :=
        {| ID := id; Name := name; TSchedule := schedule; Enabled := true;
           LastRun := None; NextRun := None; RunCount := 0; FailCount := 0;
           LastError := ""; cronEntry := 0; ticker := None |} in
      match scheduleTask now s task with
      | (s1, _, Some err) => (s1, Some (wrapped (FailedToSchedule id) err))
      | (s1, task1, None) => (set_tasks s1 (<[id := task1]> (tasks s1)), None)
      end
  end.

Definition RemoveTask (s : Scheduler) (id : string) : Scheduler * option SchedError :=
  match tasks s !! id with
  | None => (s, Some (TaskNotFound id))
  | Some task =>
      let '(s1, _) := unscheduleTask s task in
      (set_tasks s1 (delete id (tasks s1)), None)
  end.

Definition set_schedule (t : Task) (schedule : Schedule) : Task :=
  {| ID := ID t; Name := Name t; TSchedule := schedule; Enabled := Enabled t;
     LastRun := LastRun t; NextRun := NextRun t; RunCount := RunCount t;
     FailCount := FailCount t; LastError := LastError t;
     cronEntry := cronEntry t; ticker := ticker t |}.

Definition set_enabled (t : Task) (b : bool) : Task :=
  {| ID := ID t; Name := Name t; TSchedule := TSchedule t; Enabled := b;
     LastRun := LastRun t; NextRun := NextRun t; RunCount := RunCount t;
     FailCount := FailCount t; LastError := LastError t;
     cronEntry := cronEntry t; ticker := ticker t |}.

(** The task is a pointer held by the map: what [UpdateTask] did to it before
    a failed reschedule stays done. *)
Definition UpdateTask (now : Z) (s : Scheduler) (id : string) (schedule : Schedule)
    : Scheduler * option SchedError :=
  match tasks s !! id with
  | None => (s, Some (TaskNotFound id))
  | Some task =>
      let '(s1, task1) := unscheduleTask s task in
      let task2 := set_schedule task1 schedule in
      if Enabled task2 then
        match scheduleTask now s1 task2 with
        | (s2, task3, Some err) =>
            (set_tasks s2 (<[id := task3]> (tasks s2)),
             Some (wrapped (FailedToReschedule id) err))
        | (s2, task3, None) => (set_tasks s2 (<[id := task3]> (tasks s2)), None)
        end
      else (set_tasks s1 (<[id := task2]> (tasks s1)), None)
  end.

Definition EnableTask (now : Z) (s : Scheduler) (id : string)
    : Scheduler * option SchedError :=
  match tasks s !! id with
  | None => (s, Some (TaskNotFound id))
  | Some task =>
      if Enabled task then (s, None)
      else
        let '(s1, task1, err) := scheduleTask now s (set_enabled task true) in
        (set_tasks s1 (<[id := task1]> (tasks s1)), err)
  end.

Definition DisableTask (s : Scheduler) (id : string) : Scheduler * option SchedError :=
  match tasks s !! id with
  | None => (s, Some (TaskNotFound id))
  | Some task =>
      if negb (Enabled task) then (s, None)
      else
        let '(s1, task1) := unscheduleTask s (set_enabled task false) in
        (set_tasks s1 (<[id := task1]> (tasks s1)), None)
  end.

(** [shouldExecuteTask]. *)
Definition shouldExecuteTask (now : Z) (task : Task) : bool :=
  if negb (Enabled task) then false
  else if match StartDate (TSchedule task) with Some d => now <? d | None => false end
  then false
  else if match EndDate (TSchedule task) with Some d => d <? now | None => false end
  then false
  else if ((0 <? MaxRuns (TSchedule task)) && (MaxRuns (TSchedule task) <=? RunCount task))%bool
  then false
  else true.

Definition set_stats (t : Task) (lr : option Z) (rc fc : Z) (le : string) : Task :=
  {| ID := ID t; Name := Name t; TSchedule := TSchedule t; Enabled := Enabled t;
     LastRun := lr; NextRun := NextRun t; RunCount := rc;
     FailCount := fc; LastError := le;
     cronEntry := cronEntry t; ticker := ticker t |}.

(** [executeTask]: [LastRun] is recorded, the callable runs, and the
    statistics follow its outcome.  A panic unwinds past [RunCount++] into
    the deferred handler. *)
Definition executeTask (now : Z) (out : Outcome) (task : Task) : Task :=
  let task := set_stats task (Some now) (RunCount task) (FailCount task) (LastError task) in
  match out with
  | Panics r =>
      set_stats task (LastRun task) (RunCount task) (incr (FailCount task))
        ("panic: " ++ r)
  | ReturnsError msg =>
      let task := set_stats task (LastRun task) (RunCount task) (incr (FailCount task)) msg in
      set_stats task (LastRun task) (incr (RunCount task)) (FailCount task) (LastError task)
  | Returns =>
      let task := set_stats task (LastRun task) (RunCount task) (FailCount task) "" in
      set_stats task (LastRun task) (incr (RunCount task)) (FailCount task) (LastError task)
  end.

(** [RunTaskNow] looks the task up and runs [executeTask] on it in a goroutine
    of its own; [out] is what the callable does in that run. *)
Definition RunTaskNow (now : Z) (out : Outcome) (s : Scheduler) (id : string)
    : Scheduler * option SchedError :=
  match tasks s !! id with
  | None => (s, Some (TaskNotFound id))
  | Some task => (set_tasks s (<[id := executeTask now out task]> (tasks s)), None)
  end.

End SchedulerOps.

End scheduler.

(** ** internal/config: the sync pair *)

Record Pair := {
  ID : string;
  Enabled : bool;
  Source : string;
  Target : string;
  IncludeExt : list string;
  ExcludeGlobs : list string;
  SyncStrategy : string;
  DebounceMs : Z;
  MirrorDeletes : bool;
  Hooks : list Hook;
  Schedule : scheduler.Schedule;
  Description : string
}.

(** ** internal/core/pair.go: the pair manager *)

(** A [PairWorker]: the pair it watches and whether its watch loop is
    running ([cancel != nil]).  The loop itself runs beside the manager. *)
Record PairWorker := {
  WPair : Pair;
  running : bool
}.

Record PairManager := {
  sched : scheduler.Scheduler;
  workers : gmap string PairWorker
}.

Section PairManagerOps.

Variable ParseDuration : string -> option Z.
Variable ParseClock : string -> option Z.
Variable CronParse : string -> option (Z -> Z).

Definition NewPairManager : PairManager :=
  {| sched := scheduler.NewScheduler; workers := ∅ |}.

Definition NewPairWorker (pair : Pair) : PairWorker :=
  {| WPair := pair; running := false |}.

(** [PairWorker.Start]: a worker that is already started is left alone;
    the call has no failing path. *)
Definition WorkerStart (w : PairWorker) : PairWorker * option scheduler.SchedError :=
  if running w then (w, None)
  else ({| WPair := WPair w; running := true |}, None).

Definition WorkerStop (w : PairWorker) : PairWorker :=
  if negb (running w) then w
  else {| WPair := WPair w; running := false |}.

Definition StartPair (now : Z) (pm : PairManager) (pair : Pair)
    : PairManager * option scheduler.SchedError :=
  (* Stop existing task and worker if they exist *)
  let pm1 :=
    match workers pm !! ID pair with
    | Some worker =>
        let _ := WorkerStop worker in
        let '(s1, _) := scheduler.RemoveTask (sched pm) (ID pair) in
        {| sched := s1; workers := delete (ID pair) (workers pm) |}
    | None => pm
    end in
  let description :=
    if String.eqb (Description pair) "" then "Sync " ++ ID pair else Description pair in
  match scheduler.AddTask ParseDuration ParseClock CronParse now (sched pm1)
          (ID pair) description (Schedule pair) with
  | (s2, Some err) => ({| sched := s2; workers := workers pm1 |}, Some err)
  | (s2, None) =>
      if String.eqb (scheduler.SType (Schedule pair)) scheduler.ScheduleTypeWatcher then
        match WorkerStart (NewPairWorker pair) with
        | (_, Some err) =>
            let '(s3, _) := scheduler.RemoveTask s2 (ID pair) in
            ({| sched := s3; workers := workers pm1 |}, Some err)
        | (worker, None) =>
            ({| sched := s2; workers := <[ID pair := worker]> (workers pm1) |}, None)
        end
      else ({| sched := s2; workers := workers pm1 |}, None)
  end.

Definition StopPair (pm : PairManager) (pairID : string)
    : PairManager * option scheduler.SchedError :=
  let ws :=
    match workers pm !! pairID with
    | Some worker => let _ := WorkerStop worker in delete pairID (workers pm)
    | None => workers pm
    end in
  let '(s1, err) := scheduler.RemoveTask (sched pm) pairID in
  ({| sched := s1; workers := ws |}, err).

Definition UpdatePair (now : Z) (pm : PairManager) (pair : Pair)
    : PairManager * option scheduler.SchedError :=
  match scheduler.UpdateTask ParseDuration ParseClock CronParse now (sched pm)
          (ID pair) (Schedule pair) with
  | (s1, Some err) => ({| sched := s1; workers := workers pm |}, Some err)
  | (s1, None) =>
      if String.eqb (scheduler.SType (Schedule pair)) scheduler.ScheduleTypeWatcher then
        match workers pm !! ID pair with
        | None =>
            match WorkerStart (NewPairWorker pair) with
            | (_, Some err) => ({| sched := s1; workers := workers pm |}, Some err)
            | (worker, None) =>
                ({| sched := s1; workers := <[ID pair := worker]> (workers pm) |}, None)
            end
        | Some _ => ({| sched := s1; workers := workers pm |}, None)
        end
      else
        match workers pm !! ID pair with
        | Some worker =>
            let _ := WorkerStop worker in
            ({| sched := s1; workers := delete (ID pair) (workers pm) |}, None)
        | None => ({| sched := s1; workers := workers pm |}, None)
        end
  end.

(** [SyncPairNow]. *)
Definition SyncPairNow (now : Z) (out : scheduler.Outcome) (pm : PairManager)
    (pairID : string) : PairManager * option scheduler.SchedError :=
  let '(s1, err) := scheduler.RunTaskNow now out (sched pm) pairID in
  ({| sched := s1; workers := workers pm |}, err).

(** The [WatcherActive] field of [GetPairStatus]. *)
Definition WatcherActive (pm : PairManager) (pairID : string) : bool :=
  bool_decide (is_Some (workers pm !! pairID)).

(** The schedule type [GetPairStatus] reports, when the task exists. *)
Definition ScheduleTypeOf (pm : PairManager) (pairID : string) : option string :=
  scheduler.typeOf (sched pm) pairID.

(** The relation between watchers and registered schedule types that the
    manager maintains: a watcher runs for [id] exactly when the task
    registered under [id] has schedule type "watcher". *)
Definition watcher_invariant (pm : PairManager) : Prop :=
  forall id, WatcherActive pm id = true
    <-> ScheduleTypeOf pm id = Some scheduler.ScheduleTypeWatcher.

(** The calls a client can make on the manager (and, through it, on its
    scheduler), and the manager after a sequence of them.  [ok] tells whether
    no [UpdatePair] so far failed: came back with an error, or ended in a
    panic. *)
Inductive Call :=
| CallStart (pair : Pair)
| CallStop (pairID : string)
| CallUpdate (pair : Pair)
| CallSyncNow (pairID : string) (out : scheduler.Outcome)
| CallEnableTask (id : string)
| CallDisableTask (id : string).

Definition do_call (now : Z) (pm : PairManager) (c : Call)
    : PairManager * option scheduler.SchedError :=
  match c with
  | CallStart p => StartPair now pm p
  | CallStop pairID => StopPair pm pairID
  | CallUpdate p => UpdatePair now pm p
  | CallSyncNow pairID out => SyncPairNow now out pm pairID
  | CallEnableTask id =>
      let '(s1, err) :=
        scheduler.EnableTask ParseDuration ParseClock CronParse now (sched pm) id in
      ({| sched := s1; workers := workers pm |}, err)
  | CallDisableTask id =>
      let '(s1, err) := scheduler.DisableTask (sched pm) id in
      ({| sched := s1; workers := workers pm |}, err)
  end.

Definition is_update (c : Call) : bool :=
  match c with CallUpdate _ => true | _ => false end.

Fixpoint run_calls (now : Z) (pm : PairManager) (cs : list Call) : PairManager * bool :=
  match cs with
  | [] => (pm, true)
  | c :: rest =>
      let '(pm1, err) := do_call now pm c in
      let '(pm2, ok) := run_calls (now + 1) pm1 rest in
      (pm2, (negb (is_update c && bool_decide (is_Some err)) && ok)%bool)
  end.

End PairManagerOps.

(** ** Stand-ins for the parsers of the standard library, for examples

    Only the inputs the examples use are recognised. *)

Definition sampleParseDuration (s : string) : option Z :=
  if String.eqb s "1m" then Some (60 * 1000 * 1000 * 1000)
  else if String.eqb s "15m" then Some (15 * 60 * 1000 * 1000 * 1000)
  else if String.eqb s "0s" then Some 0
  else None.

Definition sampleParseClock (s : string) : option Z :=
  if String.eqb s "08:00" then Some (8 * 3600)
  else if String.eqb s "20:00" then Some (20 * 3600)
  else None.

(** "0 0 9 * * *" is read as "every day"; the instant of the next activation
    is taken one day ahead. *)
Definition sampleCronParse (s : string) : option (Z -> Z) :=
  if String.eqb s "0 0 9 * * *" then Some (fun now => now + 86400 * 1000 * 1000 * 1000)
  else None.

Definition samplePair (id : string) (enabled : bool) (schedule : scheduler.Schedule) : Pair :=
  {| ID := id; Enabled := enabled; Source := "/src"; Target := "/dst";
     IncludeExt := []; ExcludeGlobs := []; SyncStrategy := "mtime"; DebounceMs := 300;
     MirrorDeletes := false; Hooks := []; Schedule := schedule; Description := "" |}.

(** ** The file system and the calls into the operating system

    Regular files by (clean, slash-separated) path.  Of what else there
    is, the world keeps what [os.Stat] reports of it and no more: a call
    that would fail because of a directory (or for any other reason the
    model does not see) fails by a fault decision. *)

Record File := {
  data : string;
  mtime : Z
}.

(** What [os.Stat] meets at a path that holds no regular file: a directory,
    whose entry reports a size and a time ([info] carries them, as a file of
    that length and time would), or a path the call cannot examine (a parent
    that is a file, a directory that may not be searched, a link that
    loops): there it fails with an error that [os.IsNotExist] does not
    accept. *)
Inductive Special :=
| Directory (info : File)
| Unreadable.

(** A fault decision: the call goes through, or it fails.  For a copy,
    [after] is the number of bytes that got written before the failure. *)
Inductive Fault :=
| NoFault
| Fail (after : nat).

Inductive OSError :=
| ErrNotExist (path : string)
| ErrIO (op path : string).

Inductive Syscall :=
| SysOpen (path : string)
| SysCreate (path : string)
| SysWrite (path chunk : string)
| SysClose (path : string)
| SysChtimes (path : string) (t : Z)
| SysRename (oldpath newpath : string)
| SysRemove (path : string)
| SysMkdirAll (path : string)
| SysWalkDir (root : string)
| SysSleep (d : Z)
| SysHook (index : nat) (relPath : string)
| SysLog (msg : string).

(** One entry of the trace: the call, whether it failed, and the files
    after it. *)
Record Event := {
  call : Syscall;
  failed : bool;
  after : gmap string File
}.

(** The world a call runs in: the files, what else [os.Stat] can meet, the
    fault decisions still to come (none left means no fault), the clock in
    nanoseconds, and the calls made so far, latest first.  [others] stays as
    the run found it: the directories a run makes lie on the way to the
    files it writes, and it looks for no file there. *)
Record World := {
  fs : gmap string File;
  others : gmap string Special;
  faults : list Fault;
  clock : Z;
  trace : list Event
}.

(** Computations that act on the world. *)
Definition M (A : Type) : Type := World -> A * World.

#[export] Instance M_ret : MRet M := fun A a w => (a, w).

#[export] Instance M_bind : MBind M :=
  fun A B f m w => let '(a, w1) := m w in f a w1.

Definition next_fault : M Fault := fun w =>
  (hd NoFault (faults w),
   {| fs := fs w; others := others w; faults := tl (faults w); clock := clock w;
      trace := trace w |}).

(** Record a call and install the files it leaves. *)
Definition emit (c : Syscall) (bad : bool) (fs' : gmap string File) : M unit := fun w =>
  (tt, {| fs := fs'; others := others w; faults := faults w; clock := clock w;
          trace := {| call := c; failed := bad; after := fs' |} :: trace w |}).

Definition get_fs : M (gmap string File) := fun w => (fs w, w).

Definition get_clock : M Z := fun w => (clock w, w).

(** What [os.Stat] returns: the entry of a regular file or of a directory
    ([err == nil]; [IsDir] tells them apart), an error that
    [os.IsNotExist] accepts, or another error. *)
Inductive StatResult :=
| StatFile (info : File)
| StatDir (info : File)
| StatNotExist
| StatError.

(** The entry, when [err == nil]. *)
Definition stat_info (r : StatResult) : option File :=
  match r with
  | StatFile info | StatDir info => Some info
  | StatNotExist | StatError => None
  end.

Definition stat_of (w : World) (path : string) : StatResult :=
  match fs w !! path with
  | Some f => StatFile f
  | None =>
      match others w !! path with
      | Some (Directory d) => StatDir d
      | Some Unreadable => StatError
      | None => StatNotExist
      end
  end.

(** [os.Stat]. *)
Definition os_Stat (path : string) : M StatResult := fun w => (stat_of w path, w).

Definition os_Open (path : string) : M (option OSError) :=
  f ← next_fault; m ← get_fs;
  match f with
  | Fail _ => _ ← emit (SysOpen path) true m; mret (Some (ErrIO "open" path))
  | NoFault =>
      match m !! path with
      | None => _ ← emit (SysOpen path) true m; mret (Some (ErrNotExist path))
      | Some _ => _ ← emit (SysOpen path) false m; mret None
      end
  end.

(** [os.Create]: the file is created empty, or truncated. *)
Definition os_Create (path : string) : M (option OSError) :=
  f ← next_fault; m ← get_fs; now ← get_clock;
  match f with
  | Fail _ => _ ← emit (SysCreate path) true m; mret (Some (ErrIO "create" path))
  | NoFault =>
      _ ← emit (SysCreate path) false (<[path := {| data := ""; mtime := now |}]> m);
      mret None
  end.

Definition append_data (chunk : string) (f : File) : File :=
  {| data := data f ++ chunk; mtime := mtime f |}.

Definition os_Write (path chunk : string) : M unit :=
  m ← get_fs; emit (SysWrite path chunk) false (alter (append_data chunk) path m).

Definition file_Close (path : string) : M (option OSError) :=
  f ← next_fault; m ← get_fs;
  match f with
  | Fail _ => _ ← emit (SysClose path) true m; mret (Some (ErrIO "close" path))
  | NoFault => _ ← emit (SysClose path) false m; mret None
  end.

Definition set_mtime (t : Z) (f : File) : File := {| data := data f; mtime := t |}.

Definition os_Chtimes (path : string) (t : Z) : M (option OSError) :=
  f ← next_fault; m ← get_fs;
  match f with
  | Fail _ => _ ← emit (SysChtimes path t) true m; mret (Some (ErrIO "chtimes" path))
  | NoFault =>
      match m !! path with
      | None => _ ← emit (SysChtimes path t) true m; mret (Some (ErrNotExist path))
      | Some _ => _ ← emit (SysChtimes path t) false (alter (set_mtime t) path m); mret None
      end
  end.

(** [os.Rename]: one step takes the file from the old name to the new one,
    replacing what the new name held. *)
Definition os_Rename (oldpath newpath : string) : M (option OSError) :=
  f ← next_fault; m ← get_fs;
  match f with
  | Fail _ => _ ← emit (SysRename oldpath newpath) true m; mret (Some (ErrIO "rename" oldpath))
  | NoFault =>
      match m !! oldpath with
      | None => _ ← emit (SysRename oldpath newpath) true m; mret (Some (ErrNotExist oldpath))
      | Some file =>
          _ ← emit (SysRename oldpath newpath) false (<[newpath := file]> (delete oldpath m));
          mret None
      end
  end.

Definition os_Remove (path : string) : M (option OSError) :=
  f ← next_fault; m ← get_fs;
  match f with
  | Fail _ => _ ← emit (SysRemove path) true m; mret (Some (ErrIO "remove" path))
  | NoFault =>
      match m !! path with
      | None => _ ← emit (SysRemove path) true m; mret (Some (ErrNotExist path))
      | Some _ => _ ← emit (SysRemove path) false (delete path m); mret None
      end
  end.

Definition os_MkdirAll (path : string) : M (option OSError) :=
  f ← next_fault; m ← get_fs;
  match f with
  | Fail _ => _ ← emit (SysMkdirAll path) true m; mret (Some (ErrIO "mkdir" path))
  | NoFault => _ ← emit (SysMkdirAll path) false m; mret None
  end.

Definition time_Sleep (d : Z) : M unit := fun w =>
  (tt, {| fs := fs w; others := others w; faults := faults w; clock := clock w + d;
          trace := {| call := SysSleep d; failed := false; after := fs w |} :: trace w |}).

Definition log_msg (msg : string) : M unit :=
  m ← get_fs; emit (SysLog msg) false m.

(** *** Paths *)

(** [filepath.Join] of two clean, non-empty paths. *)
Definition Join (a b : string) : string := (a ++ "/") ++ b.

(** What is left of [path] once the leading [pre] is taken off. *)
Fixpoint strip_prefix (pre path : string) : option string :=
  match pre with
  | EmptyString => Some path
  | String x pre' =>
      match path with
      | EmptyString => None
      | String y path' => if Ascii.eqb x y then strip_prefix pre' path' else None
      end
  end.

(** [filepath.Rel] for a path below [base]; other paths are not met on a
    walk of [base]. *)
Definition Rel (base path : string) : option string := strip_prefix (base ++ "/") path.

(** Whether [path] lies below the directory [root]. *)
Definition under (root path : string) : bool :=
  match Rel root path with Some _ => true | None => false end.

(** Neither root lies below the other (nor are they the same). *)
Definition roots_apart (a b : string) : bool :=
  (negb (under a (b ++ "/")) && negb (under b (a ++ "/")))%bool.

(** [filepath.Dir] of a clean path. *)
Fixpoint dir_of (p : string) : string :=
  match p with
  | EmptyString => EmptyString
  | String c r => if has_sep false r then String c (dir_of r) else EmptyString
  end.

Definition Dir (p : string) : string :=
  match dir_of p with
  | EmptyString => if String.prefix "/" p then "/" else "."
  | d => d
  end.

(** The order in which [filepath.WalkDir] meets the files of a tree: the
    entries of each directory by name, a directory's content in the place of
    its name.  On whole paths this is the lexicographic order in which the
    separator sorts before every other byte. *)
Definition sep_key (c : ascii) : nat :=
  if Ascii.eqb c "/" then O else S (nat_of_ascii c).

Fixpoint path_leb (a b : string) : bool :=
  match a, b with
  | EmptyString, _ => true
  | String _ _, EmptyString => false
  | String x a', String y b' =>
      if (sep_key x <? sep_key y)%nat then true
      else if (sep_key x =? sep_key y)%nat then path_leb a' b'
      else false
  end.

Definition path_le (a b : string) : Prop := path_leb a b = true.

#[export] Instance path_le_dec : RelDecision path_le.
Proof. intros a b. unfold path_le. apply _. Defined.

(** The files below [root], in walk order. *)
Definition walk_files (root : string) (m : gmap string File) : list string :=
  merge_sort path_le (List.filter (under root) (map fst (map_to_list m))).

(** [filepath.WalkDir] up to the listing: a failure to read the tree is a
    fault. *)
Definition WalkDir (root : string) : M (list string * option OSError) :=
  f ← next_fault; m ← get_fs;
  match f with
  | Fail _ => _ ← emit (SysWalkDir root) true m; mret ([], Some (ErrIO "walk" root))
  | NoFault => _ ← emit (SysWalkDir root) false m; mret (walk_files root m, None)
  end.

(** ** The copier (core, after the hook runner) *)

Definition HashBufferSize : Z := 32 * 1024 * 1024.
Definition CopyBufferSize : N := 8 * 1024 * 1024.
Definition ModTimeToleranceSeconds : Z := 2.
Definition second : Z := 1000 * 1000 * 1000.
Definition millisecond : Z := 1000 * 1000.
Definition SyncStrategyMTime : string := "mtime".
Definition SyncStrategyHash : string := "hash".

(** The successive buffers of a copy: [s] cut into pieces of [cap] bytes,
    the last one possibly shorter.  [room] is the space left in the piece
    [cur] under construction. *)
Fixpoint chunks_aux (cap room : N) (cur s : string) : list string :=
  match s with
  | EmptyString => match cur with EmptyString => [] | _ => [cur] end
  | String c r =>
      if (room =? 0)%N then cur :: chunks_aux cap (cap - 1) (String c EmptyString) r
      else chunks_aux cap (room - 1) (cur ++ String c EmptyString) r
  end.

Definition chunks (cap : N) (s : string) : list string := chunks_aux cap cap "" s.

Fixpoint write_chunks (path : string) (cs : list string) : M unit :=
  match cs with
  | [] => mret tt
  | c :: rest => _ ← os_Write path c; write_chunks path rest
  end.

(** [io.CopyBuffer] from the open source to the open temp file: the bytes
    written and the error.  The source is read as it is when the copy
    starts. *)
Definition io_CopyBuffer (dst src : string) : M (Z * option OSError) :=
  f ← next_fault; m ← get_fs;
  let content := default "" (data <$> m !! src) in
  match f with
  | NoFault =>
      _ ← write_chunks dst (chunks CopyBufferSize content);
      mret (Z.of_nat (String.length content), None)
  | Fail k =>
      let written := String.substring 0 (Nat.min k (String.length content)) content in
      _ ← write_chunks dst (chunks CopyBufferSize written);
      mret (Z.of_nat (String.length written), Some (ErrIO "copy" dst))
  end.

(** [copyAtomic]. *)
Definition copyAtomic (sourcePath targetPath : string) : M (Z * option OSError) :=
  let tempPath := targetPath ++ ".tmp" in
  err ← os_Open sourcePath;
  match err with
  | Some e => mret (0, Some e)
  | None =>
  err ← os_Create tempPath;
  match err with
  | Some e => mret (0, Some e)
  | None =>
  '(bytesCopied, copyErr) ← io_CopyBuffer tempPath sourcePath;
  closeErr ← file_Close tempPath;
  let copyErr := match copyErr with None => closeErr | Some _ => copyErr end in
  match copyErr with
  | Some e => _ ← os_Remove tempPath; mret (bytesCopied, Some e)
  | None =>
  sourceInfo ← os_Stat sourcePath;
  _ ← match stat_info sourceInfo with
      | Some info => _ ← os_Chtimes tempPath (mtime info); mret tt
      | None => mret tt
      end;
  err ← os_Rename tempPath targetPath;
  match err with
  | Some e => _ ← os_Remove tempPath; mret (bytesCopied, Some e)
  | None => mret (bytesCopied, None)
  end end end end.

(** The watcher's constants (pair.go). *)
Definition FirstRetryDelay : Z := 100 * millisecond.
Definition SecondRetryDelay : Z := 300 * millisecond.
Definition ThirdRetryDelay : Z := 600 * millisecond.
Definition MirrorDeleteDelay : Z := 100 * millisecond.

Record SyncResult := {
  FilesCopied : Z;
  BytesCopied : Z;
  FilesDeleted : Z;
  FilesSkipped : Z
}.

Definition skipped (r : SyncResult) : SyncResult :=
  {| FilesCopied := FilesCopied r; BytesCopied := BytesCopied r;
     FilesDeleted := FilesDeleted r; FilesSkipped := incr (FilesSkipped r) |}.

Definition copied (r : SyncResult) (bytes : Z) : SyncResult :=
  {| FilesCopied := incr (FilesCopied r); BytesCopied := wrap64 (BytesCopied r + bytes);
     FilesDeleted := FilesDeleted r; FilesSkipped := FilesSkipped r |}.

Definition deleted (r : SyncResult) : SyncResult :=
  {| FilesCopied := FilesCopied r; BytesCopied := BytesCopied r;
     FilesDeleted := incr (FilesDeleted r); FilesSkipped := FilesSkipped r |}.

Section Copier.

Variable windows : bool.
Variable PathMatch : string -> string -> bool.

(** SHA-256 of a byte string, hex encoded. *)
Variable sha256 : string -> string.

(** [NormalizePath]. *)
Definition NormalizePath (path : string) : string := ToSlash windows path.

(** [RunHooks]: the hooks whose filter accepts the file run, in order.  The
    model records that a hook ran, and nothing of what its request or its
    command does.  What is proved below of the files a copying run leaves
    is therefore proved for pairs without hooks, for which [RunHooks]
    returns at once. *)
Fixpoint run_hooks_from (i : nat) (hooks : list Hook) (relPath : string) : M unit :=
  match hooks with
  | [] => mret tt
  | hook :: rest =>
      _ ← (if shouldTriggerHook windows PathMatch hook relPath
           then m ← get_fs; emit (SysHook i relPath) false m
           else mret tt);
      run_hooks_from (S i) rest relPath
  end.

Definition RunHooks (pair : Pair) (relPath : string) : M unit :=
  run_hooks_from 0 (Hooks pair) relPath.

Definition shouldSyncFile (pair : Pair) (fullPath relativePath : string) : bool :=
  if negb (MatchesInclude windows (IncludeExt pair) fullPath) then false
  else if MatchesExclude windows PathMatch (ExcludeGlobs pair) fullPath then false
  else true.

(** [calculateFileHash]: the file is opened and read through. *)
Definition calculateFileHash (filePath : string) : M (string * option OSError) :=
  err ← os_Open filePath;
  match err with
  | Some e => mret ("", Some e)
  | None =>
      f ← next_fault; m ← get_fs;
      match f with
      | Fail _ => mret ("", Some (ErrIO "read" filePath))
      | NoFault => mret (sha256 (default "" (data <$> m !! filePath)), None)
      end
  end.

Definition compareByHash (sourcePath targetPath : string) : M (bool * option OSError) :=
  '(sourceHash, err) ← calculateFileHash sourcePath;
  match err with
  | Some e => mret (false, Some e)
  | None =>
      '(targetHash, err) ← calculateFileHash targetPath;
      match err with
      | Some e => mret (false, Some e)
      | None => mret (negb (String.eqb sourceHash targetHash), None)
      end
  end.

Definition compareByModTimeAndSize (sourceInfo targetInfo : File) : bool :=
  if negb (String.length (data sourceInfo) =? String.length (data targetInfo))%nat then true
  else
    let timeDiff := mtime sourceInfo - mtime targetInfo in
    let timeDiff := if timeDiff <? 0 then - timeDiff else timeDiff in
    ModTimeToleranceSeconds * second <? timeDiff.

Definition filesAreDifferent (sourcePath targetPath : string) (sourceInfo targetInfo : File)
    (strategy : string) : M (bool * option OSError) :=
  if String.eqb strategy SyncStrategyHash then compareByHash sourcePath targetPath
  else mret (compareByModTimeAndSize sourceInfo targetInfo, None).

Definition isFileChanged (sourcePath : string) (pair : Pair) (relativePath : string)
    : M (bool * option OSError) :=
  sourceInfo ← os_Stat sourcePath;
  match sourceInfo with
  | StatNotExist => mret (false, Some (ErrNotExist sourcePath))
  | StatError => mret (false, Some (ErrIO "stat" sourcePath))
  | StatFile sourceInfo | StatDir sourceInfo =>
      let targetPath := Join (Target pair) relativePath in
      targetInfo ← os_Stat targetPath;
      match targetInfo with
      | StatNotExist => mret (true, None)
      | StatError => mret (false, Some (ErrIO "stat" targetPath))
      | StatFile targetInfo | StatDir targetInfo =>
          filesAreDifferent sourcePath targetPath sourceInfo targetInfo (SyncStrategy pair)
      end
  end.

Definition copyFile (sourcePath : string) (pair : Pair) (relativePath : string)
    : M (Z * option OSError) :=
  let targetPath := Join (Target pair) relativePath in
  err ← os_MkdirAll (Dir targetPath);
  match err with
  | Some e => mret (0, Some e)
  | None => copyAtomic sourcePath targetPath
  end.

(** The callback of the walk in [syncSourceToTarget], for a file. *)
Definition syncEntry (pair : Pair) (path : string) (result : SyncResult)
    : M (SyncResult * option OSError) :=
  match Rel (Source pair) path with
  | None => mret (result, Some (ErrIO "rel" path))
  | Some relativePath =>
      if negb (shouldSyncFile pair path relativePath) then mret (skipped result, None)
      else
        '(changed, err) ← isFileChanged path pair relativePath;
        match err with
        | Some e => mret (result, Some e)
        | None =>
            if negb changed then mret (skipped result, None)
            else
              '(bytesCopied, err) ← copyFile path pair relativePath;
              match err with
              | Some e => mret (result, Some e)
              | None =>
                  _ ← log_msg "copied";
                  _ ← RunHooks pair (NormalizePath relativePath);
                  mret (copied result bytesCopied, None)
              end
        end
  end.

(** A walk stops at the first error of its callback. *)
Fixpoint walk_with (f : string -> SyncResult -> M (SyncResult * option OSError))
    (paths : list string) (result : SyncResult) : M (SyncResult * option OSError) :=
  match paths with
  | [] => mret (result, None)
  | path :: rest =>
      '(result, err) ← f path result;
      match err with
      | Some e => mret (result, Some e)
      | None => walk_with f rest result
      end
  end.

Definition syncSourceToTarget (pair : Pair) (result : SyncResult)
    : M (SyncResult * option OSError) :=
  '(paths, err) ← WalkDir (Source pair);
  match err with
  | Some e => mret (result, Some e)
  | None => walk_with (syncEntry pair) paths result
  end.

(** The callback of the walk in [mirrorDeletions], for a file. *)
Definition mirrorEntry (pair : Pair) (path : string) (result : SyncResult)
    : M (SyncResult * option OSError) :=
  match Rel (Target pair) path with
  | None => mret (result, Some (ErrIO "rel" path))
  | Some relativePath =>
      let sourcePath := Join (Source pair) relativePath in
      sourceInfo ← os_Stat sourcePath;
      match sourceInfo with
      | StatNotExist =>
          err ← os_Remove path;
          match err with
          | Some e => _ ← log_msg "failed to delete target file"; mret (result, Some e)
          | None => _ ← log_msg "deleted (mirror)"; mret (deleted result, None)
          end
      | StatFile _ | StatDir _ | StatError => mret (result, None)
      end
  end.

Definition mirrorDeletions (pair : Pair) (result : SyncResult)
    : M (SyncResult * option OSError) :=
  '(paths, err) ← WalkDir (Target pair);
  match err with
  | Some e => mret (result, Some e)
  | None => walk_with (mirrorEntry pair) paths result
  end.

Definition performSync (pair : Pair) : M (SyncResult * option OSError) :=
  let result :=
    {| FilesCopied := 0; BytesCopied := 0; FilesDeleted := 0; FilesSkipped := 0 |} in
  err ← os_MkdirAll (Target pair);
  match err with
  | Some e => mret (result, Some e)
  | None =>
      '(result, err) ← syncSourceToTarget pair result;
      match err with
      | Some e => mret (result, Some e)
      | None =>
          if MirrorDeletes pair then mirrorDeletions pair result
          else mret (result, None)
      end
  end.

Definition CompareAndSync (pair : Pair) : M (Z * Z * option OSError) :=
  '(result, err) ← performSync pair;
  match err with
  | Some e => mret (FilesCopied result, BytesCopied result, Some e)
  | None =>
      _ ← log_msg "sync completed";
      mret (FilesCopied result, BytesCopied result, None)
  end.

(** *** The watcher's per-file copy (pair.go, [handleFileModification]) *)

Definition retryDelays : list Z := [FirstRetryDelay; SecondRetryDelay; ThirdRetryDelay].

(** The loop [for i, delay := range retryDelays], from index [i] on, with
    [n = len(retryDelays)] and [copyErr] the error so far. *)
Fixpoint retry_loop (n i : nat) (delays : list Z) (sourcePath targetPath : string)
    (copyErr : option OSError) : M (option OSError) :=
  match delays with
  | [] => mret copyErr
  | delay :: rest =>
      '(_, copyErr) ← copyAtomic sourcePath targetPath;
      match copyErr with
      | None => mret None
      | Some e =>
          _ ← (if (i <? n - 1)%nat then time_Sleep delay else mret tt);
          retry_loop n (S i) rest sourcePath targetPath (Some e)
      end
  end.

(** [handleFileModification].  The test [err != nil || os.IsNotExist(err)]
    of the mirror branch is that of [err != nil]. *)
Definition handleFileModification (pair : Pair) (sourcePath relativePath : string) : M unit :=
  fileInfo ← os_Stat sourcePath;
  match fileInfo with
  | StatDir _ => mret tt
  | StatNotExist | StatError =>
      if MirrorDeletes pair then
        _ ← time_Sleep MirrorDeleteDelay;
        again ← os_Stat sourcePath;
        match again with
        | StatNotExist => _ ← os_Remove (Join (Target pair) relativePath); mret tt
        | StatFile _ | StatDir _ | StatError => mret tt
        end
      else mret tt
  | StatFile _ =>
      if negb (MatchesInclude windows (IncludeExt pair) sourcePath) then mret tt
      else
        let targetPath := Join (Target pair) relativePath in
        err ← os_MkdirAll (Dir targetPath);
        match err with
        | Some _ => mret tt
        | None =>
            copyErr ← retry_loop (length retryDelays) 0 retryDelays sourcePath targetPath None;
            match copyErr with
            | None => _ ← log_msg "copied (event)"; RunHooks pair relativePath
            | Some _ => log_msg "copy failed after retries"
            end
        end
  end.

End Copier.

(** ** A reader beside [copyAtomic]

    The writer takes the files through the states its calls leave, one call
    at a time; a reader of [path] sees, whenever it looks, the file that
    [path] names at that moment.  A schedule decides who moves next. *)

Inductive Tick :=
| WriterStep
| ReaderLooks.

Fixpoint interleave (schedule : list Tick) (cur : gmap string File)
    (pending : list (gmap string File)) (path : string) : list (option File) :=
  match schedule with
  | [] => []
  | ReaderLooks :: rest => cur !! path :: interleave rest cur pending path
  | WriterStep :: rest =>
      match pending with
      | [] => interleave rest cur [] path
      | next :: later => interleave rest next later path
      end
  end.

(** The states left by the calls made between [w] and [w'], oldest first. *)
Definition states_between (w w' : World) : list (gmap string File) :=
  rev (map after (take (length (trace w') - length (trace w)) (trace w'))).

(** The calls of one kind made so far, oldest first. *)
Definition opens_of (path : string) (w : World) : list Event :=
  List.filter (fun e => match call e with
                        | SysOpen p => String.eqb p path
                        | _ => false
                        end) (rev (trace w)).

Definition sleeps_of (w : World) : list Z :=
  omap (fun e => match call e with SysSleep d => Some d | _ => None end) (rev (trace w)).

(** ** Reasoning about runs

    [touches_only S w w']: the run from [w] to [w'] added calls to the
    trace, the files are those the latest of them left, and every state on
    the way agrees with the files of [w] outside the paths in [S]. *)

Definition step_of (w w' : World) (new : list Event) : Prop :=
  trace w' = (new ++ trace w)%list
  /\ fs w' = match new with [] => fs w | ev :: _ => after ev end.

Definition touches_only (S : list string) (w w' : World) : Prop :=
  exists new, step_of w w' new
    /\ Forall (fun ev => forall p, p ∉ S -> after ev !! p = fs w !! p) new.

(** A directory stands at [path]. *)
Definition dir_at (w : World) (path : string) : Prop :=
  exists d, others w !! path = Some (Directory d).

(** [c] leaves [others] as it finds it. *)
Definition keeps_others {A} (c : M A) : Prop :=
  forall w r w', c w = (r, w') -> others w' = others w.

(** What handling one source file does to the files, seen from the target
    path [dst] it maps to: other paths keep their content, the temp path
    does not come into being, the target does not go away, it exists if the
    file is [wanted] (it passes the filter) unless the path is [taken] by a
    directory, and it exists only if it did before or the file is wanted. *)
Definition entry_effect (dst : string) (wanted : bool) (taken : Prop)
    (m m' : gmap string File) : Prop :=
  (forall q, q <> dst -> q <> dst ++ ".tmp" -> m' !! q = m !! q)
  /\ (is_Some (m' !! (dst ++ ".tmp")) -> is_Some (m !! (dst ++ ".tmp")))
  /\ (is_Some (m !! dst) -> is_Some (m' !! dst))
  /\ (wanted = true -> is_Some (m' !! dst) \/ taken)
  /\ (is_Some (m' !! dst) -> is_Some (m !! dst) \/ wanted = true).

(** ** Sample inputs *)

(** Stand-ins for the glob matcher (literal patterns only) and for SHA-256
    (the content itself). *)
Definition samplePathMatch (pattern path : string) : bool := String.eqb pattern path.

Definition sampleSha256 (content : string) : string := content.

(** A mirroring pair that takes only ".jpg" files. *)
Definition photoPair : Pair :=
  {| ID := "photos"; Enabled := true; Source := "/src"; Target := "/dst";
     IncludeExt := [".jpg"]; ExcludeGlobs := []; SyncStrategy := "mtime"; DebounceMs := 300;
     MirrorDeletes := true; Hooks := []; Schedule := scheduler.NewWatcherSchedule;
     Description := "" |}.

(** The source holds a picture and a text file; the target holds an old copy
    of the text file and a file the source does not have. *)
Definition photoWorld : World :=
  {| fs := {[ "/src/a.jpg" := {| data := "img"; mtime := 5 |};
              "/src/a.txt" := {| data := "hi"; mtime := 5 |};
              "/dst/a.txt" := {| data := "old"; mtime := 1 |};
              "/dst/b.txt" := {| data := "gone"; mtime := 1 |} ]};
     others := ∅; faults := []; clock := 100; trace := [] |}.

(** The source file is gone; an earlier, interrupted copy left its temp
    file behind. *)
Definition staleTempWorld : World :=
  {| fs := {[ "/dst/a.jpg" := {| data := "old"; mtime := 1 |};
              "/dst/a.jpg.tmp" := {| data := "im"; mtime := 3 |} ]};
     others := ∅; faults := []; clock := 100; trace := [] |}.

(** The target is locked: every rename onto it fails.  The decisions are, in
    the order the calls draw them: the directory is made; then, for each copy
    attempt, open, create, copy, close and chtimes go through, the rename
    fails, the clean-up removal goes through. *)
Definition lockedAttempt : list Fault :=
  [NoFault; NoFault; NoFault; NoFault; NoFault; Fail 0; NoFault].

Definition lockedWorld : World :=
  {| fs := {[ "/src/a.jpg" := {| data := "img"; mtime := 5 |};
              "/dst/a.jpg" := {| data := "old"; mtime := 1 |} ]};
     others := ∅;
     faults := NoFault :: (lockedAttempt ++ lockedAttempt ++ lockedAttempt ++ lockedAttempt)%list;
     clock := 0; trace := [] |}.

(** A copy whose write fails after two bytes. *)
Definition shortWriteWorld : World :=
  {| fs := {[ "/src/a.jpg" := {| data := "img"; mtime := 5 |};
              "/dst/a.jpg" := {| data := "old"; mtime := 1 |} ]};
     others := ∅; faults := [NoFault; NoFault; Fail 2]; clock := 0; trace := [] |}.

(** The calls of a small session with the pair manager. *)
Definition sampleCalls : list Call :=
  [CallStart (samplePair "p1" true scheduler.NewWatcherSchedule);
   CallStart (samplePair "p2" true (scheduler.NewIntervalSchedule "1m"));
   CallUpdate (samplePair "p2" true scheduler.NewWatcherSchedule);
   CallDisableTask "p2";
   CallStop "p1"].

Definition freshTask : scheduler.Task :=
  {| scheduler.ID := "p1"; scheduler.Name := "Sync p1";
     scheduler.TSchedule := scheduler.NewIntervalSchedule "1m";
     scheduler.Enabled := true; scheduler.LastRun := None; scheduler.NextRun := None;
     scheduler.RunCount := 0; scheduler.FailCount := 0; scheduler.LastError := "";
     scheduler.cronEntry := 0; scheduler.ticker := None |}.

(** A pair without filters, and a source with one small file. *)
Definition plainPair : Pair :=
  {| ID := "docs"; Enabled := true; Source := "/src"; Target := "/dst";
     IncludeExt := []; ExcludeGlobs := []; SyncStrategy := "mtime"; DebounceMs := 300;
     MirrorDeletes := false; Hooks := []; Schedule := scheduler.NewWatcherSchedule;
     Description := "" |}.

Definition plainWorld : World :=
  {| fs := {[ "/src/a.txt" := {| data := "hi"; mtime := 5 |} ]};
     others := ∅; faults := []; clock := 100; trace := [] |}.

(** A source with a picture, a text file, a directory "d" and a path "e"
    that cannot be examined; the target holds an old copy of the text file,
    a file the source does not have, and files named like the directory and
    like the unreadable path. *)
Definition mixedWorld : World :=
  {| fs := {[ "/src/a.jpg" := {| data := "img"; mtime := 5 |};
              "/src/a.txt" := {| data := "hi"; mtime := 5 |};
              "/src/d/c.txt" := {| data := "deep"; mtime := 5 |};
              "/dst/a.txt" := {| data := "old"; mtime := 1 |};
              "/dst/b.txt" := {| data := "gone"; mtime := 1 |};
              "/dst/d" := {| data := "file"; mtime := 1 |};
              "/dst/e" := {| data := "kept"; mtime := 1 |} ]};
     others := {[ "/src/d" := Directory {| data := ""; mtime := 2 |};
                  "/src/e" := Unreadable ]};
     faults := []; clock := 100; trace := [] |}.

(** A mirroring pair whose source lies inside its target. *)
Definition nestedPair : Pair :=
  {| ID := "nested"; Enabled := true; Source := "/t/src"; Target := "/t";
     IncludeExt := []; ExcludeGlobs := []; SyncStrategy := "mtime"; DebounceMs := 300;
     MirrorDeletes := true; Hooks := []; Schedule := scheduler.NewWatcherSchedule;
     Description := "" |}.

Definition nestedWorld : World :=
  {| fs := {[ "/t/src/a.txt" := {| data := "hi"; mtime := 5 |} ]};
     others := ∅; faults := []; clock := 100; trace := [] |}.

(** The bytes of a list of buffers, in order. *)
Definition concat_chunks (cs : list string) : string := foldr String.append "" cs.

(** ** internal/core/filters.go, the extension helpers *)

Definition NormalizeExtension (extension : string) : string :=
  if String.eqb extension "" then ""
  else
    let normalized := ToLower (TrimSpace extension) in
    if negb (HasPrefix normalized ".") then "." ++ normalized else normalized.

(** The loop of [NormalizeExtensions]; its state is the slice [result] and
    the set [seen]. *)
Definition normalize_step (st : list string * gset string) (ext : string)
    : list string * gset string :=
  let normalized := NormalizeExtension ext in
  if (negb (String.eqb normalized "") && negb (bool_decide (normalized ∈ st.2)))%bool
  then ((st.1 ++ [normalized])%list, {[normalized]} ∪ st.2)
  else st.

Definition NormalizeExtensions (extensions : list string) : list string :=
  match extensions with
  | [] => extensions
  | _ => (fold_left normalize_step extensions ([], ∅)).1
  end.

(** A string that does not start with white space. *)
Definition no_lead (s : string) : Prop :=
  match s with
  | EmptyString => True
  | String c _ => is_space c = false
  end.

(** The way both normalisers put the dot in front. *)
Definition with_dot (s : string) : string :=
  if HasPrefix s "." then s else "." ++ s.

(** An include entry as [normalizeIncludeExtensions] leaves it: it starts
    with a dot, is trimmed and in lower case, and is not the wildcard. *)
Definition good_ext (e : string) : Prop :=
  HasPrefix e "." = true /\ TrimSpace e = e /\ ToLower e = e /\ e <> ".*".

(** The entries [normalizeIncludeExtensions] takes for a wildcard, and
    those it skips as blank. *)
Definition is_wildcard (ext : string) : Prop :=
  TrimSpace (ToLower ext) = "*" \/ TrimSpace (ToLower ext) = ".*".

Definition is_blank (ext : string) : Prop := TrimSpace (ToLower ext) = "".

(** An entry as [NormalizeExtension] leaves it. *)
Definition normal_ext (e : string) : Prop :=
  HasPrefix e "." = true /\ TrimSpace e = e /\ ToLower e = e.

(** ** internal/scheduler/scheduler.go: the loops behind the tickers

    A ticker goroutine handles one delivery of its ticker at a time.  The
    instants a delivery involves are kept apart: [at] is the time the ticker
    sent, [checked] what [time.Now] returns in [shouldExecuteTask],
    [started] what it returns in [executeTask], [finished] what it returns
    when [NextRun] is computed; [out] is what the task function does if it
    is called.  The deliveries handled before the stop signal form a
    list. *)

Module scheduler_run.

Import scheduler.

Record Firing := {
  at_ : Z;
  checked : Z;
  started : Z;
  finished : Z;
  out : Outcome
}.

Definition set_next (task : Task) (nx : option Z) : Task :=
  set_sched task (ticker task) nx (cronEntry task).

(** One round of the [select] in [runIntervalTask], ticker case. *)
Definition interval_fire (interval : Z) (task : Task) (f : Firing) : Task :=
  if shouldExecuteTask (checked f) task then
    set_next (executeTask (started f) (out f) task) (Some (finished f + interval))
  else task.

Definition runIntervalTask (interval : Z) (task : Task) (fs : list Firing) : Task :=
  fold_left (interval_fire interval) fs task.

(** The function a cron entry runs. *)
Definition cron_fire (task : Task) (f : Firing) : Task :=
  if shouldExecuteTask (checked f) task then executeTask (started f) (out f) task
  else task.

Section Custom.

Variable ParseDuration : string -> option Z.

(** [time.Time.Weekday] (0 is Sunday), [Hour], [Minute] and [Second] of an
    instant, in the location the time carries. *)
Variable Weekday : Z -> Z.
Variable Hour : Z -> Z.
Variable Minute : Z -> Z.
Variable Second : Z -> Z.

Fixpoint weekday_loop (allowedDays : list Z) (currentDay : Z) : bool :=
  match allowedDays with
  | [] => false
  | allowedDay :: rest =>
      if currentDay =? allowedDay then true else weekday_loop rest currentDay
  end.

Definition isValidWeekDay (allowedDays : list Z) (currentDay : Z) : bool :=
  match allowedDays with
  | [] => true
  | _ => weekday_loop allowedDays currentDay
  end.

(** [time.Date(0, 1, 1, h, m, s, 0, time.UTC)], as seconds into that day. *)
Definition on_day_one (h m s : Z) : Z := h * 3600 + m * 60 + s.

(** The start and end of the window come from [time.Parse("15:04", _)] and
    are seconds since midnight (see [ParseClock]); these are their [Hour]
    and [Minute]. *)
Definition clock_hour (c : Z) : Z := c / 3600.
Definition clock_minute (c : Z) : Z := (c mod 3600) / 60.

Definition isWithinTimeWindow (now startTime endTime : Z) : bool :=
  let currentTime := on_day_one (Hour now) (Minute now) (Second now) in
  let start := on_day_one (clock_hour startTime) (clock_minute startTime) 0 in
  let end_ := on_day_one (clock_hour endTime) (clock_minute endTime) 0 in
  (negb (currentTime <? start) && negb (end_ <? currentTime))%bool.

Definition calculateNextCustomExecution (now : Z) (task : Task) : option Z :=
  match Custom (TSchedule task) with
  | None => None
  | Some custom => Some (now + default 0 (ParseDuration (CustomInterval custom)))
  end.

(** [shouldExecuteCustomTask]; [lastExecution] is [None] for the zero time.
    The result is [None] when [task.Schedule.Custom] is nil at the point
    where it is dereferenced. *)
Definition shouldExecuteCustomTask (task : Task) (f : Firing)
    (startTime endTime interval : Z) (lastExecution : option Z) : option bool :=
  if negb (shouldExecuteTask (checked f) task) then Some false
  else
    match Custom (TSchedule task) with
    | None => None
    | Some custom =>
        if negb (isValidWeekDay (WeekDays custom) (Weekday (at_ f))) then Some false
        else if negb (isWithinTimeWindow (at_ f) startTime endTime) then Some false
        else if match lastExecution with
                | Some l => at_ f - l <? interval
                | None => false
                end then Some false
        else Some true
    end.

(** One round of the [select] in [runCustomTask], ticker case; the state is
    the task and the local [lastExecution]. *)
Definition custom_fire (startTime endTime interval : Z)
    (st : option (Task * option Z)) (f : Firing) : option (Task * option Z) :=
  match st with
  | None => None
  | Some (task, lastExecution) =>
      match shouldExecuteCustomTask task f startTime endTime interval lastExecution with
      | None => None
      | Some false => Some (task, lastExecution)
      | Some true =>
          let task := executeTask (started f) (out f) task in
          match calculateNextCustomExecution (finished f) task with
          | None => None
          | Some nx => Some (set_next task (Some nx), Some (at_ f))
          end
      end
  end.

Definition runCustomTask (task : Task) (startTime endTime interval : Z)
    (fs : list Firing) : option (Task * option Z) :=
  fold_left (custom_fire startTime endTime interval) fs (Some (task, None)).

End Custom.

End scheduler_run.

(** ** Sessions with the scheduler *)

Inductive SchedCall :=
| DoAdd (id name : string) (schedule : scheduler.Schedule)
| DoRemove (id : string)
| DoUpdate (id : string) (schedule : scheduler.Schedule)
| DoEnable (id : string)
| DoDisable (id : string)
| DoRunNow (id : string) (out : scheduler.Outcome).

Section SchedSession.

Variable ParseDuration : string -> option Z.
Variable ParseClock : string -> option Z.
Variable CronParse : string -> option (Z -> Z).

Definition sched_call (s : scheduler.Scheduler) (c : Z * SchedCall)
    : scheduler.Scheduler * option scheduler.SchedError :=
  let now := c.1 in
  match c.2 with
  | DoAdd id name schedule =>
      scheduler.AddTask ParseDuration ParseClock CronParse now s id name schedule
  | DoRemove id => scheduler.RemoveTask s id
  | DoUpdate id schedule =>
      scheduler.UpdateTask ParseDuration ParseClock CronParse now s id schedule
  | DoEnable id => scheduler.EnableTask ParseDuration ParseClock CronParse now s id
  | DoDisable id => scheduler.DisableTask s id
  | DoRunNow id out => scheduler.RunTaskNow now out s id
  end.

(** The scheduler after a sequence of calls, each made at its instant;
    errors are returned to the callers and the session goes on. *)
Definition sched_session (cs : list (Z * SchedCall)) : scheduler.Scheduler :=
  fold_left (fun s c => (sched_call s c).1) cs scheduler.NewScheduler.

End SchedSession.

(** What holds of the scheduler between calls, stated of the cron
    component (its entries [E] and the next id [n]) and the task map [m]:
    each task is filed under its own id; the cron entries are exactly the
    entries the tasks hold; the ids handed out lie below the next one; and
    a task that holds a cron entry or a ticker is enabled and of the
    matching schedule type. *)
Definition cron_ok (E : gmap Z string) (n : Z) (m : gmap string scheduler.Task) : Prop :=
  (forall id t, m !! id = Some t -> scheduler.ID t = id)
  /\ (forall e id, E !! e = Some id ->
        exists t, m !! id = Some t /\ scheduler.cronEntry t = e)
  /\ (forall id t, m !! id = Some t -> scheduler.cronEntry t <> 0 ->
        E !! scheduler.cronEntry t = Some id)
  /\ (forall e, is_Some (E !! e) -> 0 < e < n)
  /\ 0 < n
  /\ (forall id t, m !! id = Some t -> scheduler.cronEntry t <> 0 ->
        scheduler.Enabled t = true
        /\ scheduler.SType (scheduler.TSchedule t) = scheduler.ScheduleTypeCron)
  /\ (forall id t, m !! id = Some t -> scheduler.ticker t <> None ->
        scheduler.Enabled t = true
        /\ (scheduler.SType (scheduler.TSchedule t) = scheduler.ScheduleTypeInterval
            \/ scheduler.SType (scheduler.TSchedule t) = scheduler.ScheduleTypeCustom)).

Definition sched_ok (s : scheduler.Scheduler) : Prop :=
  cron_ok (scheduler.cronEntries s) (scheduler.cronNextID s) (scheduler.tasks s).

(** ** internal/core/pair.go: validation of a pair

    The errors are [errors.New] values; they are modelled by their
    messages. *)

Definition DefaultSyncStrategy : string := "mtime".
Definition DefaultDebounceMs : Z := 300.

Section Validation.

Variable windows : bool.

(** [filepath.IsAbs]. *)
Variable IsAbs : string -> bool.

Variable ParseDuration : string -> option Z.
Variable ParseClock : string -> option Z.

(** [path[1:]]. *)
Definition drop_first (path : string) : string :=
  match path with
  | EmptyString => EmptyString
  | String _ r => r
  end.

Definition normalizeWindowsLongPath (path : string) : string :=
  if String.eqb path "" then path
  else if HasPrefix path "\\?\" then path
  else if HasPrefix path "\\" then "\\?\UNC" ++ drop_first path
  else if IsAbs path then "\\?\" ++ path
  else path.

Definition validateIntervalSchedule (schedule : scheduler.Schedule) : option string :=
  if String.eqb (scheduler.Interval schedule) "" then
    Some "interval is required for interval schedule"
  else
    match ParseDuration (scheduler.Interval schedule) with
    | None => Some "invalid interval format"
    | Some _ => None
    end.

Definition validateCronSchedule (schedule : scheduler.Schedule) : option string :=
  if String.eqb (scheduler.CronExpr schedule) "" then
    Some "cron expression is required for cron schedule"
  else None.

Definition validateCustomSchedule (schedule : scheduler.Schedule) : option string :=
  match scheduler.Custom schedule with
  | None => Some "custom configuration is required for custom schedule"
  | Some custom =>
      if (String.eqb (scheduler.StartTime custom) ""
          || String.eqb (scheduler.EndTime custom) "")%bool then
        Some "start time and end time are required for custom schedule"
      else
        match ParseClock (scheduler.StartTime custom) with
        | None => Some "invalid start time format (use HH:MM)"
        | Some _ =>
            match ParseClock (scheduler.EndTime custom) with
            | None => Some "invalid end time format (use HH:MM)"
            | Some _ =>
                if String.eqb (scheduler.CustomInterval custom) "" then
                  Some "interval is required for custom schedule"
                else
                  match ParseDuration (scheduler.CustomInterval custom) with
                  | None => Some "invalid interval format"
                  | Some _ => None
                  end
            end
        end
  end.

Definition validateScheduleConfiguration (schedule : scheduler.Schedule)
    : option string :=
  let ty := scheduler.SType schedule in
  if (String.eqb ty scheduler.ScheduleTypeDisabled
      || String.eqb ty scheduler.ScheduleTypeWatcher)%bool then None
  else if String.eqb ty scheduler.ScheduleTypeInterval then validateIntervalSchedule schedule
  else if String.eqb ty scheduler.ScheduleTypeCron then validateCronSchedule schedule
  else if String.eqb ty scheduler.ScheduleTypeCustom then validateCustomSchedule schedule
  else Some "unsupported schedule type".

Definition set_paths (pair : Pair) (source target : string) : Pair :=
  {| ID := ID pair; Enabled := Enabled pair; Source := source; Target := target;
     IncludeExt := IncludeExt pair; ExcludeGlobs := ExcludeGlobs pair;
     SyncStrategy := SyncStrategy pair; DebounceMs := DebounceMs pair;
     MirrorDeletes := MirrorDeletes pair; Hooks := Hooks pair;
     Schedule := Schedule pair; Description := Description pair |}.

(** [applyPairDefaults] of pair.go. *)
Definition applyPairDefaults (pair : Pair) : Pair :=
  {| ID := ID pair; Enabled := Enabled pair; Source := Source pair; Target := Target pair;
     IncludeExt := IncludeExt pair; ExcludeGlobs := ExcludeGlobs pair;
     SyncStrategy :=
       if String.eqb (SyncStrategy pair) "" then DefaultSyncStrategy else SyncStrategy pair;
     DebounceMs := if DebounceMs pair <=? 0 then DefaultDebounceMs else DebounceMs pair;
     MirrorDeletes := MirrorDeletes pair; Hooks := Hooks pair;
     Schedule :=
       if String.eqb (scheduler.SType (Schedule pair)) "" then scheduler.NewWatcherSchedule
       else Schedule pair;
     Description := Description pair |}.

Definition set_IncludeExt (pair : Pair) (exts : list string) : Pair :=
  {| ID := ID pair; Enabled := Enabled pair; Source := Source pair; Target := Target pair;
     IncludeExt := exts; ExcludeGlobs := ExcludeGlobs pair;
     SyncStrategy := SyncStrategy pair; DebounceMs := DebounceMs pair;
     MirrorDeletes := MirrorDeletes pair; Hooks := Hooks pair;
     Schedule := Schedule pair; Description := Description pair |}.

(** [ValidatePair] works on the pair in place: the result is the pair as the
    call leaves it, with the error if there is one. *)
Definition ValidatePair (pair : Pair) : Pair * option string :=
  if String.eqb (ID pair) "" then (pair, Some "id is required")
  else if (String.eqb (Source pair) "" || String.eqb (Target pair) "")%bool then
    (pair, Some "source and target are required")
  else
    let pair :=
      if windows then
        let pair := set_paths pair (normalizeWindowsLongPath (Source pair)) (Target pair) in
        set_paths pair (Source pair) (normalizeWindowsLongPath (Target pair))
      else pair in
    match validateScheduleConfiguration (Schedule pair) with
    | Some err => (pair, Some err)
    | None =>
        let pair := applyPairDefaults pair in
        (set_IncludeExt pair (normalizeIncludeExtensions (IncludeExt pair)), None)
    end.

End Validation.

(** The pair a call of the manager is about. *)
Definition call_id (c : Call) : string :=
  match c with
  | CallStart p => ID p
  | CallStop pairID => pairID
  | CallUpdate p => ID p
  | CallSyncNow pairID _ => pairID
  | CallEnableTask id => id
  | CallDisableTask id => id
  end.

(** ** Runs that stay within a set of paths

    [stays_within P w w']: the run from [w] to [w'] added calls to the
    trace, the files are those the latest of them left, and every state on
    the way agrees with the files of [w] at the paths outside [P]. *)
Definition stays_within (P : string -> Prop) (w w' : World) : Prop :=
  exists new, step_of w w' new
    /\ Forall (fun ev => forall p, ~ P p -> after ev !! p = fs w !! p) new.

(** ** internal/config: saving the configuration *)

(** [File.Write] of package os: all of [content] is written, or, on a fault, the
    part of it that got through before the failure. *)
Definition file_Write (path content : string) : M (option OSError) :=
  f ← next_fault;
  match f with
  | NoFault => _ ← os_Write path content; mret None
  | Fail k =>
      _ ← os_Write path (String.substring 0 (Nat.min k (String.length content)) content);
      mret (Some (ErrIO "write" path))
  end.

(** [os.WriteFile]: the file is created or truncated, written and closed;
    the error of the write goes before that of the close. *)
Definition os_WriteFile (name content : string) : M (option OSError) :=
  err ← os_Create name;
  match err with
  | Some e => mret (Some e)
  | None =>
      err ← file_Write name content;
      err1 ← file_Close name;
      mret (match err with None => err1 | Some _ => err end)
  end.

Inductive SaveError :=
| MarshalFailed
| WriteTempFailed (cause : OSError)
| RenameFailed (cause : OSError).

(** [config.Save]; [encoded] is what [json.MarshalIndent] returns for the
    configuration, [None] when it fails. *)
Definition Save (path : string) (encoded : option string) : M (option SaveError) :=
  let tempPath := path ++ ".tmp" in
  match encoded with
  | None => mret (Some MarshalFailed)
  | Some content =>
      err ← os_WriteFile tempPath content;
      match err with
      | Some e => mret (Some (WriteTempFailed e))
      | None =>
          err ← os_Rename tempPath path;
          match err with
          | Some e => _ ← os_Remove tempPath; mret (Some (RenameFailed e))
          | None => mret None
          end
      end
  end.

(** ** Trees that are in sync *)

Section InSync.

Variable windows : bool.
Variable PathMatch : string -> string -> bool.
Variable sha256 : string -> string.

(** The target file [t] passes for a copy of the source file [s] under the
    pair's strategy: the hashes agree, or the sizes agree and the times
    differ by no more than the tolerance. *)
Definition same_by (strategy : string) (s t : File) : Prop :=
  if String.eqb strategy SyncStrategyHash then sha256 (data s) = sha256 (data t)
  else compareByModTimeAndSize s t = false.

(** Every source file that passes the filters has a counterpart in the
    target that passes for a copy of it; and, for a mirroring pair, every
    file in the target has a counterpart in the source. *)
Definition in_sync (pair : Pair) (m : gmap string File) : Prop :=
  (forall rel s, m !! Join (Source pair) rel = Some s ->
     shouldSyncFile windows PathMatch pair (Join (Source pair) rel) rel = true ->
     exists t, m !! Join (Target pair) rel = Some t /\ same_by (SyncStrategy pair) s t)
  /\ (MirrorDeletes pair = true ->
      forall rel, is_Some (m !! Join (Target pair) rel) ->
        is_Some (m !! Join (Source pair) rel)).

End InSync.

(** Files meet files only: no directory and no unreadable path stands at
    the target path of a source file or at the source path of a target
    file. *)
Definition plain_trees (pair : Pair) (w : World) : Prop :=
  (forall rel, is_Some (fs w !! Join (Source pair) rel) ->
     others w !! Join (Target pair) rel = None)
  /\ (forall rel, is_Some (fs w !! Join (Target pair) rel) ->
      others w !! Join (Source pair) rel = None).

(** ** More sample inputs *)

(** A scheduler with the one task [freshTask]. *)
Definition sampleScheduler : scheduler.Scheduler :=
  {| scheduler.tasks := {[ "p1" := freshTask ]}; scheduler.cronEntries := ∅;
     scheduler.cronNextID := 1 |}.

(** A task that may run twice. *)
Definition limitedTask : scheduler.Task :=
  {| scheduler.ID := "p1"; scheduler.Name := "Sync p1";
     scheduler.TSchedule :=
       {| scheduler.SType := scheduler.ScheduleTypeInterval; scheduler.Interval := "1m";
          scheduler.CronExpr := ""; scheduler.Custom := None; scheduler.Timezone := "";
          scheduler.StartDate := None; scheduler.EndDate := None; scheduler.MaxRuns := 2 |};
     scheduler.Enabled := true; scheduler.LastRun := None; scheduler.NextRun := None;
     scheduler.RunCount := 0; scheduler.FailCount := 0; scheduler.LastError := "";
     scheduler.cronEntry := 0; scheduler.ticker := Some 60 |}.

Definition firing (at_ : Z) (out : scheduler.Outcome) : scheduler_run.Firing :=
  {| scheduler_run.at_ := at_; scheduler_run.checked := at_; scheduler_run.started := at_;
     scheduler_run.finished := at_ + 1; scheduler_run.out := out |}.

Definition threeRuns : list scheduler_run.Firing :=
  [firing 60 scheduler.Returns; firing 120 (scheduler.ReturnsError "disk full");
   firing 180 scheduler.Returns].

Definition threePanics : list scheduler_run.Firing :=
  [firing 60 (scheduler.Panics "nil map"); firing 120 (scheduler.Panics "nil map");
   firing 180 (scheduler.Panics "nil map")].

(** A night window, 22:00 to 06:00, every day. *)
Definition nightWindow : scheduler.CustomSchedule :=
  {| scheduler.WeekDays := []; scheduler.StartTime := "22:00"; scheduler.EndTime := "06:00";
     scheduler.CustomInterval := "15m"; scheduler.SkipHolidays := false;
     scheduler.OnlyWorkDays := false |}.

Definition nightTask : scheduler.Task :=
  {| scheduler.ID := "p1"; scheduler.Name := "Sync p1";
     scheduler.TSchedule :=
       {| scheduler.SType := scheduler.ScheduleTypeCustom; scheduler.Interval := "";
          scheduler.CronExpr := ""; scheduler.Custom := Some nightWindow;
          scheduler.Timezone := ""; scheduler.StartDate := None; scheduler.EndDate := None;
          scheduler.MaxRuns := 0 |};
     scheduler.Enabled := true; scheduler.LastRun := None; scheduler.NextRun := None;
     scheduler.RunCount := 0; scheduler.FailCount := 0; scheduler.LastError := "";
     scheduler.cronEntry := 0; scheduler.ticker := Some 60 |}.

(** Instants counted in seconds from a Sunday midnight. *)
Definition sampleWeekday (t : Z) : Z := (t / 86400) mod 7.
Definition sampleHour (t : Z) : Z := (t mod 86400) / 3600.
Definition sampleMinute (t : Z) : Z := (t mod 3600) / 60.
Definition sampleSecond (t : Z) : Z := t mod 60.

(** Deliveries at 23:00, 23:15 and 23:30 of the first day. *)
Definition nightFirings : list scheduler_run.Firing :=
  [firing 82800 scheduler.Returns; firing 83700 scheduler.Returns;
   firing 84600 scheduler.Returns].

(** A pair as a client may send it, and the pair [ValidatePair] makes of it. *)
Definition rawPair : Pair :=
  {| ID := "p1"; Enabled := true; Source := "/src"; Target := "/dst";
     IncludeExt := ["JPG"; " .png "; ".jpg"]; ExcludeGlobs := []; SyncStrategy := "";
     DebounceMs := 0; MirrorDeletes := false; Hooks := [];
     Schedule := scheduler.NewIntervalSchedule "1m"; Description := "" |}.

Definition validPair : Pair :=
  {| ID := "p1"; Enabled := true; Source := "/src"; Target := "/dst";
     IncludeExt := [".jpg"; ".png"]; ExcludeGlobs := []; SyncStrategy := "mtime";
     DebounceMs := 300; MirrorDeletes := false; Hooks := [];
     Schedule := scheduler.NewIntervalSchedule "1m"; Description := "" |}.

Definition sampleIsAbs (path : string) : bool := String.prefix "/" path.

(** A manager that watches "p1" and runs "p2" every minute. *)
Definition twoPairs : PairManager :=
  (StartPair sampleParseDuration sampleParseClock sampleCronParse 1
     (StartPair sampleParseDuration sampleParseClock sampleCronParse 0
        (NewPairManager) (samplePair "p1" true scheduler.NewWatcherSchedule)).1
     (samplePair "p2" true (scheduler.NewIntervalSchedule "1m"))).1.

(** The source file of [plainWorld] with its copy in the target. *)
Definition syncedWorld : World :=
  {| fs := {[ "/src/a.txt" := {| data := "hi"; mtime := 5 |};
              "/dst/a.txt" := {| data := "hi"; mtime := 5 |} ]};
     others := ∅; faults := [Fail 0; Fail 0]; clock := 200; trace := [] |}.

(** ** internal/core/hooks.go, [FormatByteSize] *)

(** The conversion [rune(x)] of an [int64]: the low 32 bits, signed. *)
Definition wrap32 (z : Z) : Z := (z + 2 ^ 31) mod 2 ^ 32 - 2 ^ 31.

Definition byte_of (n : Z) : ascii := ascii_of_N (Z.to_N n).

(** [string(r)] for a rune [r]: its UTF-8 encoding, and that of U+FFFD for
    a value that is not a code point. *)
Definition rune_string (r : Z) : string :=
  if ((r <? 0) || (1114111 <? r) || ((55296 <=? r) && (r <=? 57343)))%bool then
    String (byte_of 239) (String (byte_of 191) (String (byte_of 189) EmptyString))
  else if r <? 128 then String (byte_of r) EmptyString
  else if r <? 2048 then
    String (byte_of (192 + r / 64)) (String (byte_of (128 + r mod 64)) EmptyString)
  else if r <? 65536 then
    String (byte_of (224 + r / 4096))
      (String (byte_of (128 + (r / 64) mod 64))
         (String (byte_of (128 + r mod 64)) EmptyString))
  else
    String (byte_of (240 + r / 262144))
      (String (byte_of (128 + (r / 4096) mod 64))
         (String (byte_of (128 + (r / 64) mod 64))
            (String (byte_of (128 + r mod 64)) EmptyString))).

(** What a call gives back: a string, or the run-time panic of an index
    expression. *)
Inductive Rendered :=
| Text (s : string)
| IndexOutOfRange (index len : nat).

Definition unit_size : Z := 1024.

(** The loop [for n := bytes / unit; n >= unit; n /= unit]; it gives up
    ([None]) when [fuel] rounds do not end it. *)
Fixpoint size_loop (fuel : nat) (n div : Z) (exp : nat) : option (Z * nat) :=
  match fuel with
  | O => None
  | S fuel' =>
      if unit_size <=? n then
        size_loop fuel' (Z.quot n unit_size) (wrap64 (div * unit_size)) (S exp)
      else Some (div, exp)
  end.

Definition size_units : list string := ["KB"; "MB"; "GB"; "TB"; "PB"].

Definition FormatByteSize (bytes : Z) : option Rendered :=
  if bytes <? unit_size then Some (Text (rune_string (wrap32 bytes) ++ " B"))
  else
    match size_loop 64 (Z.quot bytes unit_size) unit_size 0 with
    | None => None
    | Some (div, exp) =>
        match size_units !! exp with
        | None => Some (IndexOutOfRange exp (length size_units))
        | Some u =>
            Some (Text (rune_string (wrap32 (Z.quot bytes div)) ++ "."
                        ++ rune_string (wrap32 (Z.quot (wrap64 (Z.rem bytes div * 10)) div))
                        ++ " " ++ u))
        end
    end.

(** ** internal/core/hooks.go, the check of command hooks *)

Definition dangerousCommands : list string :=
  ["rm"; "rmdir"; "del"; "erase"; "format"; "mkfs";
   "shutdown"; "reboot"; "halt"; "poweroff";
   "dd"; "fdisk"; "parted"].

Definition dangerousPatterns : list string :=
  [" rm -rf"; " rm -r "; " del /s"; " :> "; " >/dev/sd";
   "--force"; "--recursive"; "/f /s"; "sudo rm"].

(** [strings.Contains]. *)
Fixpoint Contains (s substr : string) : bool :=
  (String.prefix substr s
   || match s with
      | EmptyString => false
      | String _ r => Contains r substr
      end)%bool.

(** [strings.Join]. *)
Fixpoint JoinStrings (elems : list string) (sep : string) : string :=
  match elems with
  | [] => EmptyString
  | [a] => a
  | a :: rest => a ++ sep ++ JoinStrings rest sep
  end.

Section CommandCheck.

(** [filepath.Base]. *)
Variable Base : string -> string.

Fixpoint command_loop (cmds : list string) (executableBase : string) : bool :=
  match cmds with
  | [] => true
  | dangerousCmd :: rest =>
      if (String.eqb executableBase dangerousCmd
          || HasPrefix executableBase (dangerousCmd ++ "."))%bool then false
      else command_loop rest executableBase
  end.

Fixpoint pattern_loop (patterns : list string) (fullCommand : string) : bool :=
  match patterns with
  | [] => true
  | pattern :: rest =>
      if Contains fullCommand pattern then false else pattern_loop rest fullCommand
  end.

Definition isCommandSafe (executable : string) (args : list string) : bool :=
  let executableBase := ToLower (Base executable) in
  if negb (command_loop dangerousCommands executableBase) then false
  else
    let fullCommand := ToLower (executable ++ " " ++ JoinStrings args " ") in
    pattern_loop dangerousPatterns fullCommand.

End CommandCheck.

(** [filepath.Base] as it is on Unix, where a path has no volume name:
    trailing slashes are dropped, then everything up to the last slash. *)
Fixpoint strip_trailing (s : string) : string :=
  match s with
  | EmptyString => EmptyString
  | String c r =>
      match strip_trailing r with
      | EmptyString => if Ascii.eqb c "/" then EmptyString else String c EmptyString
      | r' => String c r'
      end
  end.

Fixpoint last_elem (s : string) : string :=
  match s with
  | EmptyString => EmptyString
  | String c r =>
      if has_sep false r then last_elem r
      else if Ascii.eqb c "/" then r else s
  end.

Definition Base_unix (path : string) : string :=
  if String.eqb path "" then "."
  else
    match last_elem (strip_trailing path) with
    | EmptyString => "/"
    | e => e
    end.
Example Ext_jpg : Ext false "/src/photos/a.JPG" = ".JPG".
Proof. reflexivity. Qed.

Example Ext_dir_dot : Ext false "/src/v1.2/readme" = "".
Proof. reflexivity. Qed.

Example Ext_two_dots : Ext false "a.tar.gz" = ".gz".
Proof. reflexivity. Qed.

Example Ext_windows : Ext true "C:\d.x\readme" = "".
Proof. reflexivity. Qed.

Example TrimSpace_ex : TrimSpace "  .Txt " = ".Txt".
Proof. reflexivity. Qed.

Example normalize_star : normalizeIncludeExtensions ["jpg"; " * "; ".PNG"] = [].
Proof. vm_compute. reflexivity. Qed.

Example normalize_dedup :
normalizeIncludeExtensions ["jpg"; ".JPG"; " png"] = [".jpg"; ".png"].
Proof. vm_compute. reflexivity. Qed.

(** * Properties *)

(** ** Scheduler statistics *)

Lemma incr_no_overflow (x : Z) :
  - 2 ^ 63 <= x < 2 ^ 63 - 1 -> incr x = x + 1.
Proof.
  intros H. unfold incr, wrap64.
  rewrite Z.mod_small; lia.
Qed.

Lemma executeTask_success_counts (now : Z) (t : scheduler.Task) :
  0 <= scheduler.RunCount t < 2 ^ 63 - 1 ->
  scheduler.RunCount (scheduler.executeTask now scheduler.Returns t)
    = scheduler.RunCount t + 1
  /\ scheduler.FailCount (scheduler.executeTask now scheduler.Returns t)
    = scheduler.FailCount t.
Proof.
  intros H. cbn. rewrite incr_no_overflow by lia. done.
Qed.

Lemma executeTask_panic_counts (now : Z) (r : string) (t : scheduler.Task) :
  0 <= scheduler.FailCount t < 2 ^ 63 - 1 ->
  scheduler.RunCount (scheduler.executeTask now (scheduler.Panics r) t)
    = scheduler.RunCount t
  /\ scheduler.FailCount (scheduler.executeTask now (scheduler.Panics r) t)
    = scheduler.FailCount t + 1.
Proof.
  intros H. cbn. rewrite incr_no_overflow by lia. done.
Qed.

(** Both counters are non-decreasing across one invocation, whatever the
    callable does (short of the 64-bit counters running over). *)
Lemma executeTask_monotone (now : Z) (out : scheduler.Outcome) (t : scheduler.Task) :
  0 <= scheduler.RunCount t < 2 ^ 63 - 1 ->
  0 <= scheduler.FailCount t < 2 ^ 63 - 1 ->
  scheduler.RunCount t <= scheduler.RunCount (scheduler.executeTask now out t)
  /\ scheduler.FailCount t <= scheduler.FailCount (scheduler.executeTask now out t).
Proof.
  intros Hr Hf. destruct out; cbn; rewrite ?incr_no_overflow by lia; lia.
Qed.

(** C3. When the callable returns an error, [executeTask] increments
    [FailCount] and then also [RunCount]: the sum of the two counters grows
    by two for that single invocation, not by one. *)
Theorem executeTask_error_counts_twice (now : Z) (msg : string) (t : scheduler.Task) :
  0 <= scheduler.RunCount t < 2 ^ 63 - 1 ->
  0 <= scheduler.FailCount t < 2 ^ 63 - 1 ->
  let t' := scheduler.executeTask now (scheduler.ReturnsError msg) t in
  scheduler.RunCount t' = scheduler.RunCount t + 1
  /\ scheduler.FailCount t' = scheduler.FailCount t + 1
  /\ scheduler.RunCount t' + scheduler.FailCount t'
     = scheduler.RunCount t + scheduler.FailCount t + 2.
Proof.
  intros Hr Hf. cbn. rewrite !incr_no_overflow by lia. lia.
Qed.

(** ** Scheduler registry *)

Lemma RemoveTask_absent (s : scheduler.Scheduler) (id : string) :
  scheduler.tasks s !! id = None ->
  scheduler.RemoveTask s id = (s, Some (scheduler.TaskNotFound id)).
Proof.
  intros H. unfold scheduler.RemoveTask. by rewrite H.
Qed.

(** C6 (as amended). Removing an id that is not registered returns the
    "not found" error and leaves the scheduler, its task registry included,
    as it was. *)
Theorem RemoveTask_unregistered (s : scheduler.Scheduler) (id : string) :
  scheduler.tasks s !! id = None ->
  scheduler.RemoveTask s id = (s, Some (scheduler.TaskNotFound id))
  /\ scheduler.tasks (fst (scheduler.RemoveTask s id)) = scheduler.tasks s.
Proof.
  intros H. by rewrite (RemoveTask_absent s id H).
Qed.

Lemma RemoveTask_registered (s : scheduler.Scheduler) (id : string) (t : scheduler.Task) :
  scheduler.tasks s !! id = Some t ->
  exists s', scheduler.RemoveTask s id = (s', None)
    /\ scheduler.tasks s' = delete id (scheduler.tasks s).
Proof.
  intros H. unfold scheduler.RemoveTask. rewrite H.
  unfold scheduler.unscheduleTask. destruct (scheduler.cronEntry t =? 0); eauto.
Qed.

(** A second removal of the same id fails too. *)
Lemma RemoveTask_twice (s : scheduler.Scheduler) (id : string) :
  snd (scheduler.RemoveTask (fst (scheduler.RemoveTask s id)) id)
  = Some (scheduler.TaskNotFound id).
Proof.
  destruct (scheduler.tasks s !! id) as [t|] eqn:E.
  - destruct (RemoveTask_registered s id t E) as (s' & -> & Hs'). cbn.
    rewrite RemoveTask_absent; [done|]. rewrite Hs'. apply lookup_delete_eq.
  - rewrite (RemoveTask_absent s id E). cbn.
    by rewrite (RemoveTask_absent s id E).
Qed.

(** ** How the scheduler's operations change the registered schedule types *)

Section SchedulerTypes.

Variable ParseDuration : string -> option Z.
Variable ParseClock : string -> option Z.
Variable CronParse : string -> option (Z -> Z).

Local Abbreviation scheduleTask := (scheduler.scheduleTask ParseDuration ParseClock CronParse).
Local Abbreviation AddTask := (scheduler.AddTask ParseDuration ParseClock CronParse).
Local Abbreviation UpdateTask := (scheduler.UpdateTask ParseDuration ParseClock CronParse).
Local Abbreviation EnableTask := (scheduler.EnableTask ParseDuration ParseClock CronParse).

Lemma scheduleTask_keeps now s t s' t' e :
  scheduleTask now s t = (s', t', e) ->
  scheduler.tasks s' = scheduler.tasks s
  /\ scheduler.TSchedule t' = scheduler.TSchedule t
  /\ scheduler.Enabled t' = scheduler.Enabled t.
Proof.
  unfold scheduler.scheduleTask, scheduler.scheduleIntervalTask,
    scheduler.scheduleCronTask, scheduler.scheduleCustomTask.
  intros H.
  repeat match type of H with
         | (if ?b then _ else _) = _ => destruct b
         | match ?x with _ => _ end = _ => destruct x
         end; inversion H; subst; done.
Qed.

Lemma unscheduleTask_keeps s t s' t' :
  scheduler.unscheduleTask s t = (s', t') ->
  scheduler.tasks s' = scheduler.tasks s
  /\ scheduler.TSchedule t' = scheduler.TSchedule t
  /\ scheduler.Enabled t' = scheduler.Enabled t.
Proof.
  unfold scheduler.unscheduleTask. intros H.
  destruct (scheduler.cronEntry t =? 0); inversion H; subst; done.
Qed.

Lemma typeOf_insert s (m : gmap string scheduler.Task) id t k :
  scheduler.typeOf (scheduler.set_tasks s (<[id := t]> m)) k
  = if decide (k = id) then Some (scheduler.SType (scheduler.TSchedule t))
    else (fun u => scheduler.SType (scheduler.TSchedule u)) <$> m !! k.
Proof.
  unfold scheduler.typeOf. cbn. case_decide as E.
  - subst. by rewrite lookup_insert_eq.
  - by rewrite lookup_insert_ne.
Qed.

Lemma typeOf_delete s (m : gmap string scheduler.Task) id k :
  scheduler.typeOf (scheduler.set_tasks s (delete id m)) k
  = if decide (k = id) then None
    else (fun u => scheduler.SType (scheduler.TSchedule u)) <$> m !! k.
Proof.
  unfold scheduler.typeOf. cbn. case_decide as E.
  - subst. by rewrite lookup_delete_eq.
  - by rewrite lookup_delete_ne.
Qed.

Lemma AddTask_typeOf now s id name sc s' e :
  AddTask now s id name sc = (s', e) ->
  match e with
  | None => scheduler.tasks s !! id = None
            /\ forall k, scheduler.typeOf s' k
                 = if decide (k = id) then Some (scheduler.SType sc)
                   else scheduler.typeOf s k
  | Some _ => forall k, scheduler.typeOf s' k = scheduler.typeOf s k
  end.
Proof.
  unfold scheduler.AddTask. intros H.
  destruct (scheduler.tasks s !! id) eqn:E; [by inversion H; subst|].
  destruct (scheduleTask _ _ _) as [[s1 t1] [err|]] eqn:Hs;
    apply scheduleTask_keeps in Hs as (Ht & Hsc & _); inversion H; subst.
  - intros k. unfold scheduler.typeOf. by rewrite Ht.
  - split; [done|]. intros k. rewrite typeOf_insert, Hsc, Ht. done.
Qed.

Lemma RemoveTask_typeOf s id s' e :
  scheduler.RemoveTask s id = (s', e) ->
  forall k, scheduler.typeOf s' k
    = if decide (k = id) then None else scheduler.typeOf s k.
Proof.
  unfold scheduler.RemoveTask. intros H k.
  destruct (scheduler.tasks s !! id) as [t|] eqn:E.
  - destruct (scheduler.unscheduleTask s t) as [s1 t1] eqn:Hu.
    apply unscheduleTask_keeps in Hu as (Ht & _). inversion H; subst.
    rewrite typeOf_delete, Ht. done.
  - inversion H; subst. case_decide; [|done]. subst.
    unfold scheduler.typeOf. by rewrite E.
Qed.

Lemma UpdateTask_typeOf now s id sc s' :
  UpdateTask now s id sc = (s', None) ->
  is_Some (scheduler.tasks s !! id)
  /\ forall k, scheduler.typeOf s' k
       = if decide (k = id) then Some (scheduler.SType sc) else scheduler.typeOf s k.
Proof.
  unfold scheduler.UpdateTask. intros H.
  destruct (scheduler.tasks s !! id) as [t|] eqn:E; [|by inversion H].
  split; [eauto|]. intros k.
  destruct (scheduler.unscheduleTask s t) as [s1 t1] eqn:Hu.
  apply unscheduleTask_keeps in Hu as (Ht & _).
  destruct (scheduler.Enabled _).
  - destruct (scheduleTask _ _ _) as [[s2 t3] [err|]] eqn:Hs; [by inversion H|].
    apply scheduleTask_keeps in Hs as (Ht2 & Hsc & _). inversion H; subst.
    rewrite typeOf_insert, Hsc, Ht2, Ht. done.
  - inversion H; subst. rewrite typeOf_insert, Ht. done.
Qed.

Lemma typeOf_insert_same s id t u k :
  scheduler.tasks s !! id = Some t ->
  scheduler.TSchedule u = scheduler.TSchedule t ->
  scheduler.typeOf (scheduler.set_tasks s (<[id := u]> (scheduler.tasks s))) k
  = scheduler.typeOf s k.
Proof.
  intros E Hu. rewrite typeOf_insert. case_decide; [|done]. subst.
  unfold scheduler.typeOf. by rewrite E, Hu.
Qed.

Lemma EnableTask_typeOf now s id s' e :
  EnableTask now s id = (s', e) ->
  forall k, scheduler.typeOf s' k = scheduler.typeOf s k.
Proof.
  unfold scheduler.EnableTask. intros H k.
  destruct (scheduler.tasks s !! id) as [t|] eqn:E; [|by inversion H].
  destruct (scheduler.Enabled t); [by inversion H|].
  destruct (scheduleTask _ _ _) as [[s1 t1] err] eqn:Hs.
  apply scheduleTask_keeps in Hs as (Ht & Hsc & _). inversion H; subst.
  rewrite typeOf_insert, Ht. case_decide; [|done]. subst.
  unfold scheduler.typeOf. by rewrite E, Hsc.
Qed.

Lemma DisableTask_typeOf s id s' e :
  scheduler.DisableTask s id = (s', e) ->
  forall k, scheduler.typeOf s' k = scheduler.typeOf s k.
Proof.
  unfold scheduler.DisableTask. intros H k.
  destruct (scheduler.tasks s !! id) as [t|] eqn:E; [|by inversion H].
  destruct (scheduler.Enabled t); cbn [negb] in H; [|by inversion H].
  destruct (scheduler.unscheduleTask _ _) as [s1 t1] eqn:Hu.
  apply unscheduleTask_keeps in Hu as (Ht & Hsc & _). inversion H; subst.
  rewrite typeOf_insert, Ht. case_decide; [|done]. subst.
  unfold scheduler.typeOf. by rewrite E, Hsc.
Qed.

Lemma RunTaskNow_typeOf now out s id s' e :
  scheduler.RunTaskNow now out s id = (s', e) ->
  forall k, scheduler.typeOf s' k = scheduler.typeOf s k.
Proof.
  unfold scheduler.RunTaskNow. intros H k.
  destruct (scheduler.tasks s !! id) as [t|] eqn:E; inversion H; subst; [|done].
  apply (typeOf_insert_same s id t); [done|]. by destruct out.
Qed.

End SchedulerTypes.

(** ** Pair manager: watchers and schedule types *)

Ltac unfold_StartPair_in H := unfold StartPair in H.
Ltac unfold_StartPair := unfold StartPair.
Ltac unfold_UpdatePair_in H := unfold UpdatePair in H.

Section PairManagerProps.

Variable ParseDuration : string -> option Z.
Variable ParseClock : string -> option Z.
Variable CronParse : string -> option (Z -> Z).

Local Abbreviation StartPair := (StartPair ParseDuration ParseClock CronParse).
Local Abbreviation UpdatePair := (UpdatePair ParseDuration ParseClock CronParse).
Local Abbreviation do_call := (do_call ParseDuration ParseClock CronParse).
Local Abbreviation run_calls := (run_calls ParseDuration ParseClock CronParse).

Lemma WatcherActive_insert s ws id w k :
  WatcherActive {| sched := s; workers := <[id := w]> ws |} k
  = if decide (k = id) then true else bool_decide (is_Some (ws !! k)).
Proof.
  unfold WatcherActive. cbn. case_decide.
  - subst. rewrite lookup_insert_eq. by apply bool_decide_eq_true.
  - by rewrite lookup_insert_ne.
Qed.

Lemma WatcherActive_delete s ws id k :
  WatcherActive {| sched := s; workers := delete id ws |} k
  = if decide (k = id) then false else bool_decide (is_Some (ws !! k)).
Proof.
  unfold WatcherActive. cbn. case_decide.
  - subst. rewrite lookup_delete_eq. apply bool_decide_eq_false. by intros [? ?].
  - by rewrite lookup_delete_ne.
Qed.

Lemma eqb_watcher (ty : string) :
  String.eqb ty scheduler.ScheduleTypeWatcher = true
  <-> Some ty = Some scheduler.ScheduleTypeWatcher.
Proof. rewrite String.eqb_eq. split; congruence. Qed.

Lemma StartPair_invariant now pm pair pm' e :
  watcher_invariant pm -> StartPair now pm pair = (pm', e) -> watcher_invariant pm'.
Proof.
  intros Inv H. unfold_StartPair_in H.
  set (pm1 := match workers pm !! ID pair with Some _ => _ | None => pm end) in H.
  assert (Inv1 : watcher_invariant pm1
                 /\ (is_Some (workers pm !! ID pair) -> workers pm1 !! ID pair = None)).
  { subst pm1. destruct (workers pm !! ID pair) as [w|] eqn:Ew.
    - destruct (scheduler.RemoveTask _ _) as [s1 e1] eqn:Hr.
      split; [|intros _; apply lookup_delete_eq].
      intros k. unfold ScheduleTypeOf. cbn [sched].
      rewrite (RemoveTask_typeOf _ _ _ _ Hr), WatcherActive_delete.
      case_decide; [done|]. apply Inv.
    - split; [done|]. by intros [? ?]. }
  destruct Inv1 as [Inv1 _]. clearbody pm1.
  destruct (scheduler.AddTask _ _ _ _ _ _ _ _) as [s2 [err|]] eqn:Ha;
    apply AddTask_typeOf in Ha.
  - inversion H; subst. intros k. unfold ScheduleTypeOf. cbn [sched].
    rewrite Ha. apply Inv1.
  - destruct Ha as [Hnone Ha].
    destruct (String.eqb _ _) eqn:Ety.
    + cbn in H. inversion H; subst. intros k. unfold ScheduleTypeOf. cbn [sched].
      rewrite Ha, WatcherActive_insert. case_decide.
      * split; [intros _|done]. by apply eqb_watcher.
      * apply Inv1.
    + inversion H; subst. intros k. unfold ScheduleTypeOf. cbn [sched].
      rewrite Ha. case_decide; [|apply Inv1]. subst k.
      rewrite <- eqb_watcher, Ety.
      pose proof (Inv1 (ID pair)) as I1. unfold ScheduleTypeOf, scheduler.typeOf in I1.
      rewrite Hnone in I1. cbn in I1.
      unfold WatcherActive in *. cbn [workers] in *.
      split; [|done]. intros Hw. by apply I1 in Hw.
Qed.

Lemma StopPair_invariant pm id pm' e :
  watcher_invariant pm -> StopPair pm id = (pm', e) -> watcher_invariant pm'.
Proof.
  intros Inv H. unfold StopPair in H.
  destruct (scheduler.RemoveTask _ _) as [s1 e1] eqn:Hr. inversion H; subst.
  intros k. unfold ScheduleTypeOf. cbn [sched].
  rewrite (RemoveTask_typeOf _ _ _ _ Hr).
  destruct (workers pm !! id) as [w|] eqn:Ew.
  - rewrite WatcherActive_delete. case_decide; [done|]. apply Inv.
  - case_decide; [|apply Inv]. subst k.
    unfold WatcherActive. cbn [workers]. rewrite Ew.
    split; [|done]. intros Hb. apply bool_decide_eq_true in Hb. by destruct Hb.
Qed.

Lemma UpdatePair_invariant now pm pair pm' :
  watcher_invariant pm -> UpdatePair now pm pair = (pm', None) -> watcher_invariant pm'.
Proof.
  intros Inv H. unfold_UpdatePair_in H.
  destruct (scheduler.UpdateTask _ _ _ _ _ _ _) as [s1 [err|]] eqn:Hu; [by inversion H|].
  apply UpdateTask_typeOf in Hu as [_ Hu].
  destruct (String.eqb _ _) eqn:Ety.
  - destruct (workers pm !! ID pair) as [w|] eqn:Ew.
    + inversion H; subst. intros k. unfold ScheduleTypeOf. cbn [sched].
      rewrite Hu. case_decide; [|apply Inv]. subst k.
      unfold WatcherActive. cbn [workers]. rewrite Ew.
      split; [intros _; by apply eqb_watcher|intros _].
      apply bool_decide_eq_true. eauto.
    + cbn in H. inversion H; subst. intros k. unfold ScheduleTypeOf. cbn [sched].
      rewrite Hu, WatcherActive_insert. case_decide; [|apply Inv].
      split; [intros _; by apply eqb_watcher|done].
  - destruct (workers pm !! ID pair) as [w|] eqn:Ew.
    + inversion H; subst. intros k. unfold ScheduleTypeOf. cbn [sched].
      rewrite Hu, WatcherActive_delete. case_decide; [|apply Inv].
      rewrite <- eqb_watcher, Ety. done.
    + inversion H; subst. intros k. unfold ScheduleTypeOf. cbn [sched].
      rewrite Hu. case_decide; [|apply Inv]. subst k.
      rewrite <- eqb_watcher, Ety.
      unfold WatcherActive. cbn [workers]. rewrite Ew.
      split; [|done]. intros Hb. apply bool_decide_eq_true in Hb. by destruct Hb.
Qed.

Lemma sched_only_invariant pm s' :
  watcher_invariant pm ->
  (forall k, scheduler.typeOf s' k = scheduler.typeOf (sched pm) k) ->
  watcher_invariant {| sched := s'; workers := workers pm |}.
Proof.
  intros Inv Hs k. unfold ScheduleTypeOf. cbn [sched]. rewrite Hs. apply Inv.
Qed.

Lemma do_call_invariant now pm c pm' e :
  watcher_invariant pm -> do_call now pm c = (pm', e) ->
  (is_update c = true -> e = None) -> watcher_invariant pm'.
Proof.
  intros Inv H Hok. destruct c as [p|id|p|id out|id|id]; cbn in H.
  - eapply StartPair_invariant; eauto.
  - eapply StopPair_invariant; eauto.
  - rewrite (Hok eq_refl) in H. eapply UpdatePair_invariant; eauto.
  - unfold SyncPairNow in H.
    destruct (scheduler.RunTaskNow _ _ _ _) as [s1 e1] eqn:Hr. inversion H; subst.
    apply sched_only_invariant; [done|]. eapply RunTaskNow_typeOf; eauto.
  - destruct (scheduler.EnableTask _ _ _ _ _ _) as [s1 e1] eqn:Hr. inversion H; subst.
    apply sched_only_invariant; [done|]. eapply EnableTask_typeOf; eauto.
  - destruct (scheduler.DisableTask _ _) as [s1 e1] eqn:Hr. inversion H; subst.
    apply sched_only_invariant; [done|]. eapply DisableTask_typeOf; eauto.
Qed.

Lemma run_calls_invariant cs now pm :
  watcher_invariant pm ->
  snd (run_calls now pm cs) = true ->
  watcher_invariant (fst (run_calls now pm cs)).
Proof.
  revert now pm. induction cs as [|c cs IH]; intros now pm Inv Hok; [done|].
  cbn in *. destruct (do_call now pm c) as [pm1 e] eqn:Hc.
  destruct (run_calls (now + 1) pm1 cs) as [pm2 ok] eqn:Hr. cbn in *.
  apply andb_true_iff in Hok as [Hupd Hok].
  specialize (IH (now + 1) pm1). rewrite Hr in IH. apply IH; [|done].
  eapply do_call_invariant; eauto. intros Hu. rewrite Hu in Hupd. cbn in Hupd.
  apply negb_true_iff, bool_decide_eq_false in Hupd.
  destruct e; [|done]. exfalso. apply Hupd. eauto.
Qed.

Lemma NewPairManager_invariant : watcher_invariant NewPairManager.
Proof.
  intros k. unfold WatcherActive, ScheduleTypeOf, scheduler.typeOf. cbn.
  rewrite !lookup_empty. cbn. split; done.
Qed.

(** C4 (as amended). In every state the manager reaches from its initial
    state through start, stop, update, sync-now and the scheduler's enable
    and disable, as long as no update failed (came back with an error, or
    ended in the panic of [time.NewTicker] on an interval that is not
    positive), a watcher is active for an id exactly when the task
    registered under that id has schedule type "watcher".  The pair's
    [Enabled] flag plays no part. *)
Theorem watcher_iff_watcher_schedule (cs : list Call) (now : Z) :
  snd (run_calls now NewPairManager cs) = true ->
  forall id,
    WatcherActive (fst (run_calls now NewPairManager cs)) id = true
    <-> ScheduleTypeOf (fst (run_calls now NewPairManager cs)) id
        = Some scheduler.ScheduleTypeWatcher.
Proof.
  intros Hok. apply run_calls_invariant; [apply NewPairManager_invariant|done].
Qed.

(** C5. When the id is registered with the scheduler but has no watcher,
    the "stop existing" step of [StartPair] is skipped, [AddTask] finds the
    id taken, and [StartPair] returns the duplicate error with nothing
    changed. *)
Theorem StartPair_registered_without_watcher now pm pair t :
  workers pm !! ID pair = None ->
  scheduler.tasks (sched pm) !! ID pair = Some t ->
  StartPair now pm pair = (pm, Some (scheduler.TaskExists (ID pair))).
Proof.
  intros Hw Ht. unfold_StartPair. unfold scheduler.AddTask.
  rewrite Hw, Ht. by destruct pm.
Qed.

(** With a watcher the existing entry is stopped first: the duplicate error
    cannot occur. *)
Lemma StartPair_with_watcher_never_duplicate now pm pair w pm' id :
  workers pm !! ID pair = Some w ->
  StartPair now pm pair = (pm', Some (scheduler.TaskExists id)) -> False.
Proof.
  intros Hw H. unfold_StartPair_in H. rewrite Hw in H.
  destruct (scheduler.RemoveTask _ _) as [s1 e1] eqn:Hr. cbn [sched workers] in H.
  pose proof (RemoveTask_typeOf _ _ _ _ Hr (ID pair)) as Hty.
  rewrite decide_True in Hty by done.
  unfold scheduler.AddTask in H.
  unfold scheduler.typeOf in Hty.
  destruct (scheduler.tasks s1 !! ID pair); [done|].
  destruct (scheduler.scheduleTask _ _ _ _ _ _) as [[s2 t2] [err|]];
    [by destruct err; inversion H|]; destruct (String.eqb _ _); inversion H.
Qed.

End PairManagerProps.


(** ** Filters *)

Section FilterProps.

Variable windows : bool.
Variable PathMatch : string -> string -> bool.

Lemma include_loop_true (extensions : list string) (fileExt : string) :
  include_loop extensions fileExt = true
  <-> exists e, e ∈ extensions /\ ToLower e = fileExt.
Proof.
  induction extensions as [|a rest IH]; cbn.
  - split; [done|]. intros (e & He & _). by apply elem_of_nil in He.
  - destruct (String.eqb_spec (ToLower a) fileExt) as [Heq|Hne].
    + split; [|done]. intros _. exists a. split; [apply list_elem_of_here|done].
    + rewrite IH. split.
      * intros (e & He & Hl). exists e. split; [by apply list_elem_of_further|done].
      * intros (e & He & Hl). apply elem_of_cons in He as [->|He]; [done|eauto].
Qed.

Lemma glob_loop_true (globs : list string) (path : string) :
  glob_loop PathMatch globs path = true
  <-> exists g, g ∈ globs /\ PathMatch g path = true.
Proof.
  induction globs as [|a rest IH]; cbn.
  - split; [done|]. intros (g & Hg & _). by apply elem_of_nil in Hg.
  - destruct (PathMatch a path) eqn:Hm.
    + split; [|done]. intros _. exists a. split; [apply list_elem_of_here|done].
    + rewrite IH. split.
      * intros (g & Hg & Hp). exists g. split; [by apply list_elem_of_further|done].
      * intros (g & Hg & Hp). apply elem_of_cons in Hg as [->|Hg]; [congruence|eauto].
Qed.

Lemma MatchesInclude_nonempty (extensions : list string) (filePath : string) :
  extensions <> [] ->
  MatchesInclude windows extensions filePath = true
  <-> exists e, e ∈ extensions /\ ToLower e = ToLower (Ext windows filePath).
Proof.
  intros Hne. destruct extensions; [done|]. apply include_loop_true.
Qed.

Lemma MatchesAnyGlob_nonempty (globs : list string) (filePath : string) :
  globs <> [] ->
  MatchesAnyGlob windows PathMatch globs filePath = true
  <-> exists g, g ∈ globs /\ PathMatch g (ToSlash windows filePath) = true.
Proof.
  intros Hne. destruct globs; [done|]. apply glob_loop_true.
Qed.

Lemma ShouldTriggerHook_iff (exts globs : list string) (filePath : string) :
  ShouldTriggerHook windows PathMatch exts globs filePath = true
  <-> (exts = [] /\ globs = [])
      \/ (exts <> [] /\ exists e, e ∈ exts
            /\ ToLower e = ToLower (Ext windows filePath))
      \/ (globs <> [] /\ exists g, g ∈ globs
            /\ PathMatch g (ToSlash windows filePath) = true).
Proof.
  unfold ShouldTriggerHook.
  destruct exts as [|e0 exts], globs as [|g0 globs]; cbn [is_empty andb negb].
  - split; [by left|done].
  - destruct (MatchesAnyGlob _ _ _ _) eqn:Hg.
    + apply MatchesAnyGlob_nonempty in Hg; [|done]. split; [|done].
      intros _. right. right. done.
    + split; [done|]. intros [[_ ?]|[[? _]|[_ Hx]]]; try done.
      apply MatchesAnyGlob_nonempty in Hx; [congruence|done].
  - destruct (MatchesInclude _ _ _) eqn:Hi.
    + apply MatchesInclude_nonempty in Hi; [|done]. split; [|done].
      intros _. right. left. done.
    + split; [done|]. intros [[? _]|[[_ Hx]|[? _]]]; try done.
      apply MatchesInclude_nonempty in Hx; [congruence|done].
  - destruct (MatchesInclude _ _ _) eqn:Hi.
    + apply MatchesInclude_nonempty in Hi; [|done]. split; [|done].
      intros _. right. left. done.
    + destruct (MatchesAnyGlob _ _ _ _) eqn:Hg.
      * apply MatchesAnyGlob_nonempty in Hg; [|done]. split; [|done].
        intros _. right. right. done.
      * split; [done|]. intros [[? _]|[[_ Hx]|[_ Hx]]]; try done.
        -- apply MatchesInclude_nonempty in Hx; [congruence|done].
        -- apply MatchesAnyGlob_nonempty in Hx; [congruence|done].
Qed.

Lemma shouldTriggerHook_eq (hook : Hook) (filePath : string) :
  shouldTriggerHook windows PathMatch hook filePath
  = ShouldTriggerHook windows PathMatch (MatchExtensions hook) (MatchGlobs hook) filePath.
Proof. reflexivity. Qed.

(** C10. A hook triggers exactly when both of its filter lists are empty,
    or the extension list is non-empty and the lower-cased extension of the
    path equals a lower-cased entry, or the glob list is non-empty and one
    of its patterns matches the slash-normalised path: the two filters
    combine as a disjunction.  This holds for the exported function of
    filters.go and for the function of hooks.go that [RunHooks] uses. *)
Theorem hook_filters_are_a_disjunction (hook : Hook) (filePath : string) :
  let triggers_when :=
    (MatchExtensions hook = [] /\ MatchGlobs hook = [])
    \/ (MatchExtensions hook <> [] /\ exists e, e ∈ MatchExtensions hook
          /\ ToLower e = ToLower (Ext windows filePath))
    \/ (MatchGlobs hook <> [] /\ exists g, g ∈ MatchGlobs hook
          /\ PathMatch g (ToSlash windows filePath) = true) in
  (ShouldTriggerHook windows PathMatch (MatchExtensions hook) (MatchGlobs hook) filePath
     = true <-> triggers_when)
  /\ (shouldTriggerHook windows PathMatch hook filePath = true <-> triggers_when).
Proof.
  cbn zeta. rewrite shouldTriggerHook_eq. split; apply ShouldTriggerHook_iff.
Qed.

(** *** Wildcards in the include list *)

Lemma norm_step_matchAll_stays (st : NormState) (ext : string) :
  matchAll st = true -> matchAll (norm_step st ext) = true.
Proof.
  intros H. unfold norm_step.
  repeat match goal with |- context [if ?b then _ else _] => destruct b end; done.
Qed.

Lemma norm_loop_matchAll_stays (exts : list string) (st : NormState) :
  matchAll st = true -> matchAll (fold_left norm_step exts st) = true.
Proof.
  revert st. induction exts as [|e exts IH]; intros st H; cbn; [done|].
  apply IH. by apply norm_step_matchAll_stays.
Qed.

Lemma norm_step_wildcard (st : NormState) (ext : string) :
  ext = "*" \/ ext = ".*" -> matchAll (norm_step st ext) = true.
Proof. intros [->| ->]; reflexivity. Qed.

Lemma norm_loop_wildcard (exts : list string) (st : NormState) :
  (exists e, e ∈ exts /\ (e = "*" \/ e = ".*")) ->
  matchAll (fold_left norm_step exts st) = true.
Proof.
  revert st. induction exts as [|a exts IH]; intros st (e & He & Hw); cbn.
  - by apply elem_of_nil in He.
  - apply elem_of_cons in He as [->|He].
    + apply norm_loop_matchAll_stays. by apply norm_step_wildcard.
    + apply IH. eauto.
Qed.

(** C8 (as amended). The wildcard is handled by
    [normalizeIncludeExtensions], not by [MatchesInclude]: an include list
    with an entry "*" or ".*" is normalised to the empty list, and on the
    normalised list [MatchesInclude] accepts every path. *)
Theorem wildcard_normalizes_to_match_all (exts : list string) (filePath : string) :
  (exists e, e ∈ exts /\ (e = "*" \/ e = ".*")) ->
  normalizeIncludeExtensions exts = []
  /\ MatchesInclude windows (normalizeIncludeExtensions exts) filePath = true.
Proof.
  intros Hw.
  assert (Hn : normalizeIncludeExtensions exts = []).
  { unfold normalizeIncludeExtensions. destruct exts as [|a exts]; [done|].
    unfold norm_loop. by rewrite (norm_loop_wildcard _ _ Hw). }
  by rewrite Hn.
Qed.

End FilterProps.

(** ** Runs in the world *)

Lemma bind_inv {A B} (c : M A) (f : A -> M B) w r w' :
  (c ≫= f) w = (r, w') -> exists a w1, c w = (a, w1) /\ f a w1 = (r, w').
Proof.
  unfold mbind, M_bind. destruct (c w) as [a w1]. eauto.
Qed.

Lemma touches_only_refl S w w' :
  trace w' = trace w -> fs w' = fs w -> touches_only S w w'.
Proof. intros Ht Hf. exists []. split; [split|]; done. Qed.

Lemma touches_only_frame S w w' p :
  touches_only S w w' -> p ∉ S -> fs w' !! p = fs w !! p.
Proof.
  intros (new & [Ht Hf] & Hall) Hp. rewrite Hf. destruct new as [|ev new]; [done|].
  by apply Forall_cons in Hall as [Hev _]; apply Hev.
Qed.

Lemma touches_only_trans S w w1 w2 :
  touches_only S w w1 -> touches_only S w1 w2 -> touches_only S w w2.
Proof.
  intros H1 (new2 & [Ht2 Hf2] & Hall2).
  pose proof H1 as (new1 & [Ht1 Hf1] & Hall1).
  exists (new2 ++ new1)%list. split; [split|].
  - by rewrite Ht2, Ht1, app_assoc.
  - rewrite Hf2. destruct new2 as [|ev2 new2]; [|done]. done.
  - apply Forall_app. split; [|done].
    eapply Forall_impl; [exact Hall2|]. cbn. intros ev Hev p Hp.
    rewrite Hev by done. by eapply touches_only_frame.
Qed.

Lemma touches_only_mono S S' w w' :
  S ⊆ S' -> touches_only S w w' -> touches_only S' w w'.
Proof.
  intros Hsub (new & Hs & Hall). exists new. split; [done|].
  eapply Forall_impl; [exact Hall|]. cbn. intros ev Hev p Hp. apply Hev.
  intros Hin. apply Hp. by apply Hsub.
Qed.

Lemma touches_only_one S w c bad m oth flt clk :
  (forall p, p ∉ S -> m !! p = fs w !! p) ->
  touches_only S w
    {| fs := m; others := oth; faults := flt; clock := clk;
       trace := {| call := c; failed := bad; after := m |} :: trace w |}.
Proof.
  intros Hm. exists [{| call := c; failed := bad; after := m |}].
  split; [split; done|]. by apply Forall_singleton.
Qed.

Lemma os_Stat_spec p w r w' : os_Stat p w = (r, w') -> w' = w /\ r = stat_of w p.
Proof. unfold os_Stat. by inversion 1. Qed.

Lemma stat_of_file w p f : fs w !! p = Some f -> stat_of w p = StatFile f.
Proof. unfold stat_of. by intros ->. Qed.

(** A call that only looks, or fails, leaves the files alone. *)
Ltac run_prim H :=
  unfold mbind, M_bind, mret, M_ret, next_fault, get_fs, get_clock, emit in H;
  cbn in H;
  repeat match type of H with
         | context [match ?x with _ => _ end] => destruct x eqn:?
         end;
  cbn in H; inversion H; subst; clear H.

Lemma os_Open_spec S p w r w' :
  os_Open p w = (r, w') ->
  touches_only S w w' /\ fs w' = fs w /\ (r = None -> is_Some (fs w !! p)).
Proof.
  intros H. unfold os_Open in H. run_prim H;
    (split; [by apply touches_only_one|split; [done|]]); intros; eauto; done.
Qed.

Lemma os_Create_spec p w r w' :
  os_Create p w = (r, w') ->
  touches_only [p] w w'
  /\ match r with
     | None => fs w' = <[p := {| data := ""; mtime := clock w |}]> (fs w)
     | Some _ => fs w' = fs w
     end.
Proof.
  intros H. unfold os_Create in H. run_prim H; (split; [|done]);
    apply touches_only_one; intros q Hq; cbn; [|done].
  apply lookup_insert_ne. set_solver.
Qed.

Lemma os_Write_spec p chunk w r w' :
  os_Write p chunk w = (r, w') ->
  touches_only [p] w w' /\ fs w' = alter (append_data chunk) p (fs w).
Proof.
  intros H. unfold os_Write in H. run_prim H. split; [|done].
  apply touches_only_one. intros q Hq. apply lookup_alter_ne. set_solver.
Qed.

Lemma write_chunks_spec p cs w r w' :
  write_chunks p cs w = (r, w') ->
  touches_only [p] w w' /\ (is_Some (fs w' !! p) <-> is_Some (fs w !! p)).
Proof.
  revert w. induction cs as [|c cs IH]; intros w H; cbn in H.
  - inversion H; subst. split; [by apply touches_only_refl|done].
  - apply bind_inv in H as (a & w1 & H1 & H2).
    apply os_Write_spec in H1 as [T1 F1]. apply IH in H2 as [T2 F2].
    split; [by eapply touches_only_trans|].
    rewrite F2, F1, lookup_alter_eq. by rewrite fmap_is_Some.
Qed.

Lemma io_CopyBuffer_spec dst src w r w' :
  io_CopyBuffer dst src w = (r, w') ->
  touches_only [dst] w w' /\ (is_Some (fs w' !! dst) <-> is_Some (fs w !! dst)).
Proof.
  intros H. unfold io_CopyBuffer in H.
  apply bind_inv in H as (f & w1 & H1 & H).
  apply bind_inv in H as (m & w2 & H2 & H).
  unfold next_fault in H1. unfold get_fs in H2. inversion H1; inversion H2; subst.
  clear H1 H2. destruct (hd NoFault (faults w));
    apply bind_inv in H as (a & w3 & H3 & H); apply write_chunks_spec in H3 as [T F];
    inversion H; subst.
  all: split; [|exact F].
  all: destruct T as (new & [Ht Hf] & Hall); exists new; split; [split|]; done.
Qed.

Lemma file_Close_spec S p w r w' :
  file_Close p w = (r, w') -> touches_only S w w' /\ fs w' = fs w.
Proof.
  intros H. unfold file_Close in H. run_prim H; (split; [by apply touches_only_one|done]).
Qed.

Lemma os_MkdirAll_spec S p w r w' :
  os_MkdirAll p w = (r, w') -> touches_only S w w' /\ fs w' = fs w.
Proof.
  intros H. unfold os_MkdirAll in H. run_prim H; (split; [by apply touches_only_one|done]).
Qed.

Lemma os_Chtimes_spec p t w r w' :
  os_Chtimes p t w = (r, w') ->
  touches_only [p] w w' /\ (is_Some (fs w' !! p) <-> is_Some (fs w !! p)).
Proof.
  intros H. unfold os_Chtimes in H. run_prim H; split.
  all: try (apply touches_only_one; intros q Hq; cbn; try done;
            apply lookup_alter_ne; set_solver).
  all: cbn; rewrite ?lookup_alter_eq, ?fmap_is_Some.
  all: repeat match goal with E : _ !! _ = _ |- _ => rewrite E; clear E end; tauto.
Qed.

(** What a removal leaves: the path is gone, or the call is on record as
    failed with the files as they were. *)
Lemma os_Remove_spec p w r w' :
  os_Remove p w = (r, w') ->
  touches_only [p] w w'
  /\ match r with
     | None => is_Some (fs w !! p) /\ fs w' = delete p (fs w)
     | Some _ =>
         fs w' = fs w
         /\ exists ev, trace w' = ev :: trace w /\ call ev = SysRemove p /\ failed ev = true
     end.
Proof.
  intros H. unfold os_Remove in H. run_prim H; split.
  all: try (apply touches_only_one; intros q Hq; cbn; try done;
            apply lookup_delete_ne; set_solver).
  all: cbn; eauto 6.
Qed.

Lemma os_Rename_spec a b w r w' :
  os_Rename a b w = (r, w') ->
  match r with
  | None =>
      exists file, fs w !! a = Some file
        /\ fs w' = <[b := file]> (delete a (fs w))
        /\ trace w' = {| call := SysRename a b; failed := false; after := fs w' |} :: trace w
  | Some _ => (forall S, touches_only S w w') /\ fs w' = fs w
  end.
Proof.
  intros H. unfold os_Rename in H. run_prim H; cbn; eauto.
  all: split; [intros S; by apply touches_only_one|done].
Qed.

Lemma time_Sleep_spec S d w r w' :
  time_Sleep d w = (r, w') ->
  touches_only S w w' /\ fs w' = fs w /\ clock w' = clock w + d.
Proof.
  unfold time_Sleep. inversion 1; subst. split; [by apply touches_only_one|done].
Qed.

Lemma log_msg_spec S msg w r w' :
  log_msg msg w = (r, w') -> touches_only S w w' /\ fs w' = fs w.
Proof.
  intros H. unfold log_msg in H. run_prim H. split; [by apply touches_only_one|done].
Qed.

(** ** [copyAtomic] *)

Lemma append_nil_r (s : string) : s ++ "" = s.
Proof. induction s as [|c s IH]; [done|]. rewrite <- IH at 2. reflexivity. Qed.

Lemma append_assoc (a b c : string) : (a ++ b) ++ c = a ++ (b ++ c).
Proof.
  induction a as [|x a IH]; [done|].
  change (String x ((a ++ b) ++ c) = String x (a ++ (b ++ c))). by rewrite IH.
Qed.

Lemma tmp_ne (p : string) : p ++ ".tmp" <> p.
Proof.
  intros H. rewrite <- (append_nil_r p) in H at 2.
  by apply (inj (String.append p)) in H.
Qed.

Ltac bind_step H a w1 H1 := apply bind_inv in H as (a & w1 & H1 & H).
Ltac ret_inv H := unfold mret, M_ret in H; inversion H; subst.

Lemma incl_tmp (tmp dst : string) : [tmp] ⊆ [tmp; dst].
Proof. set_solver. Qed.

(** Everything [copyAtomic] can do.  With an error, only the temp path was
    ever written; and the temp is gone, unless nothing was touched at all or
    the removal itself is on record as failed.  Without an error the last
    call is the rename that installs the target. *)
Lemma copyAtomic_spec src dst w n err w' :
  copyAtomic src dst w = ((n, err), w') ->
  touches_only [dst ++ ".tmp"; dst] w w'
  /\ match err with
     | Some _ =>
         touches_only [dst ++ ".tmp"] w w'
         /\ (fs w' = fs w
             \/ fs w' !! (dst ++ ".tmp") = None
             \/ exists ev rest, trace w' = ev :: rest
                  /\ call ev = SysRemove (dst ++ ".tmp") /\ failed ev = true)
     | None =>
         is_Some (fs w !! src)
         /\ is_Some (fs w' !! dst) /\ fs w' !! (dst ++ ".tmp") = None
         /\ exists wpre, touches_only [dst ++ ".tmp"] w wpre
              /\ trace w' = {| call := SysRename (dst ++ ".tmp") dst; failed := false;
                               after := fs w' |} :: trace wpre
     end.
Proof.
  intros H. unfold copyAtomic in H.
  set (tmp := dst ++ ".tmp") in *.
  assert (Hne : dst <> tmp) by (intros E; by apply (tmp_ne dst)).
  bind_step H e1 w1 H1. apply (os_Open_spec [tmp]) in H1 as (T1 & F1 & O1).
  destruct e1 as [e1|].
  { ret_inv H. split; [by eapply touches_only_mono; [apply incl_tmp|]|].
    split; [done|]. by left. }
  specialize (O1 eq_refl).
  bind_step H e2 w2 H2. apply os_Create_spec in H2 as (T2 & F2).
  pose proof (touches_only_trans _ _ _ _ T1 T2) as T12.
  destruct e2 as [e2|].
  { ret_inv H. split; [by eapply touches_only_mono; [apply incl_tmp|]|].
    split; [done|]. left. congruence. }
  bind_step H r3 w3 H3. destruct r3 as [bytesCopied copyErr].
  apply io_CopyBuffer_spec in H3 as (T3 & S3).
  pose proof (touches_only_trans _ _ _ _ T12 T3) as T123.
  assert (Stmp3 : is_Some (fs w3 !! tmp)).
  { apply S3. rewrite F2, lookup_insert_eq. eauto. }
  bind_step H closeErr w4 H4. apply (file_Close_spec [tmp]) in H4 as (T4 & F4).
  pose proof (touches_only_trans _ _ _ _ T123 T4) as T1234.
  set (ce := match copyErr with Some _ => copyErr | None => closeErr end) in H.
  destruct ce as [e|].
  { bind_step H r5 w5 H5. apply os_Remove_spec in H5 as (T5 & R5). ret_inv H.
    pose proof (touches_only_trans _ _ _ _ T1234 T5) as T.
    split; [by eapply touches_only_mono; [apply incl_tmp|]|]. split; [done|].
    destruct r5 as [e5|].
    - right. right. destruct R5 as (_ & ev & Htr & Hc & Hf). eauto.
    - right. left. destruct R5 as (_ & ->). apply lookup_delete_eq. }
  bind_step H info w5 H5. apply os_Stat_spec in H5 as (-> & Hinfo).
  bind_step H u6 w6 H6.
  assert (T6 : touches_only [tmp] w4 w6 /\ is_Some (fs w6 !! tmp)).
  { destruct (stat_info info) as [sinfo|].
    - bind_step H6 r w7 H7. apply os_Chtimes_spec in H7 as (T7 & S7). ret_inv H6.
      split; [done|]. apply S7. by rewrite F4.
    - ret_inv H6. split; [by apply touches_only_refl|]. by rewrite F4. }
  destruct T6 as (T6 & Stmp6).
  pose proof (touches_only_trans _ _ _ _ T1234 T6) as Tpre.
  bind_step H e7 w7 H7. apply os_Rename_spec in H7.
  destruct e7 as [e7|].
  { destruct H7 as (T7 & F7).
    bind_step H r8 w8 H8. apply os_Remove_spec in H8 as (T8 & R8). ret_inv H.
    pose proof (touches_only_trans _ _ _ _ (touches_only_trans _ _ _ _ Tpre (T7 _)) T8) as T.
    split; [by eapply touches_only_mono; [apply incl_tmp|]|]. split; [done|].
    destruct r8 as [e8|].
    - right. right. destruct R8 as (_ & ev & Htr & Hc & Hf). eauto.
    - right. left. destruct R8 as (_ & ->). apply lookup_delete_eq. }
  destruct H7 as (file & Hfile & F7 & Tr7). ret_inv H.
  assert (Hdst : is_Some (fs w' !! dst)) by (rewrite F7, lookup_insert_eq; eauto).
  assert (Htmp : fs w' !! tmp = None).
  { rewrite F7, lookup_insert_ne by done. apply lookup_delete_eq. }
  split; [|split; [done|split; [done|split; [done|eauto]]]].
  destruct Tpre as (new & [Ht Hf] & Hall).
  exists ({| call := SysRename tmp dst; failed := false; after := fs w' |} :: new).
  split; [split|].
  - by rewrite Tr7, Ht.
  - done.
  - apply Forall_cons. split.
    + cbn. intros p Hp. rewrite F7.
      rewrite lookup_insert_ne by set_solver. rewrite lookup_delete_ne by set_solver.
      rewrite Hf. destruct new as [|ev new]; [done|].
      apply Forall_cons in Hall as [Hev _]. apply Hev. set_solver.
    + eapply Forall_impl; [exact Hall|]. cbn. intros ev Hev p Hp. apply Hev. set_solver.
Qed.

Lemma states_between_app w w' new :
  trace w' = (new ++ trace w)%list -> states_between w w' = rev (map after new).
Proof.
  intros Ht. unfold states_between. rewrite Ht, length_app.
  replace (length new + length (trace w) - length (trace w))%nat with (length new) by lia.
  by rewrite take_app_length.
Qed.

(** The calls [copyAtomic] adds to the trace, and what each leaves under the
    target path: what was there before, or, for the one successful rename,
    the new file. *)
Lemma copyAtomic_trace src dst w n err w' :
  copyAtomic src dst w = ((n, err), w') ->
  exists new, trace w' = (new ++ trace w)%list
    /\ Forall (fun ev =>
         after ev !! dst = fs w !! dst
         \/ (call ev = SysRename (dst ++ ".tmp") dst /\ failed ev = false
             /\ err = None /\ after ev = fs w')) new.
Proof.
  intros H. apply copyAtomic_spec in H as [_ H].
  assert (Hne : dst ∉ [dst ++ ".tmp"]).
  { intros Hin. apply list_elem_of_singleton in Hin. by apply (tmp_ne dst). }
  destruct err as [e|].
  - destruct H as ((new & [Ht _] & Hall) & _). exists new. split; [done|].
    eapply Forall_impl; [exact Hall|]. cbn. intros ev Hev. left. by apply Hev.
  - destruct H as (_ & _ & _ & wpre & (new & [Ht _] & Hall) & Htr).
    eexists (_ :: new). split; [by rewrite Htr, Ht|].
    apply Forall_cons. split; [right; done|].
    eapply Forall_impl; [exact Hall|]. cbn. intros ev Hev. left. by apply Hev.
Qed.

(** *** What a successful copy installs *)

Lemma chunks_aux_concat cap room cur s :
  concat_chunks (chunks_aux cap room cur s) = cur ++ s.
Proof.
  revert room cur. induction s as [|c r IH]; intros room cur; cbn [chunks_aux].
  - destruct cur; [done|]. unfold concat_chunks. cbn [foldr]. done.
  - destruct (room =? 0)%N.
    + unfold concat_chunks. cbn [foldr]. fold (concat_chunks (chunks_aux cap (cap - 1) (String c "") r)).
      by rewrite IH.
    + rewrite IH. apply append_assoc.
Qed.

Lemma chunks_concat cap s : concat_chunks (chunks cap s) = s.
Proof. unfold chunks. by rewrite chunks_aux_concat. Qed.

Lemma append_data_nil f : append_data "" f = f.
Proof. destruct f. unfold append_data. cbn. by rewrite append_nil_r. Qed.

Lemma append_data_twice a b f : append_data b (append_data a f) = append_data (a ++ b) f.
Proof. unfold append_data. cbn. by rewrite append_assoc. Qed.

Lemma write_chunks_content p cs w r w' :
  write_chunks p cs w = (r, w') ->
  fs w' !! p = append_data (concat_chunks cs) <$> fs w !! p.
Proof.
  revert w. induction cs as [|c cs IH]; intros w H; cbn in H.
  - ret_inv H. destruct (fs w' !! p) as [f|]; cbn; [|done]. by rewrite append_data_nil.
  - bind_step H u w1 H1. apply os_Write_spec in H1 as [_ F1]. apply IH in H.
    rewrite H, F1, lookup_alter_eq. destruct (fs w !! p) as [f|]; cbn; [|done].
    by rewrite append_data_twice.
Qed.

Lemma io_CopyBuffer_content dst src w n w' :
  io_CopyBuffer dst src w = ((n, None), w') ->
  let content := default "" (data <$> fs w !! src) in
  fs w' !! dst = append_data content <$> fs w !! dst
  /\ n = Z.of_nat (String.length content).
Proof.
  intros H content. unfold io_CopyBuffer in H.
  bind_step H f w1 H1. bind_step H m w2 H2.
  unfold next_fault in H1. unfold get_fs in H2. inversion H1; inversion H2; subst.
  clear H1 H2. destruct (hd NoFault (faults w)).
  - bind_step H a w3 H3. apply write_chunks_content in H3. ret_inv H.
    split; [|done]. by rewrite H3, chunks_concat.
  - bind_step H a w3 H3. by ret_inv H.
Qed.

Lemma os_Chtimes_data p t w r w' q :
  os_Chtimes p t w = (r, w') -> data <$> fs w' !! q = data <$> fs w !! q.
Proof.
  intros H. unfold os_Chtimes in H. run_prim H; try done. cbn.
  destruct (decide (q = p)) as [->|Hne].
  - rewrite lookup_alter_eq. by destruct (fs w !! p).
  - by rewrite lookup_alter_ne.
Qed.

(** A copy that returns no error has installed the whole content of the
    source under the target path, and reports its length. *)
Lemma copyAtomic_success_content src dst w n w' :
  copyAtomic src dst w = ((n, None), w') ->
  src <> dst ++ ".tmp" ->
  exists f, fs w !! src = Some f
    /\ data <$> fs w' !! dst = Some (data f)
    /\ n = Z.of_nat (String.length (data f)).
Proof.
  intros H Hsrc. unfold copyAtomic in H.
  set (tmp := dst ++ ".tmp") in *.
  bind_step H e1 w1 H1. apply (os_Open_spec []) in H1 as (_ & F1 & O1).
  destruct e1; [by ret_inv H|]. destruct (O1 eq_refl) as [f Hf].
  bind_step H e2 w2 H2. apply os_Create_spec in H2 as (_ & F2).
  destruct e2; [by ret_inv H|]. rewrite F1 in F2.
  bind_step H r3 w3 H3. destruct r3 as [b ce].
  bind_step H e4 w4 H4. apply (file_Close_spec []) in H4 as (_ & F4).
  destruct ce as [e|]; [bind_step H r5 w5 H5; by ret_inv H|].
  apply io_CopyBuffer_content in H3 as (C3 & ->).
  rewrite F2, lookup_insert_eq, lookup_insert_ne, Hf in C3 by done. cbn in C3.
  destruct e4 as [e|]; [bind_step H r5 w5 H5; by ret_inv H|].
  bind_step H info w5 H5. apply os_Stat_spec in H5 as (-> & _).
  bind_step H u6 w6 H6.
  assert (D6 : data <$> fs w6 !! tmp = Some (data f)).
  { assert (D4 : data <$> fs w4 !! tmp = Some (data f)) by (by rewrite F4, C3).
    destruct (stat_info info); [|by ret_inv H6].
    bind_step H6 r7 w7 H7. apply (os_Chtimes_data _ _ _ _ _ tmp) in H7. ret_inv H6.
    by rewrite H7. }
  bind_step H e7 w7 H7. apply os_Rename_spec in H7.
  destruct e7 as [e|]; [bind_step H r8 w8 H8; by ret_inv H|].
  destruct H7 as (file & Hfile & F7 & _). ret_inv H.
  exists f. split; [exact Hf|]. split.
  - rewrite F7, lookup_insert_eq. cbn. rewrite Hfile in D6. by inversion D6.
  - rewrite F2, lookup_insert_ne, Hf by done. done.
Qed.

(** C2 (as amended). If [copyAtomic] returns an error, the target path holds
    what it held before (or is still absent) and no call ever wrote to it.
    The temp path is absent afterwards, except when the call failed before
    creating the temp (opening the source or creating the temp failed), in
    which case no file was touched and a temp file left by an earlier run is
    still there, or when the clean-up removal, whose result the code drops,
    itself failed.  Whatever the result, the only call that changes the
    target path is the final rename of the temp file, and when that rename
    happens the temp file holds the whole content of the source. *)
Theorem copyAtomic_error_keeps_target src dst w n err w' :
  copyAtomic src dst w = ((n, err), w') ->
  (err <> None ->
     fs w' !! dst = fs w !! dst
     /\ (fs w' = fs w
         \/ fs w' !! (dst ++ ".tmp") = None
         \/ exists ev rest, trace w' = ev :: rest
              /\ call ev = SysRemove (dst ++ ".tmp") /\ failed ev = true))
  /\ (exists new, trace w' = (new ++ trace w)%list
       /\ Forall (fun ev =>
            after ev !! dst = fs w !! dst
            \/ (call ev = SysRename (dst ++ ".tmp") dst /\ failed ev = false
                /\ err = None)) new)
  /\ (err = None -> src <> dst ++ ".tmp" ->
      exists f, fs w !! src = Some f /\ data <$> fs w' !! dst = Some (data f)).
Proof.
  intros H. split; [|split].
  3: { intros -> Hsrc.
       destruct (copyAtomic_success_content _ _ _ _ _ H Hsrc) as (f & Hf & Hd & _). eauto. }
  - intros Herr. apply copyAtomic_spec in H as [_ H].
    destruct err as [e|]; [|done]. destruct H as (T & Htmp). split; [|done].
    eapply touches_only_frame; [exact T|].
    intros Hin. apply list_elem_of_singleton in Hin. by apply (tmp_ne dst).
  - apply copyAtomic_trace in H as (new & Ht & Hall). exists new. split; [done|].
    eapply Forall_impl; [exact Hall|]. cbn. intros ev [Hev|(?&?&?&_)]; auto.
Qed.

(** ** Readers beside [copyAtomic] *)

Lemma interleave_Forall (P : option File -> Prop) schedule cur pending path :
  P (cur !! path) -> Forall (fun m => P (m !! path)) pending ->
  Forall P (interleave schedule cur pending path).
Proof.
  revert cur pending. induction schedule as [|t schedule IH]; intros cur pending Hc Hp; cbn.
  - constructor.
  - destruct t.
    + destruct pending as [|nxt later]; [by apply IH|].
      apply Forall_cons in Hp as [Hn Hl]. by apply IH.
    + constructor; [done|]. by apply IH.
Qed.

(** C9. Take any schedule that interleaves the calls of one [copyAtomic]
    with the looks of a reader at the target path.  Whenever the reader
    looks, the target path names either the file it named before the copy
    started or the file it names when the copy has returned. *)
Theorem copyAtomic_readers_see_old_or_new src dst w schedule :
  let w' := snd (copyAtomic src dst w) in
  Forall (fun seen => seen = fs w !! dst \/ seen = fs w' !! dst)
    (interleave schedule (fs w) (states_between w w') dst).
Proof.
  cbn zeta. destruct (copyAtomic src dst w) as [[n err] w'] eqn:H. cbn [snd].
  apply copyAtomic_trace in H as (new & Ht & Hall).
  rewrite (states_between_app _ _ _ Ht).
  apply interleave_Forall; [by left|].
  apply Forall_rev, Forall_fmap.
  eapply Forall_impl; [exact Hall|]. cbn. intros ev [Hev|(_&_&_&Hev)].
  - by left.
  - right. by rewrite Hev.
Qed.

(** ** Paths and the walk order *)

Lemma strip_prefix_app (a r : string) : strip_prefix a (a ++ r) = Some r.
Proof.
  induction a as [|x a IH]; [done|].
  change (strip_prefix (String x a) (String x (a ++ r)) = Some r).
  cbn. by rewrite Ascii.eqb_refl.
Qed.

Lemma strip_prefix_Some (a p r : string) : strip_prefix a p = Some r -> p = a ++ r.
Proof.
  revert p. induction a as [|x a IH]; intros p H; cbn in H.
  - by inversion H.
  - destruct p as [|y p]; [done|]. destruct (Ascii.eqb_spec x y) as [->|]; [|done].
    apply IH in H. subst p. reflexivity.
Qed.

Lemma Rel_Join (base rel : string) : Rel base (Join base rel) = Some rel.
Proof. apply strip_prefix_app. Qed.

Lemma Rel_Some (base p rel : string) : Rel base p = Some rel -> p = Join base rel.
Proof. apply strip_prefix_Some. Qed.

Lemma under_Join (base rel : string) : under base (Join base rel) = true.
Proof. unfold under. by rewrite Rel_Join. Qed.

Lemma under_inv (base p : string) :
  under base p = true -> exists rel, Rel base p = Some rel /\ p = Join base rel.
Proof.
  unfold under. destruct (Rel base p) as [rel|] eqn:E; [|done].
  intros _. exists rel. split; [done|]. by apply Rel_Some.
Qed.

Lemma Join_inj (base r1 r2 : string) : Join base r1 = Join base r2 -> r1 = r2.
Proof. unfold Join. apply (inj (String.append _)). Qed.

Lemma Join_tmp (base rel : string) : Join base (rel ++ ".tmp") = Join base rel ++ ".tmp".
Proof. unfold Join. symmetry. apply append_assoc. Qed.

Lemma app_comparable (a b r1 r2 : string) :
  a ++ r1 = b ++ r2 -> (exists c, b = a ++ c) \/ (exists c, a = b ++ c).
Proof.
  revert b. induction a as [|x a IH]; intros b H.
  - left. by exists b.
  - destruct b as [|y b]; [right; by exists (String x a)|].
    change (String x (a ++ r1) = String y (b ++ r2)) in H. inversion H; subst.
    destruct (IH b) as [[c ->]|[c ->]]; [done| |].
    + left. by exists c.
    + right. by exists c.
Qed.

Lemma roots_apart_disjoint (a b p : string) :
  roots_apart a b = true -> under a p = true -> under b p = true -> False.
Proof.
  unfold roots_apart. intros Hap Ha Hb.
  apply andb_true_iff in Hap as [H1 H2].
  apply negb_true_iff in H1, H2.
  apply under_inv in Ha as (ra & _ & Ea). apply under_inv in Hb as (rb & _ & Eb).
  unfold Join in *. subst p.
  destruct (app_comparable _ _ _ _ Eb) as [[c Hc]|[c Hc]].
  - unfold under, Rel in H1. by rewrite Hc, strip_prefix_app in H1.
  - unfold under, Rel in H2. by rewrite Hc, strip_prefix_app in H2.
Qed.

Lemma sep_key_inj (x y : ascii) : sep_key x = sep_key y -> x = y.
Proof.
  unfold sep_key. destruct (Ascii.eqb_spec x "/"), (Ascii.eqb_spec y "/");
    intros H; try congruence.
  injection H as H. rewrite <- (ascii_nat_embedding x), <- (ascii_nat_embedding y).
  by rewrite H.
Qed.

Lemma path_leb_total (a b : string) : path_leb a b = true \/ path_leb b a = true.
Proof.
  revert b. induction a as [|x a IH]; intros b; [by left|].
  destruct b as [|y b]; [by right|]. cbn [path_leb].
  destruct (Nat.ltb_spec (sep_key x) (sep_key y)); [by left|].
  destruct (Nat.ltb_spec (sep_key y) (sep_key x)); [by right|].
  assert (E : sep_key x = sep_key y) by lia.
  rewrite E, Nat.eqb_refl. apply IH.
Qed.

Lemma path_leb_trans (a b c : string) :
  path_leb a b = true -> path_leb b c = true -> path_leb a c = true.
Proof.
  revert b c. induction a as [|x a IH]; intros b c Hab Hbc; [done|].
  destruct b as [|y b]; [done|]. destruct c as [|z c]; [done|]. cbn [path_leb] in *.
  destruct (Nat.ltb_spec (sep_key x) (sep_key y)) as [Hxy|Hxy].
  - destruct (Nat.ltb_spec (sep_key y) (sep_key z)) as [Hyz|Hyz].
    + destruct (Nat.ltb_spec (sep_key x) (sep_key z)); [done|lia].
    + destruct (Nat.eqb_spec (sep_key y) (sep_key z)) as [E|]; [|done].
      destruct (Nat.ltb_spec (sep_key x) (sep_key z)); [done|lia].
  - destruct (Nat.eqb_spec (sep_key x) (sep_key y)) as [E|]; [|done].
    rewrite E. destruct (Nat.ltb_spec (sep_key y) (sep_key z)); [done|].
    destruct (Nat.eqb_spec (sep_key y) (sep_key z)); [|done]. eauto.
Qed.

Lemma path_leb_antisym (a b : string) :
  path_leb a b = true -> path_leb b a = true -> a = b.
Proof.
  revert b. induction a as [|x a IH]; intros b Hab Hba.
  - by destruct b.
  - destruct b as [|y b]; [done|]. cbn [path_leb] in *.
    destruct (Nat.ltb_spec (sep_key x) (sep_key y)) as [Hxy|Hxy].
    + destruct (Nat.ltb_spec (sep_key y) (sep_key x)); [lia|].
      destruct (Nat.eqb_spec (sep_key y) (sep_key x)); [lia|done].
    + destruct (Nat.eqb_spec (sep_key x) (sep_key y)) as [E|]; [|done].
      rewrite E, Nat.ltb_irrefl, Nat.eqb_refl in Hba.
      apply sep_key_inj in E. subst y. f_equal. by apply IH.
Qed.

Lemma path_leb_app (a s : string) : path_leb a (a ++ s) = true.
Proof.
  induction a as [|x a IH]; [done|].
  change (path_leb (String x a) (String x (a ++ s)) = true). cbn [path_leb].
  by rewrite Nat.ltb_irrefl, Nat.eqb_refl.
Qed.

#[local] Instance path_le_total : Total path_le.
Proof. intros a b. apply path_leb_total. Qed.

#[local] Instance path_le_trans : Transitive path_le.
Proof. intros a b c. apply path_leb_trans. Qed.

(** A walk meets a file before any file whose name extends its name. *)
Lemma tmp_not_before (p q : string) : path_le (q ++ ".tmp") p -> path_le p q -> False.
Proof.
  unfold path_le. intros H1 H2.
  pose proof (path_leb_trans _ _ _ H1 H2) as H3.
  pose proof (path_leb_antisym _ _ H3 (path_leb_app q ".tmp")) as E.
  by apply (tmp_ne q).
Qed.

Lemma elem_of_walk_files (root p : string) (m : gmap string File) :
  p ∈ walk_files root m <-> under root p = true /\ is_Some (m !! p).
Proof.
  unfold walk_files. rewrite merge_sort_Permutation.
  rewrite list_elem_of_In, filter_In, <- list_elem_of_In, list_elem_of_fmap.
  split.
  - intros [([q f] & -> & Hin) Hu]. apply elem_of_map_to_list in Hin. cbn in *. eauto.
  - intros [Hu [f Hf]]. split; [|done]. exists (p, f). split; [done|].
    by apply elem_of_map_to_list.
Qed.

Lemma walk_files_sorted (root : string) (m : gmap string File) :
  StronglySorted path_le (walk_files root m).
Proof. apply StronglySorted_merge_sort; apply _. Qed.

(** ** What the calls leave of [others] *)

Lemma keeps_ret {A} (a : A) : keeps_others (mret a : M A).
Proof. intros w r w' H. by inversion H. Qed.

Lemma keeps_bind {A B} (c : M A) (f : A -> M B) :
  keeps_others c -> (forall a, keeps_others (f a)) -> keeps_others (c ≫= f).
Proof.
  intros Hc Hf w r w' H. apply bind_inv in H as (a & w1 & H1 & H2).
  apply Hc in H1. apply Hf in H2. congruence.
Qed.

Lemma keeps_next_fault : keeps_others next_fault.
Proof. intros w r w' H. by inversion H. Qed.

Lemma keeps_emit c bad m : keeps_others (emit c bad m).
Proof. intros w r w' H. by inversion H. Qed.

Lemma keeps_get_fs : keeps_others get_fs.
Proof. intros w r w' H. by inversion H. Qed.

Lemma keeps_get_clock : keeps_others get_clock.
Proof. intros w r w' H. by inversion H. Qed.

Lemma keeps_os_Stat p : keeps_others (os_Stat p).
Proof. intros w r w' H. by inversion H. Qed.

Lemma keeps_time_Sleep d : keeps_others (time_Sleep d).
Proof. intros w r w' H. by inversion H. Qed.

Create HintDb keeps.

#[export] Hint Resolve keeps_next_fault keeps_emit keeps_get_fs keeps_get_clock
  keeps_os_Stat keeps_time_Sleep : keeps.

(** Through a computation, bind by bind and branch by branch. *)
Ltac keeps_tac :=
  repeat first
    [ apply keeps_ret
    | solve [auto with keeps]
    | apply keeps_bind; [|intros ?]
    | match goal with
      | |- keeps_others (match ?x with _ => _ end) => destruct x
      end ].

Lemma keeps_os_Open p : keeps_others (os_Open p).
Proof. unfold os_Open. keeps_tac. Qed.

Lemma keeps_os_Create p : keeps_others (os_Create p).
Proof. unfold os_Create. keeps_tac. Qed.

Lemma keeps_os_Write p c : keeps_others (os_Write p c).
Proof. unfold os_Write. keeps_tac. Qed.

Lemma keeps_file_Close p : keeps_others (file_Close p).
Proof. unfold file_Close. keeps_tac. Qed.

Lemma keeps_os_Chtimes p t : keeps_others (os_Chtimes p t).
Proof. unfold os_Chtimes. keeps_tac. Qed.

Lemma keeps_os_Rename a b : keeps_others (os_Rename a b).
Proof. unfold os_Rename. keeps_tac. Qed.

Lemma keeps_os_Remove p : keeps_others (os_Remove p).
Proof. unfold os_Remove. keeps_tac. Qed.

Lemma keeps_os_MkdirAll p : keeps_others (os_MkdirAll p).
Proof. unfold os_MkdirAll. keeps_tac. Qed.

Lemma keeps_log_msg msg : keeps_others (log_msg msg).
Proof. unfold log_msg. keeps_tac. Qed.

Lemma keeps_WalkDir root : keeps_others (WalkDir root).
Proof. unfold WalkDir. keeps_tac. Qed.

#[export] Hint Resolve keeps_os_Open keeps_os_Create keeps_os_Write keeps_file_Close
  keeps_os_Chtimes keeps_os_Rename keeps_os_Remove keeps_os_MkdirAll keeps_log_msg
  keeps_WalkDir : keeps.

Lemma keeps_write_chunks p cs : keeps_others (write_chunks p cs).
Proof. induction cs as [|c cs IH]; cbn; keeps_tac. Qed.

#[export] Hint Resolve keeps_write_chunks : keeps.

Lemma keeps_io_CopyBuffer dst src : keeps_others (io_CopyBuffer dst src).
Proof. unfold io_CopyBuffer. keeps_tac. Qed.

#[export] Hint Resolve keeps_io_CopyBuffer : keeps.

Lemma keeps_copyAtomic src dst : keeps_others (copyAtomic src dst).
Proof. unfold copyAtomic. keeps_tac. Qed.

#[export] Hint Resolve keeps_copyAtomic : keeps.

Lemma keeps_walk_with f l res :
  (forall p r, keeps_others (f p r)) -> keeps_others (walk_with f l res).
Proof.
  intros Hf. revert res. induction l as [|p l IH]; intros res; cbn; keeps_tac.
Qed.

Section KeepsCopier.

Variable windows : bool.
Variable PathMatch : string -> string -> bool.
Variable sha256 : string -> string.

Lemma keeps_run_hooks_from i hooks rel :
  keeps_others (run_hooks_from windows PathMatch i hooks rel).
Proof. revert i. induction hooks as [|h hooks IH]; intros i; cbn; keeps_tac. Qed.

Lemma keeps_calculateFileHash p : keeps_others (calculateFileHash sha256 p).
Proof. unfold calculateFileHash. keeps_tac. Qed.

Hint Resolve keeps_run_hooks_from keeps_calculateFileHash : keeps.

Lemma keeps_isFileChanged src pair rel : keeps_others (isFileChanged sha256 src pair rel).
Proof. unfold isFileChanged, filesAreDifferent, compareByHash. keeps_tac. Qed.

Lemma keeps_copyFile src pair rel : keeps_others (copyFile src pair rel).
Proof. unfold copyFile. keeps_tac. Qed.

Hint Resolve keeps_isFileChanged keeps_copyFile : keeps.

Lemma keeps_syncEntry pair path res :
  keeps_others (syncEntry windows PathMatch sha256 pair path res).
Proof. unfold syncEntry, RunHooks. keeps_tac. Qed.

Lemma keeps_mirrorEntry pair path res : keeps_others (mirrorEntry pair path res).
Proof. unfold mirrorEntry. keeps_tac. Qed.

End KeepsCopier.

(** ** The copier *)

Ltac unfold_isFileChanged_in H := unfold isFileChanged in H.
Ltac unfold_syncEntry_in H := unfold syncEntry in H.
Ltac unfold_CompareAndSync_in H := unfold CompareAndSync in H.

Section CopierProps.

Variable windows : bool.
Variable PathMatch : string -> string -> bool.
Variable sha256 : string -> string.

Local Abbreviation shouldSyncFile := (shouldSyncFile windows PathMatch).
Local Abbreviation syncEntry := (syncEntry windows PathMatch sha256).
Local Abbreviation isFileChanged := (isFileChanged sha256).
Local Abbreviation RunHooks := (RunHooks windows PathMatch).
Local Abbreviation CompareAndSync := (CompareAndSync windows PathMatch sha256).

Lemma calculateFileHash_fs p w r w' :
  calculateFileHash sha256 p w = (r, w') -> fs w' = fs w.
Proof.
  intros H. unfold calculateFileHash in H.
  bind_step H e w1 H1. apply (os_Open_spec []) in H1 as (_ & F1 & _).
  destruct e; [by ret_inv H|].
  unfold mbind, M_bind, next_fault, get_fs in H. cbn in H.
  destruct (hd NoFault (faults w1)); ret_inv H; done.
Qed.

Lemma compareByHash_fs a b w r w' :
  compareByHash sha256 a b w = (r, w') -> fs w' = fs w.
Proof.
  intros H. unfold compareByHash in H.
  bind_step H r1 w1 H1. destruct r1 as [h1 e1]. apply calculateFileHash_fs in H1.
  destruct e1; [ret_inv H; done|].
  bind_step H r2 w2 H2. destruct r2 as [h2 e2]. apply calculateFileHash_fs in H2.
  destruct e2; ret_inv H; congruence.
Qed.

Lemma stat_of_NotExist w p :
  stat_of w p = StatNotExist <-> fs w !! p = None /\ others w !! p = None.
Proof.
  unfold stat_of. destruct (fs w !! p); [naive_solver|].
  destruct (others w !! p) as [[d|]|]; naive_solver.
Qed.

Lemma stat_of_met w p :
  stat_of w p <> StatNotExist <-> is_Some (fs w !! p) \/ is_Some (others w !! p).
Proof.
  rewrite stat_of_NotExist. destruct (fs w !! p), (others w !! p); split;
    try naive_solver; intros [[? [=]]|[? [=]]].
Qed.

(** A file that is judged unchanged has something at its target path: a
    file, or a directory whose size and time pass for those of a copy. *)
Lemma isFileChanged_spec src pair rel w changed err w' :
  isFileChanged src pair rel w = ((changed, err), w') ->
  fs w' = fs w
  /\ (err = None -> changed = false ->
      is_Some (fs w !! Join (Target pair) rel) \/ dir_at w (Join (Target pair) rel)).
Proof.
  intros H. unfold_isFileChanged_in H.
  bind_step H si w1 H1. apply os_Stat_spec in H1 as (-> & ->).
  destruct (stat_of w src) as [sinfo|sinfo| |]; try (by ret_inv H).
  all: bind_step H ti w2 H2; apply os_Stat_spec in H2 as (-> & ->);
    unfold stat_of in H;
    destruct (fs w !! Join (Target pair) rel) as [tinfo|];
      [|destruct (others w !! Join (Target pair) rel) as [[d|]|] eqn:Eo;
        try (by ret_inv H)];
    (split; [|unfold dir_at; eauto]); unfold filesAreDifferent in H;
    (destruct (String.eqb _ _); [by eapply compareByHash_fs|by ret_inv H]).
Qed.

Lemma run_hooks_from_fs i hooks rel w r w' :
  run_hooks_from windows PathMatch i hooks rel w = (r, w') -> fs w' = fs w.
Proof.
  revert i w. induction hooks as [|h hooks IH]; intros i w H; cbn in H.
  - by ret_inv H.
  - bind_step H u w1 H1. apply IH in H. rewrite H.
    destruct (shouldTriggerHook _ _ _ _); [|by ret_inv H1].
    unfold mbind, M_bind, get_fs, emit in H1. by inversion H1.
Qed.

Lemma copyFile_spec src pair rel w n w' :
  copyFile src pair rel w = ((n, None), w') ->
  let dst := Join (Target pair) rel in
  (forall q, q <> dst -> q <> dst ++ ".tmp" -> fs w' !! q = fs w !! q)
  /\ is_Some (fs w' !! dst) /\ fs w' !! (dst ++ ".tmp") = None.
Proof.
  intros H dst. unfold copyFile in H. fold dst in H.
  bind_step H e w1 H1. apply (os_MkdirAll_spec []) in H1 as (_ & F1).
  destruct e; [by ret_inv H|].
  apply copyAtomic_spec in H as (T & _ & Hd & Ht & _). rewrite <- F1.
  split; [|done]. intros q Hq1 Hq2. eapply touches_only_frame; [exact T|]. set_solver.
Qed.

Lemma entry_effect_refl dst taken m : entry_effect dst false taken m m.
Proof. unfold entry_effect. naive_solver. Qed.

Lemma syncEntry_spec pair path rel res w res' w' :
  Rel (Source pair) path = Some rel ->
  syncEntry pair path res w = ((res', None), w') ->
  entry_effect (Join (Target pair) rel) (shouldSyncFile pair path rel)
    (dir_at w (Join (Target pair) rel)) (fs w) (fs w').
Proof.
  intros Hrel H. unfold_syncEntry_in H. rewrite Hrel in H.
  fold (shouldSyncFile pair path rel) in H.
  destruct (shouldSyncFile pair path rel) eqn:Hwant; cbn [negb] in H.
  2: { ret_inv H. apply entry_effect_refl. }
  bind_step H r1 w1 H1. destruct r1 as [changed e1].
  apply isFileChanged_spec in H1 as (F1 & Hex).
  destruct e1; [by ret_inv H|]. specialize (Hex eq_refl).
  destruct changed; cbn [negb] in H.
  2: { ret_inv H. rewrite F1. specialize (Hex eq_refl).
       unfold entry_effect. naive_solver. }
  bind_step H r2 w2 H2. destruct r2 as [bytes e2].
  destruct e2; [by ret_inv H|].
  apply copyFile_spec in H2 as (Hframe & Hd & Ht).
  bind_step H u3 w3 H3. apply (log_msg_spec []) in H3 as (_ & F3).
  bind_step H u4 w4 H4. apply run_hooks_from_fs in H4. ret_inv H.
  rewrite H4, F3. rewrite F1 in Hframe.
  unfold entry_effect. rewrite Ht. split; [done|]. split; [by intros [? ?]|]. naive_solver.
Qed.

Lemma path_le_refl (p : string) : path_le p p.
Proof. by destruct (path_leb_total p p). Qed.

Lemma sync_walk_spec pair l res w res' w' :
  StronglySorted path_le l ->
  Forall (fun p => under (Source pair) p = true) l ->
  walk_with (syncEntry pair) l res w = ((res', None), w') ->
  (forall q, under (Target pair) q = false -> fs w' !! q = fs w !! q)
  /\ (forall rel, Join (Source pair) rel ∈ l ->
        shouldSyncFile pair (Join (Source pair) rel) rel = true ->
        is_Some (fs w' !! Join (Target pair) rel) \/ dir_at w (Join (Target pair) rel))
  /\ (forall q, is_Some (fs w !! q) ->
        (forall rel, Join (Source pair) rel ∈ l -> q <> Join (Target pair) rel ++ ".tmp") ->
        is_Some (fs w' !! q))
  /\ (forall rel, is_Some (fs w' !! Join (Target pair) rel) ->
        is_Some (fs w !! Join (Target pair) rel)
        \/ (Join (Source pair) rel ∈ l
            /\ shouldSyncFile pair (Join (Source pair) rel) rel = true)).
Proof.
  revert res w. induction l as [|p l IH]; intros res w Hsorted Hunder H; cbn in H.
  { ret_inv H. repeat split; try done.
    - intros rel Hin. by apply elem_of_nil in Hin.
    - intros rel Hs. by left. }
  apply StronglySorted_inv in Hsorted as [Hsorted Hle].
  apply Forall_cons in Hunder as [Hp Hunder].
  apply under_inv in Hp as (relp & Hrelp & ->).
  bind_step H r1 w1 H1. destruct r1 as [res1 e1].
  destruct e1; [by ret_inv H|].
  pose proof (keeps_syncEntry _ _ _ _ _ _ _ _ _ H1) as Ho.
  apply (syncEntry_spec _ _ _ _ _ _ _ Hrelp) in H1 as (EA & EB & EC & ED & EE).
  specialize (IH res1 w1 Hsorted Hunder H) as (I1 & I2 & I3 & I4).
  unfold dir_at in I2. rewrite Ho in I2. fold (dir_at w) in I2.
  set (dstp := Join (Target pair) relp) in *.
  assert (Hdst_under : under (Target pair) dstp = true) by apply under_Join.
  assert (Htmp_under : under (Target pair) (dstp ++ ".tmp") = true).
  { subst dstp. rewrite <- Join_tmp. apply under_Join. }
  assert (Hlater : forall rel, Join (Source pair) rel ∈ l ->
                     dstp <> Join (Target pair) rel ++ ".tmp").
  { intros rel Hin E. subst dstp. rewrite <- Join_tmp in E. apply Join_inj in E. subst relp.
    rewrite Forall_forall in Hle. specialize (Hle _ Hin).
    rewrite Join_tmp in Hle.
    eapply tmp_not_before; [exact Hle|apply path_le_refl]. }
  repeat split.
  - intros q Hq. rewrite I1 by done. apply EA; intros ->; congruence.
  - intros rel Hin Hwant. apply elem_of_cons in Hin as [E|Hin]; [|by apply I2].
    apply Join_inj in E. subst rel. destruct (ED Hwant) as [Hs|Hd]; [|by right].
    left. by apply I3.
  - intros q Hq Hno. apply I3.
    + destruct (decide (q = dstp)) as [->|Hne]; [by apply EC|].
      rewrite EA; [done|done|]. apply Hno. apply list_elem_of_here.
    + intros rel Hin. apply Hno. by apply list_elem_of_further.
  - intros rel Hs. apply I4 in Hs as [Hs|[Hin Hwant]].
    2: { right. split; [by apply list_elem_of_further|done]. }
    destruct (decide (Join (Target pair) rel = dstp)) as [E|Hne].
    + rewrite E in Hs. apply EE in Hs as [Hs|Hwant]; [left; by rewrite E|].
      right. apply Join_inj in E. subst rel. split; [apply list_elem_of_here|done].
    + left. destruct (decide (Join (Target pair) rel = dstp ++ ".tmp")) as [E|Hne2].
      * rewrite E in *. by apply EB.
      * by rewrite <- EA.
Qed.

(** The mirror step removes a target file when [os.Stat] reports that
    nothing is at its source path, and in no other case. *)
Lemma mirrorEntry_spec pair path rel res w res' w' :
  Rel (Target pair) path = Some rel ->
  mirrorEntry pair path res w = ((res', None), w') ->
  (fs w !! Join (Source pair) rel = None /\ others w !! Join (Source pair) rel = None
   /\ fs w' = delete path (fs w))
  \/ ((is_Some (fs w !! Join (Source pair) rel)
       \/ is_Some (others w !! Join (Source pair) rel)) /\ fs w' = fs w).
Proof.
  intros Hrel H. unfold mirrorEntry in H. rewrite Hrel in H.
  bind_step H si w1 H1. apply os_Stat_spec in H1 as (-> & ->).
  destruct (stat_of w (Join (Source pair) rel)) eqn:Es.
  1-2,4: ret_inv H; right; split; [|done]; apply stat_of_met; congruence.
  apply stat_of_NotExist in Es as [Ef Eo].
  bind_step H e w2 H2. apply os_Remove_spec in H2 as (_ & R).
  destruct e as [e|].
  - bind_step H u w3 H3. by ret_inv H.
  - destruct R as (_ & F2). bind_step H u w3 H3.
    apply (log_msg_spec []) in H3 as (_ & F3). ret_inv H. left.
    split; [done|]. split; [done|congruence].
Qed.

Lemma mirror_walk_spec pair l res w res' w' :
  roots_apart (Source pair) (Target pair) = true ->
  Forall (fun p => under (Target pair) p = true) l ->
  walk_with (mirrorEntry pair) l res w = ((res', None), w') ->
  (forall q, fs w !! q = None -> fs w' !! q = None)
  /\ (forall q rel, q ∈ l -> Rel (Target pair) q = Some rel ->
        fs w !! Join (Source pair) rel = None ->
        others w !! Join (Source pair) rel = None -> fs w' !! q = None)
  /\ (forall q, q ∉ l -> fs w' !! q = fs w !! q)
  /\ (forall q rel, Rel (Target pair) q = Some rel ->
        is_Some (fs w !! Join (Source pair) rel)
        \/ is_Some (others w !! Join (Source pair) rel) ->
        fs w' !! q = fs w !! q).
Proof.
  intros Hapart. revert res w. induction l as [|p l IH]; intros res w Hunder H; cbn in H.
  { ret_inv H. repeat split; try done. intros q rel Hin. by apply elem_of_nil in Hin. }
  apply Forall_cons in Hunder as [Hp Hunder].
  pose proof Hp as Hp'. apply under_inv in Hp' as (relp & Hrelp & Ep).
  bind_step H r1 w1 H1. destruct r1 as [res1 e1].
  destruct e1; [by ret_inv H|].
  pose proof (keeps_mirrorEntry _ _ _ _ _ _ H1) as Ho.
  apply (mirrorEntry_spec _ _ _ _ _ _ _ Hrelp) in H1.
  specialize (IH res1 w1 Hunder H) as (I1 & I2 & I3 & I4).
  rewrite Ho in I2, I4.
  assert (Hsrc : forall rel, fs w1 !! Join (Source pair) rel = fs w !! Join (Source pair) rel).
  { intros rel. destruct H1 as [(_ & _ & ->)|[_ ->]]; [|done].
    apply lookup_delete_ne. intros E. rewrite E in Hp.
    eapply roots_apart_disjoint; [exact Hapart|apply under_Join|exact Hp]. }
  assert (Hmono : forall q, fs w !! q = None -> fs w1 !! q = None).
  { intros q Hq. destruct H1 as [(_ & _ & ->)|[_ ->]]; [|done].
    rewrite lookup_delete. by case_decide. }
  repeat split.
  - intros q Hq. by apply I1, Hmono.
  - intros q rel Hin Hrel Hnone Hnone'. apply elem_of_cons in Hin as [->|Hin].
    + apply I1. assert (rel = relp) by congruence. subst rel.
      destruct H1 as [(_ & _ & ->)|[[[? Hs]|[? Hs]] _]];
        [apply lookup_delete_eq|congruence|congruence].
    + eapply I2; [done|done| |done]. by rewrite Hsrc.
  - intros q Hq. apply not_elem_of_cons in Hq as [Hne Hq]. rewrite I3 by done.
    destruct H1 as [(_ & _ & ->)|[_ ->]]; [|done]. by apply lookup_delete_ne.
  - intros q rel Hrel Hs. rewrite (I4 q rel) by (done || by rewrite Hsrc).
    destruct H1 as [(Hnone & Hnone' & ->)|[_ ->]]; [|done].
    apply lookup_delete_ne. intros ->.
    assert (rel = relp) by congruence. subst rel. rewrite Hnone, Hnone' in Hs.
    by destruct Hs as [[? [=]]|[? [=]]].
Qed.

Lemma WalkDir_spec root w paths w' :
  WalkDir root w = ((paths, None), w') -> fs w' = fs w /\ paths = walk_files root (fs w).
Proof.
  intros H. unfold WalkDir in H. run_prim H. done.
Qed.

(** What a completed run of [performSync] with mirror deletion leaves. *)
Lemma performSync_mirror pair w res w' :
  MirrorDeletes pair = true ->
  roots_apart (Source pair) (Target pair) = true ->
  performSync windows PathMatch sha256 pair w = ((res, None), w') ->
  forall rel,
    fs w' !! Join (Source pair) rel = fs w !! Join (Source pair) rel
    /\ (is_Some (fs w !! Join (Source pair) rel) ->
        shouldSyncFile pair (Join (Source pair) rel) rel = true ->
        is_Some (fs w' !! Join (Target pair) rel) \/ dir_at w (Join (Target pair) rel))
    /\ (is_Some (fs w' !! Join (Target pair) rel) ->
        is_Some (fs w !! Join (Source pair) rel)
        \/ is_Some (others w !! Join (Source pair) rel))
    /\ (is_Some (fs w' !! Join (Target pair) rel) ->
        shouldSyncFile pair (Join (Source pair) rel) rel = true
        \/ is_Some (fs w !! Join (Target pair) rel)).
Proof.
  intros Hmirror Hapart H rel. unfold performSync in H.
  bind_step H e0 w0 H0. pose proof (keeps_os_MkdirAll _ _ _ _ H0) as O0.
  apply (os_MkdirAll_spec []) in H0 as (_ & F0).
  destruct e0; [by ret_inv H|].
  bind_step H r1 w1 H1. destruct r1 as [res1 e1].
  destruct e1; [by ret_inv H|]. rewrite Hmirror in H.
  unfold syncSourceToTarget in H1.
  bind_step H1 rw ws Hws. destruct rw as [l1 ew].
  destruct ew; [by ret_inv H1|]. pose proof (keeps_WalkDir _ _ _ _ Hws) as Os.
  apply WalkDir_spec in Hws as (Fs & ->).
  pose proof (keeps_walk_with _ _ _ (keeps_syncEntry windows PathMatch sha256 pair)
                _ _ _ H1) as O1.
  apply sync_walk_spec in H1 as (S1 & S2 & S3 & S4).
  2: apply walk_files_sorted.
  2: { apply Forall_forall. intros p Hin. by apply elem_of_walk_files in Hin as [? _]. }
  unfold mirrorDeletions in H.
  bind_step H rw wt Hwt. destruct rw as [l2 ew].
  destruct ew; [by ret_inv H|]. pose proof (keeps_WalkDir _ _ _ _ Hwt) as Ot.
  apply WalkDir_spec in Hwt as (Ft & ->).
  apply mirror_walk_spec in H as (M1 & M2 & M3 & M4); [|done|].
  2: { apply Forall_forall. intros p Hin. by apply elem_of_walk_files in Hin as [? _]. }
  assert (Oall : others wt = others w) by congruence.
  assert (Osync : others ws = others w) by congruence.
  unfold dir_at in S2. rewrite Osync in S2. fold (dir_at w) in S2.
  rewrite Oall in M2, M4.
  rewrite Ft in *. rewrite Fs, F0 in *.
  assert (Hnot : forall r, under (Target pair) (Join (Source pair) r) = false).
  { intros r. destruct (under (Target pair) (Join (Source pair) r)) eqn:E; [|done].
    exfalso. eapply roots_apart_disjoint; [exact Hapart|apply under_Join|exact E]. }
  assert (Hsrc1 : forall r, fs w1 !! Join (Source pair) r = fs w !! Join (Source pair) r).
  { intros r. by apply S1. }
  repeat split.
  - rewrite M3; [apply Hsrc1|]. intros Hin. apply elem_of_walk_files in Hin as [Hu _].
    by rewrite Hnot in Hu.
  - intros Hs Hwant.
    rewrite (M4 _ rel); [| apply Rel_Join | left; by rewrite Hsrc1].
    apply S2; [|done]. apply elem_of_walk_files. split; [apply under_Join|done].
  - intros Ht. destruct (fs w !! Join (Source pair) rel) as [f|] eqn:Es; [eauto|].
    destruct (others w !! Join (Source pair) rel) as [o|] eqn:Eo; [eauto|].
    exfalso. assert (Hin1 : is_Some (fs w1 !! Join (Target pair) rel)).
    { destruct (fs w1 !! Join (Target pair) rel) eqn:E1; [eauto|].
      apply M1 in E1. rewrite E1 in Ht. by destruct Ht. }
    rewrite (M2 _ rel) in Ht; [by destruct Ht| |apply Rel_Join|by rewrite Hsrc1|done].
    apply elem_of_walk_files. split; [apply under_Join|done].
  - intros Ht. assert (Hin1 : is_Some (fs w1 !! Join (Target pair) rel)).
    { destruct (fs w1 !! Join (Target pair) rel) eqn:E1; [eauto|].
      apply M1 in E1. rewrite E1 in Ht. by destruct Ht. }
    apply S4 in Hin1 as [Hin1|[_ Hwant]]; [by right|by left].
Qed.


End CopierProps.

(** ** The watcher's retry loop and the clock *)

Ltac clock_prim H := run_prim H; reflexivity.

Lemma os_Open_clock p w r w' : os_Open p w = (r, w') -> clock w' = clock w.
Proof. intros H. unfold os_Open in H. clock_prim H. Qed.

Lemma os_Create_clock p w r w' : os_Create p w = (r, w') -> clock w' = clock w.
Proof. intros H. unfold os_Create in H. clock_prim H. Qed.

Lemma os_Write_clock p c w r w' : os_Write p c w = (r, w') -> clock w' = clock w.
Proof. intros H. unfold os_Write in H. clock_prim H. Qed.

Lemma write_chunks_clock p cs w r w' : write_chunks p cs w = (r, w') -> clock w' = clock w.
Proof.
  revert w. induction cs as [|c cs IH]; intros w H; cbn in H; [by ret_inv H|].
  bind_step H u w1 H1. apply os_Write_clock in H1. apply IH in H. congruence.
Qed.

Lemma io_CopyBuffer_clock dst src w r w' :
  io_CopyBuffer dst src w = (r, w') -> clock w' = clock w.
Proof.
  intros H. unfold io_CopyBuffer in H.
  bind_step H f w1 H1. bind_step H m w2 H2.
  unfold next_fault in H1. unfold get_fs in H2. inversion H1; inversion H2; subst.
  destruct (hd NoFault (faults w));
    bind_step H a w3 H3; apply write_chunks_clock in H3; ret_inv H; done.
Qed.

Lemma file_Close_clock p w r w' : file_Close p w = (r, w') -> clock w' = clock w.
Proof. intros H. unfold file_Close in H. clock_prim H. Qed.

Lemma os_Chtimes_clock p t w r w' : os_Chtimes p t w = (r, w') -> clock w' = clock w.
Proof. intros H. unfold os_Chtimes in H. clock_prim H. Qed.

Lemma os_Rename_clock a b w r w' : os_Rename a b w = (r, w') -> clock w' = clock w.
Proof. intros H. unfold os_Rename in H. clock_prim H. Qed.

Lemma os_Remove_clock p w r w' : os_Remove p w = (r, w') -> clock w' = clock w.
Proof. intros H. unfold os_Remove in H. clock_prim H. Qed.

Lemma os_MkdirAll_clock p w r w' : os_MkdirAll p w = (r, w') -> clock w' = clock w.
Proof. intros H. unfold os_MkdirAll in H. clock_prim H. Qed.

Lemma log_msg_clock msg w r w' : log_msg msg w = (r, w') -> clock w' = clock w.
Proof. intros H. unfold log_msg in H. clock_prim H. Qed.

(** [copyAtomic] never sleeps. *)
Lemma copyAtomic_clock src dst w r w' : copyAtomic src dst w = (r, w') -> clock w' = clock w.
Proof.
  intros H. unfold copyAtomic in H.
  bind_step H e1 w1 H1. apply os_Open_clock in H1.
  destruct e1; [ret_inv H; done|].
  bind_step H e2 w2 H2. apply os_Create_clock in H2.
  destruct e2; [ret_inv H; congruence|].
  bind_step H r3 w3 H3. destruct r3 as [b ce]. apply io_CopyBuffer_clock in H3.
  bind_step H e4 w4 H4. apply file_Close_clock in H4.
  destruct (match ce with Some _ => ce | None => e4 end).
  { bind_step H r5 w5 H5. apply os_Remove_clock in H5. ret_inv H. congruence. }
  bind_step H info w5 H5. apply os_Stat_spec in H5 as (-> & _).
  bind_step H u6 w6 H6.
  assert (C6 : clock w6 = clock w4).
  { destruct (stat_info info); [|by ret_inv H6].
    bind_step H6 r7 w7 H7. apply os_Chtimes_clock in H7. ret_inv H6. done. }
  bind_step H e7 w7 H7. apply os_Rename_clock in H7.
  destruct e7; [|ret_inv H; congruence].
  bind_step H r8 w8 H8. apply os_Remove_clock in H8. ret_inv H. congruence.
Qed.

(** The loop sleeps after a failed first attempt and after a failed second
    attempt, and at no other point: in all it sleeps 0, 100 or 400 ms. *)
Lemma retry_loop_clock src dst w r w' :
  retry_loop (length retryDelays) 0 retryDelays src dst None w = (r, w') ->
  clock w' - clock w = 0
  \/ clock w' - clock w = FirstRetryDelay
  \/ (clock w' - clock w = FirstRetryDelay + SecondRetryDelay).
Proof.
  intros H. cbn [retry_loop retryDelays length] in H.
  bind_step H r1 w1 H1. destruct r1 as [n1 e1]. apply copyAtomic_clock in H1.
  destruct e1; [|ret_inv H; left; lia].
  bind_step H u1 w1' S1. cbn in S1. apply (time_Sleep_spec []) in S1 as (_ & _ & C1).
  bind_step H r2 w2 H2. destruct r2 as [n2 e2]. apply copyAtomic_clock in H2.
  destruct e2; [|ret_inv H; right; left; lia].
  bind_step H u2 w2' S2. cbn in S2. apply (time_Sleep_spec []) in S2 as (_ & _ & C2).
  bind_step H r3 w3 H3. destruct r3 as [n3 e3]. apply copyAtomic_clock in H3.
  destruct e3; [|ret_inv H; right; right; lia].
  bind_step H u3 w3' S3. cbn in S3. ret_inv S3. ret_inv H. right. right. lia.
Qed.

Section WatcherProps.

Variable windows : bool.
Variable PathMatch : string -> string -> bool.

Lemma run_hooks_from_clock i hooks rel w r w' :
  run_hooks_from windows PathMatch i hooks rel w = (r, w') -> clock w' = clock w.
Proof.
  revert i w. induction hooks as [|h hooks IH]; intros i w H; cbn in H.
  - by ret_inv H.
  - bind_step H u w1 H1. apply IH in H. rewrite H.
    destruct (shouldTriggerHook _ _ _ _); [|by ret_inv H1].
    unfold mbind, M_bind, get_fs, emit in H1. by inversion H1.
Qed.

(** Whatever the files and the faults, one call of [handleFileModification]
    sleeps 0, 100 or 400 ms in all: the 600 ms of [ThirdRetryDelay] are never
    slept, and the total never reaches the 1000 ms of three retries. *)
Lemma handleFileModification_sleeps_at_most_400ms pair src rel w :
  let w' := snd (handleFileModification windows PathMatch pair src rel w) in
  clock w' - clock w = 0
  \/ clock w' - clock w = 100 * millisecond
  \/ clock w' - clock w = 400 * millisecond.
Proof.
  cbn zeta.
  destruct (handleFileModification windows PathMatch pair src rel w) as [u w'] eqn:H.
  cbn [snd]. unfold handleFileModification in H.
  bind_step H info w1 H1. apply os_Stat_spec in H1 as (-> & _).
  destruct info as [info|info| |].
  2: { ret_inv H. left. lia. }
  - destruct (negb _); [ret_inv H; left; lia|].
    bind_step H e w2 H2. apply os_MkdirAll_clock in H2.
    destruct e; [ret_inv H; left; lia|].
    bind_step H ce w3 H3. apply retry_loop_clock in H3.
    assert (C : clock w' = clock w3).
    { destruct ce.
      - by apply log_msg_clock in H.
      - bind_step H u4 w4 H4. apply log_msg_clock in H4.
        apply run_hooks_from_clock in H. congruence. }
    rewrite C, <- H2.
    unfold FirstRetryDelay, SecondRetryDelay in H3. lia.
  - destruct (MirrorDeletes pair); [|ret_inv H; left; lia].
    bind_step H u2 w2 H2. apply (time_Sleep_spec []) in H2 as (_ & _ & C2).
    bind_step H again w3 H3. apply os_Stat_spec in H3 as (-> & _).
    assert (C : clock w' = clock w2).
    { destruct again; try (by ret_inv H).
      bind_step H e4 w4 H4. apply os_Remove_clock in H4. ret_inv H. done. }
    right. left. rewrite C, C2. unfold MirrorDeleteDelay. lia.
  - destruct (MirrorDeletes pair); [|ret_inv H; left; lia].
    bind_step H u2 w2 H2. apply (time_Sleep_spec []) in H2 as (_ & _ & C2).
    bind_step H again w3 H3. apply os_Stat_spec in H3 as (-> & _).
    assert (C : clock w' = clock w2).
    { destruct again; try (by ret_inv H).
      bind_step H e4 w4 H4. apply os_Remove_clock in H4. ret_inv H. done. }
    right. left. rewrite C, C2. unfold MirrorDeleteDelay. lia.
Qed.

End WatcherProps.

(** * Concrete runs *)

(** ** The watcher's retries *)

(** C7. The target is locked, so every attempt fails at the rename.  The
    watcher makes three copy attempts in all (the first and two retries),
    sleeps 100 ms and 300 ms between them, never sleeps the 600 ms of
    [ThirdRetryDelay], and then logs the failure: there is no fourth attempt
    although the fault stream would let one run. *)
Theorem watcher_copy_gives_up_after_three_attempts :
  let w' := snd (handleFileModification false samplePathMatch photoPair
                   "/src/a.jpg" "a.jpg" lockedWorld) in
  length (opens_of "/src/a.jpg" w') = 3%nat
  /\ sleeps_of w' = [FirstRetryDelay; SecondRetryDelay]
  /\ clock w' - clock lockedWorld = 400 * millisecond
  /\ (call <$> head (trace w')) = Some (SysLog "copy failed after retries")
  /\ fs w' !! "/dst/a.jpg" = fs lockedWorld !! "/dst/a.jpg"
  /\ length (faults w') = 7%nat.
Proof. vm_compute. repeat split; reflexivity. Qed.

(** When the lock goes away after the first attempt, the second one succeeds
    after a single sleep of 100 ms. *)
Example watcher_copy_second_attempt :
  let w := {| fs := fs lockedWorld; others := ∅; faults := NoFault :: lockedAttempt;
              clock := 0; trace := [] |} in
  let w' := snd (handleFileModification false samplePathMatch photoPair
                   "/src/a.jpg" "a.jpg" w) in
  length (opens_of "/src/a.jpg" w') = 2%nat
  /\ sleeps_of w' = [FirstRetryDelay]
  /\ fs w' !! "/dst/a.jpg" = Some {| data := "img"; mtime := 5 |}.
Proof. vm_compute. repeat split; reflexivity. Qed.

(** ** Scheduler and pair manager *)

Lemma executeTask_error_counts_twice_witness :
  (0 <= scheduler.RunCount freshTask < 2 ^ 63 - 1)
  /\ (0 <= scheduler.FailCount freshTask < 2 ^ 63 - 1)
  /\ let t' := scheduler.executeTask 7 (scheduler.ReturnsError "disk full") freshTask in
     scheduler.RunCount t' = scheduler.RunCount freshTask + 1
     /\ scheduler.FailCount t' = scheduler.FailCount freshTask + 1
     /\ scheduler.RunCount t' + scheduler.FailCount t'
        = scheduler.RunCount freshTask + scheduler.FailCount freshTask + 2.
Proof.
  split; [vm_compute; split; [discriminate|reflexivity]|].
  split; [vm_compute; split; [discriminate|reflexivity]|].
  apply (executeTask_error_counts_twice 7 "disk full" freshTask);
    vm_compute; (split; [discriminate|reflexivity]).
Defined.

Example executeTask_error_from_zero :
  let t' := scheduler.executeTask 7 (scheduler.ReturnsError "disk full") freshTask in
  scheduler.RunCount t' = 1 /\ scheduler.FailCount t' = 1
  /\ scheduler.LastError t' = "disk full".
Proof. vm_compute. repeat split; reflexivity. Qed.

Example executeTask_panic_from_zero :
  let t' := scheduler.executeTask 7 (scheduler.Panics "boom") freshTask in
  scheduler.RunCount t' = 0 /\ scheduler.FailCount t' = 1
  /\ scheduler.LastError t' = "panic: boom".
Proof. vm_compute. repeat split; reflexivity. Qed.

Lemma RemoveTask_unregistered_witness :
  scheduler.tasks scheduler.NewScheduler !! "pair-1" = None
  /\ scheduler.RemoveTask scheduler.NewScheduler "pair-1"
     = (scheduler.NewScheduler, Some (scheduler.TaskNotFound "pair-1"))
  /\ scheduler.tasks (fst (scheduler.RemoveTask scheduler.NewScheduler "pair-1"))
     = scheduler.tasks scheduler.NewScheduler.
Proof.
  split; [reflexivity|]. apply RemoveTask_unregistered. reflexivity.
Defined.

(** C6, as stated, fails: removing an id that is not registered returns an
    error. *)
Lemma RemoveTask_unregistered_is_an_error :
  snd (scheduler.RemoveTask scheduler.NewScheduler "pair-1") <> None.
Proof. vm_compute. discriminate. Qed.

Lemma watcher_iff_watcher_schedule_witness :
  snd (run_calls sampleParseDuration sampleParseClock sampleCronParse 0
         NewPairManager sampleCalls) = true
  /\ forall id,
       WatcherActive (fst (run_calls sampleParseDuration sampleParseClock sampleCronParse 0
                             NewPairManager sampleCalls)) id = true
       <-> ScheduleTypeOf (fst (run_calls sampleParseDuration sampleParseClock
                                  sampleCronParse 0 NewPairManager sampleCalls)) id
           = Some scheduler.ScheduleTypeWatcher.
Proof.
  split; [vm_compute; reflexivity|].
  apply (watcher_iff_watcher_schedule sampleParseDuration sampleParseClock sampleCronParse
           sampleCalls 0).
  vm_compute. reflexivity.
Defined.

(** C4, as stated, fails: started with its [Enabled] flag off, a watcher-mode
    pair gets a watcher all the same. *)
Lemma disabled_pair_gets_a_watcher :
  let p := samplePair "p1" false scheduler.NewWatcherSchedule in
  let pm := fst (StartPair sampleParseDuration sampleParseClock sampleCronParse 0
                   NewPairManager p) in
  ~ (WatcherActive pm (ID p) = true
     <-> scheduler.SType (Schedule p) = scheduler.ScheduleTypeWatcher /\ Enabled p = true).
Proof.
  cbn zeta. intros [H _].
  assert (Hw : WatcherActive
                 (fst (StartPair sampleParseDuration sampleParseClock sampleCronParse 0
                         NewPairManager (samplePair "p1" false scheduler.NewWatcherSchedule)))
                 "p1" = true) by (vm_compute; reflexivity).
  apply H in Hw as [_ He]. vm_compute in He. discriminate.
Qed.

(** The scheduler's [DisableTask] leaves the watcher of a watcher-mode pair
    running. *)
Example DisableTask_keeps_watcher :
  let pm := fst (run_calls sampleParseDuration sampleParseClock sampleCronParse 0
                   NewPairManager
                   [CallStart (samplePair "p1" true scheduler.NewWatcherSchedule);
                    CallDisableTask "p1"]) in
  WatcherActive pm "p1" = true
  /\ (scheduler.Enabled <$> scheduler.tasks (sched pm) !! "p1") = Some false.
Proof. vm_compute. split; reflexivity. Qed.

(** An update that fails to reschedule leaves the watcher behind although
    the task's schedule is no longer "watcher". *)
Example UpdatePair_failed_reschedule :
  let pm := fst (run_calls sampleParseDuration sampleParseClock sampleCronParse 0
                   NewPairManager
                   [CallStart (samplePair "p1" true scheduler.NewWatcherSchedule);
                    CallUpdate (samplePair "p1" true (scheduler.NewCronSchedule "bad"))]) in
  WatcherActive pm "p1" = true /\ ScheduleTypeOf pm "p1" = Some scheduler.ScheduleTypeCron.
Proof. vm_compute. split; reflexivity. Qed.

(** So does an update whose interval is not positive: "0s" parses, the
    schedule is stored, [time.NewTicker] panics, and the watcher is never
    stopped. *)
Example UpdatePair_panicking_reschedule :
  let r := UpdatePair sampleParseDuration sampleParseClock sampleCronParse 1
             (fst (StartPair sampleParseDuration sampleParseClock sampleCronParse 0
                     NewPairManager (samplePair "p1" true scheduler.NewWatcherSchedule)))
             (samplePair "p1" true (scheduler.NewIntervalSchedule "0s")) in
  r.2 = Some (scheduler.TickerPanic 0)
  /\ WatcherActive r.1 "p1" = true
  /\ ScheduleTypeOf r.1 "p1" = Some scheduler.ScheduleTypeInterval.
Proof. vm_compute. split_and!; reflexivity. Qed.

(** A start with such an interval panics before the task is filed: nothing
    is registered and no watcher runs. *)
Example StartPair_panicking_schedule :
  let r := StartPair sampleParseDuration sampleParseClock sampleCronParse 0
             NewPairManager (samplePair "p1" true (scheduler.NewIntervalSchedule "0s")) in
  r = (NewPairManager, Some (scheduler.TickerPanic 0)).
Proof. vm_compute. reflexivity. Qed.

Lemma StartPair_registered_without_watcher_witness :
  let p := samplePair "p2" true (scheduler.NewIntervalSchedule "1m") in
  let pm := fst (StartPair sampleParseDuration sampleParseClock sampleCronParse 0
                   NewPairManager p) in
  workers pm !! ID p = None
  /\ is_Some (scheduler.tasks (sched pm) !! ID p)
  /\ StartPair sampleParseDuration sampleParseClock sampleCronParse 1 pm p
     = (pm, Some (scheduler.TaskExists (ID p))).
Proof.
  cbn zeta. split; [vm_compute; reflexivity|]. split; [vm_compute; eauto|].
  eapply (StartPair_registered_without_watcher sampleParseDuration sampleParseClock
            sampleCronParse 1); vm_compute; reflexivity.
Defined.

(** Started a second time, an interval pair is refused as a duplicate; a
    watcher pair is restarted. *)
Example StartPair_twice :
  let p2 := samplePair "p2" true (scheduler.NewIntervalSchedule "1m") in
  let p1 := samplePair "p1" true scheduler.NewWatcherSchedule in
  let start := StartPair sampleParseDuration sampleParseClock sampleCronParse in
  snd (start 1 (fst (start 0 NewPairManager p2)) p2) = Some (scheduler.TaskExists "p2")
  /\ snd (start 1 (fst (start 0 NewPairManager p1)) p1) = None.
Proof. vm_compute. split; reflexivity. Qed.

(** ** Filters *)

(** C8, as stated, fails: [MatchesInclude] compares a wildcard entry with the
    file's extension like any other entry. *)
Lemma MatchesInclude_raw_wildcard_rejects :
  MatchesInclude false ["*"] "/src/a.txt" = false
  /\ MatchesInclude false [".*"; ".jpg"] "/src/a.txt" = false.
Proof. split; reflexivity. Qed.

Lemma wildcard_normalizes_to_match_all_witness :
  (exists e, e ∈ ["jpg"; "*"; ".PNG"] /\ (e = "*" \/ e = ".*"))
  /\ normalizeIncludeExtensions ["jpg"; "*"; ".PNG"] = []
  /\ MatchesInclude false (normalizeIncludeExtensions ["jpg"; "*"; ".PNG"]) "/src/a.txt"
     = true.
Proof.
  assert (Hw : exists e, e ∈ ["jpg"; "*"; ".PNG"] /\ (e = "*" \/ e = ".*")).
  { exists "*". split; [|by left]. apply list_elem_of_further, list_elem_of_here. }
  split; [exact Hw|].
  exact (wildcard_normalizes_to_match_all false ["jpg"; "*"; ".PNG"] "/src/a.txt" Hw).
Defined.

Example hook_by_extension_or_glob :
  let hook := {| MatchExtensions := [".jar"]; MatchGlobs := ["conf/app.yml"] |} in
  shouldTriggerHook false samplePathMatch hook "lib/app.JAR" = true
  /\ shouldTriggerHook false samplePathMatch hook "conf/app.yml" = true
  /\ shouldTriggerHook false samplePathMatch hook "readme.md" = false.
Proof. repeat split; reflexivity. Qed.

(** ** The copier *)

Lemma copyAtomic_error_keeps_target_witness :
  let w' := snd (copyAtomic "/src/a.jpg" "/dst/a.jpg" shortWriteWorld) in
  let err := Some (ErrIO "copy" "/dst/a.jpg.tmp") in
  copyAtomic "/src/a.jpg" "/dst/a.jpg" shortWriteWorld = ((2, err), w')
  /\ (err <> None ->
      fs w' !! "/dst/a.jpg" = fs shortWriteWorld !! "/dst/a.jpg"
      /\ (fs w' = fs shortWriteWorld
          \/ fs w' !! ("/dst/a.jpg" ++ ".tmp") = None
          \/ exists ev rest, trace w' = ev :: rest
               /\ call ev = SysRemove ("/dst/a.jpg" ++ ".tmp") /\ failed ev = true))
  /\ (exists new, trace w' = (new ++ trace shortWriteWorld)%list
       /\ Forall (fun ev =>
            after ev !! "/dst/a.jpg" = fs shortWriteWorld !! "/dst/a.jpg"
            \/ (call ev = SysRename ("/dst/a.jpg" ++ ".tmp") "/dst/a.jpg"
                /\ failed ev = false /\ err = None)) new)
  /\ (err = None -> "/src/a.jpg" <> "/dst/a.jpg" ++ ".tmp" ->
      exists f, fs shortWriteWorld !! "/src/a.jpg" = Some f
        /\ data <$> fs w' !! "/dst/a.jpg" = Some (data f)).
Proof.
  cbn zeta. split; [vm_compute; reflexivity|].
  apply (copyAtomic_error_keeps_target "/src/a.jpg" "/dst/a.jpg" shortWriteWorld 2
           (Some (ErrIO "copy" "/dst/a.jpg.tmp"))
           (snd (copyAtomic "/src/a.jpg" "/dst/a.jpg" shortWriteWorld))).
  vm_compute. reflexivity.
Defined.

(** The short write is visible under the temp path, never under the target. *)
Example short_write_goes_to_temp :
  let w' := snd (copyAtomic "/src/a.jpg" "/dst/a.jpg" shortWriteWorld) in
  (fun m => (data <$> m !! "/dst/a.jpg.tmp", data <$> m !! "/dst/a.jpg"))
    <$> states_between shortWriteWorld w'
  = [(None, Some "old"); (Some "", Some "old"); (Some "im", Some "old");
     (Some "im", Some "old"); (None, Some "old")].
Proof. vm_compute. reflexivity. Qed.

(** C2, as stated, fails: the source cannot be opened, [copyAtomic] returns
    the error at once, and the temp file of an earlier run is still there. *)
Lemma copyAtomic_error_leaves_stale_temp :
  let r := copyAtomic "/src/a.jpg" "/dst/a.jpg" staleTempWorld in
  snd (fst r) <> None
  /\ fs (snd r) !! "/dst/a.jpg.tmp" = Some {| data := "im"; mtime := 3 |}.
Proof. vm_compute. split; [discriminate|reflexivity]. Qed.

(** A reader that looks between all the calls of a successful copy sees the
    old file up to the rename and the new file after it. *)
Example reader_sees_old_then_new :
  let w := {| fs := fs shortWriteWorld; others := ∅; faults := []; clock := 0;
              trace := [] |} in
  let w' := snd (copyAtomic "/src/a.jpg" "/dst/a.jpg" w) in
  (map (fun seen : option File => data <$> seen) (interleave
     [ReaderLooks; WriterStep; WriterStep; ReaderLooks; WriterStep; ReaderLooks;
      WriterStep; WriterStep; ReaderLooks; WriterStep; ReaderLooks]
     (fs w) (states_between w w') "/dst/a.jpg"))
  = [Some "old"; Some "old"; Some "old"; Some "old"; Some "img"].
Proof. vm_compute. reflexivity. Qed.


(** The run of the witness: the picture is copied; of the target's files,
    the one without anything at its source path is removed, and those whose
    source path holds a rejected file, a directory or a path that cannot be
    examined stay. *)
Example mirror_keeps_what_stat_finds :
  let r := CompareAndSync false samplePathMatch sampleSha256 photoPair mixedWorld in
  fst r = (1, 3, None)
  /\ dom (fs (snd r))
     = {[ "/src/a.jpg"; "/src/a.txt"; "/src/d/c.txt";
          "/dst/a.jpg"; "/dst/a.txt"; "/dst/d"; "/dst/e" ]}.
Proof. cbn zeta. split; vm_compute; reflexivity. Qed.

(** Why the trees must lie apart: with the source inside the target, the
    mirror step takes the source file for a target file without a source
    and removes it; the run completes, and the source tree is empty. *)
Example mirror_of_nested_roots_removes_source :
  let r := CompareAndSync false samplePathMatch sampleSha256 nestedPair nestedWorld in
  fst r = (1, 2, None)
  /\ fs nestedWorld !! "/t/src/a.txt" = Some {| data := "hi"; mtime := 5 |}
  /\ fs (snd r) = {[ "/t/a.txt" := {| data := "hi"; mtime := 5 |} ]}.
Proof. cbn zeta. split_and!; vm_compute; reflexivity. Qed.


(** A first run copies the file; a second run on the unchanged source copies
    nothing and leaves the target as it is. *)
Example basic_copy_then_nothing :
  let sync := CompareAndSync false samplePathMatch sampleSha256 plainPair in
  let first := sync plainWorld in
  let second := sync (snd first) in
  fst first = (1, 2, None)
  /\ fs (snd first) !! "/dst/a.txt" = Some {| data := "hi"; mtime := 5 |}
  /\ fst second = (0, 0, None)
  /\ fs (snd second) = fs (snd first).
Proof. vm_compute. repeat split; reflexivity. Qed.

(** ** More on the filters *)

(** *** Bytes *)

Lemma lower_ascii_idem (c : ascii) : lower_ascii (lower_ascii c) = lower_ascii c.
Proof. destruct c as [[] [] [] [] [] [] [] []]; reflexivity. Qed.

Lemma is_space_lower (c : ascii) : is_space (lower_ascii c) = is_space c.
Proof. destruct c as [[] [] [] [] [] [] [] []]; reflexivity. Qed.

Lemma IsPathSeparator_lower (windows : bool) (c : ascii) :
  IsPathSeparator windows (lower_ascii c) = IsPathSeparator windows c.
Proof. destruct windows, c as [[] [] [] [] [] [] [] []]; reflexivity. Qed.

Lemma dot_lower (c : ascii) : Ascii.eqb (lower_ascii c) "." = Ascii.eqb c ".".
Proof. destruct c as [[] [] [] [] [] [] [] []]; reflexivity. Qed.

Lemma dot_not_space (c : ascii) : Ascii.eqb c "." = true -> is_space c = false.
Proof. destruct c as [[] [] [] [] [] [] [] []]; done. Qed.

(** *** [ToLower] and [TrimSpace] *)

Lemma ToLower_idem (s : string) : ToLower (ToLower s) = ToLower s.
Proof. induction s as [|c r IH]; cbn; [done|]. by rewrite lower_ascii_idem, IH. Qed.

Lemma ToLower_empty (s : string) : ToLower s = "" -> s = "".
Proof. by destruct s. Qed.

Lemma trim_left_lower (s : string) : trim_left (ToLower s) = ToLower (trim_left s).
Proof.
  induction s as [|c r IH]; cbn; [done|].
  rewrite is_space_lower. by destruct (is_space c).
Qed.

Lemma trim_right_lower (s : string) : trim_right (ToLower s) = ToLower (trim_right s).
Proof.
  induction s as [|c r IH]; cbn; [done|].
  rewrite IH, is_space_lower. destruct (trim_right r); cbn; [|done].
  by destruct (is_space c).
Qed.

Lemma TrimSpace_lower (s : string) : TrimSpace (ToLower s) = ToLower (TrimSpace s).
Proof. unfold TrimSpace. by rewrite trim_left_lower, trim_right_lower. Qed.

Lemma trim_left_no_lead (s : string) : no_lead (trim_left s).
Proof.
  induction s as [|c r IH]; cbn; [done|].
  destruct (is_space c) eqn:E; [done|]. exact E.
Qed.

Lemma trim_left_id (s : string) : no_lead s -> trim_left s = s.
Proof. destruct s as [|c r]; cbn; [done|]. by intros ->. Qed.

Lemma trim_right_no_lead (s : string) : no_lead s -> no_lead (trim_right s).
Proof.
  destruct s as [|c r]; cbn; [done|]. intros H.
  destruct (trim_right r); [by rewrite H|done].
Qed.

Lemma trim_right_idem (s : string) : trim_right (trim_right s) = trim_right s.
Proof.
  induction s as [|c r IH]; cbn; [done|].
  destruct (trim_right r) as [|d r'] eqn:E.
  - destruct (is_space c) eqn:Ec; cbn; [done|]. by rewrite Ec.
  - cbn [trim_right]. fold trim_right. cbn [trim_right] in IH. fold trim_right in IH.
    by rewrite IH.
Qed.

Lemma TrimSpace_idem (s : string) : TrimSpace (TrimSpace s) = TrimSpace s.
Proof.
  unfold TrimSpace.
  rewrite (trim_left_id (trim_right (trim_left s))).
  - apply trim_right_idem.
  - apply trim_right_no_lead, trim_left_no_lead.
Qed.

Lemma HasPrefix_dot (s : string) :
  HasPrefix s "." = true <-> exists r, s = String "." r.
Proof.
  unfold HasPrefix. destruct s as [|c r].
  - split; [done|]. by intros (r & ?).
  - change (String.prefix "." (String c r))
      with (if ascii_dec "." c then String.prefix "" r else false).
    destruct (ascii_dec "." c) as [<-|Hne].
    + split; [eauto|]. intros _. by destruct r.
    + split; [done|]. intros (r' & [= Hc _]). by subst.
Qed.

(** A cleaned entry: trimmed and in lower case. *)
Lemma clean_fixed (s : string) :
  let c := TrimSpace (ToLower s) in TrimSpace c = c /\ ToLower c = c.
Proof.
  cbn zeta. split; [apply TrimSpace_idem|].
  by rewrite TrimSpace_lower, !ToLower_idem.
Qed.

Lemma clean_fixed' (s : string) :
  let c := ToLower (TrimSpace s) in TrimSpace c = c /\ ToLower c = c.
Proof. cbn zeta. rewrite <- TrimSpace_lower. apply clean_fixed. Qed.

Lemma with_dot_prefix (s : string) : HasPrefix (with_dot s) "." = true.
Proof.
  unfold with_dot. destruct (HasPrefix s ".") eqn:E; [done|].
  apply HasPrefix_dot. by exists s.
Qed.

Lemma TrimSpace_trim_right (s : string) : TrimSpace s = s -> trim_right s = s.
Proof. intros H. rewrite <- H at 1. unfold TrimSpace. rewrite trim_right_idem. exact H. Qed.

Lemma with_dot_clean (c : string) :
  TrimSpace c = c -> ToLower c = c ->
  TrimSpace (with_dot c) = with_dot c /\ ToLower (with_dot c) = with_dot c.
Proof.
  intros Ht Hl. unfold with_dot. destruct (HasPrefix c "."); [done|].
  split.
  - unfold TrimSpace. change ("." ++ c) with (String "." c).
    change (trim_left (String "." c)) with (String "." c).
    change (trim_right (String "." c))
      with (match trim_right c with
            | EmptyString => String "." EmptyString
            | r' => String "." r'
            end).
    rewrite (TrimSpace_trim_right _ Ht). by destruct c.
  - change ("." ++ c) with (String "." c). cbn. by rewrite Hl.
Qed.

Lemma with_dot_fixed (s : string) : HasPrefix s "." = true -> with_dot s = s.
Proof. unfold with_dot. by intros ->. Qed.

(** *** [filepath.Ext] *)

Lemma has_sep_lower (windows : bool) (s : string) :
  has_sep windows (ToLower s) = has_sep windows s.
Proof. induction s as [|c r IH]; cbn; [done|]. by rewrite IsPathSeparator_lower, IH. Qed.

Lemma Ext_lower (windows : bool) (path : string) :
  Ext windows (ToLower path) = ToLower (Ext windows path).
Proof.
  induction path as [|c r IH]; [done|].
  cbn [ToLower Ext]. rewrite IH, has_sep_lower, IsPathSeparator_lower, dot_lower.
  destruct (Ext windows r); cbn [ToLower]; [|done].
  by repeat match goal with |- context [if ?b then _ else _] => destruct b end.
Qed.

Lemma Ext_dot (windows : bool) (path : string) :
  Ext windows path = "" \/ exists r, Ext windows path = String "." r.
Proof.
  induction path as [|c r IH]; [by left|].
  cbn [Ext]. destruct (Ext windows r) as [|d e].
  - destruct (has_sep windows r); [by left|].
    destruct (IsPathSeparator windows c); [by left|].
    destruct (Ascii.eqb_spec c ".") as [->|]; [|by left]. right. eauto.
  - destruct IH as [?|IH]; [done|]. by right.
Qed.

Lemma lower_ascii_dot (c : ascii) : lower_ascii c = "."%char -> c = "."%char.
Proof. destruct c as [[] [] [] [] [] [] [] []]; done. Qed.

Lemma include_loop_lower (exts exts' : list string) (fileExt : string) :
  Forall2 (fun a b => ToLower a = ToLower b) exts exts' ->
  include_loop exts fileExt = include_loop exts' fileExt.
Proof. induction 1 as [|a b l l' Hab _ IH]; cbn; [done|]. by rewrite Hab, IH. Qed.

(** X1. Extension matching ignores letter case on both sides: two include
    lists whose entries agree up to case accept the same paths, and two
    paths that agree up to case are treated alike. *)
Theorem MatchesInclude_ignores_case (windows : bool) (exts exts' : list string)
    (path path' : string) :
  Forall2 (fun a b => ToLower a = ToLower b) exts exts' ->
  ToLower path = ToLower path' ->
  MatchesInclude windows exts path = MatchesInclude windows exts' path'.
Proof.
  intros Hl Hp.
  assert (He : ToLower (Ext windows path) = ToLower (Ext windows path'))
    by (by rewrite <- !Ext_lower, Hp).
  unfold MatchesInclude. rewrite He.
  destruct Hl as [|a b l l' Hab Hl]; [done|].
  apply include_loop_lower. by constructor.
Qed.

(** X2. An include list is compared with extensions that carry their dot:
    a non-empty list none of whose entries is empty or starts with a dot
    (["jpg"; "png"], say) accepts no path at all. *)
Theorem MatchesInclude_dotless_rejects_all (windows : bool) (exts : list string)
    (path : string) :
  exts <> [] ->
  Forall (fun e => e <> "" /\ HasPrefix e "." = false) exts ->
  MatchesInclude windows exts path = false.
Proof.
  intros Hne Hall. apply not_true_is_false. intros Hm.
  apply MatchesInclude_nonempty in Hm as (e & He & Heq); [|done].
  rewrite Forall_forall in Hall. destruct (Hall e He) as [Hnz Hnd].
  destruct (Ext_dot windows path) as [Hx|(r & Hx)]; rewrite Hx in Heq.
  - by apply ToLower_empty in Heq.
  - destruct e as [|c e']; [done|]. cbn in Heq. injection Heq as Hc _.
    apply lower_ascii_dot in Hc as ->.
    assert (HasPrefix (String "." e') "." = true) by (apply HasPrefix_dot; eauto).
    congruence.
Qed.

(** *** [normalizeIncludeExtensions], entry by entry *)

Lemma with_dot_good (ext : string) :
  ~ is_blank ext -> ~ is_wildcard ext -> good_ext (with_dot (TrimSpace (ToLower ext))).
Proof.
  intros Hb Hw. destruct (clean_fixed ext) as [Ht Hl]. cbn zeta in Ht, Hl.
  destruct (with_dot_clean _ Ht Hl) as [Ht' Hl'].
  split; [apply with_dot_prefix|]. split; [done|]. split; [done|].
  unfold with_dot. destruct (HasPrefix _ ".") eqn:E.
  - intros H. apply Hw. by right.
  - intros [= H]. apply Hw. by left.
Qed.

Lemma good_ext_clean (e : string) :
  good_ext e -> TrimSpace (ToLower e) = e /\ ~ is_blank e /\ ~ is_wildcard e.
Proof.
  intros (Hp & Ht & Hl & Hw). apply HasPrefix_dot in Hp as (r & Hr).
  unfold is_blank, is_wildcard. rewrite Hl, Ht. subst e.
  split; [done|]. split; [done|]. by intros [?|?].
Qed.

Lemma norm_step_blank (st : NormState) (ext : string) :
  is_blank ext -> norm_step st ext = st.
Proof. unfold is_blank, norm_step. by intros ->. Qed.

Lemma norm_step_wild (st : NormState) (ext : string) :
  is_wildcard ext ->
  norm_step st ext
  = {| normalized := normalized st; matchAll := true; seen := seen st |}.
Proof. unfold is_wildcard, norm_step. by intros [-> | ->]. Qed.

Lemma norm_step_kept (st : NormState) (ext : string) :
  ~ is_blank ext -> ~ is_wildcard ext ->
  let e := with_dot (TrimSpace (ToLower ext)) in
  norm_step st ext
  = if decide (e ∈ seen st) then st
    else {| normalized := normalized st ++ [e]; matchAll := matchAll st;
            seen := {[e]} ∪ seen st |}.
Proof.
  unfold is_blank, is_wildcard, norm_step, with_dot. intros Hb Hw.
  destruct (String.eqb_spec (TrimSpace (ToLower ext)) ""); [done|].
  destruct (String.eqb_spec (TrimSpace (ToLower ext)) "*"); [tauto|].
  destruct (String.eqb_spec (TrimSpace (ToLower ext)) ".*"); [tauto|].
  done.
Qed.

Lemma ext_cases (ext : string) :
  is_blank ext \/ is_wildcard ext \/ (~ is_blank ext /\ ~ is_wildcard ext).
Proof.
  unfold is_blank, is_wildcard.
  destruct (String.eqb_spec (TrimSpace (ToLower ext)) ""); [by left|].
  destruct (String.eqb_spec (TrimSpace (ToLower ext)) "*"); [right; left; by left|].
  destruct (String.eqb_spec (TrimSpace (ToLower ext)) ".*"); [right; left; by right|].
  right. right. split; [done|]. by intros [?|?].
Qed.

(** What the loop keeps true of its state. *)
Lemma norm_loop_inv (exts : list string) (st : NormState) :
  Forall good_ext (normalized st) -> NoDup (normalized st) ->
  (forall x, x ∈ seen st <-> x ∈ normalized st) ->
  let st' := fold_left norm_step exts st in
  Forall good_ext (normalized st') /\ NoDup (normalized st')
  /\ (forall x, x ∈ seen st' <-> x ∈ normalized st').
Proof.
  revert st. induction exts as [|a exts IH]; intros st Hg Hn Hs; cbn; [done|].
  apply IH.
  all: destruct (ext_cases a) as [Hb|[Hw|[Hb Hw]]];
    [by rewrite norm_step_blank|by rewrite norm_step_wild|].
  all: rewrite (norm_step_kept _ _ Hb Hw); cbn zeta; case_decide as Hin; [done|]; cbn.
  - apply Forall_app. split; [done|]. constructor; [|done]. by apply with_dot_good.
  - apply NoDup_app. split; [done|]. split; [|apply NoDup_singleton].
    intros x Hx ->%list_elem_of_singleton. apply Hin. by apply Hs.
  - intros x. rewrite elem_of_union, elem_of_singleton, elem_of_app,
      list_elem_of_singleton, Hs. tauto.
Qed.

(** Which entries end up in the list, and when the wildcard flag is set. *)
Lemma norm_loop_elem (exts : list string) (st : NormState) (x : string) :
  (forall y, y ∈ seen st <-> y ∈ normalized st) ->
  let st' := fold_left norm_step exts st in
  (forall y, y ∈ seen st' <-> y ∈ normalized st')
  /\ (x ∈ normalized st'
      <-> x ∈ normalized st
          \/ exists e, e ∈ exts /\ ~ is_blank e /\ ~ is_wildcard e
               /\ with_dot (TrimSpace (ToLower e)) = x)
  /\ (matchAll st' = true
      <-> matchAll st = true \/ exists e, e ∈ exts /\ is_wildcard e).
Proof.
  revert st. induction exts as [|a exts IH]; intros st Hs; cbn.
  - split; [done|]. split.
    + split; [by left|]. intros [?|(e & He & _)]; [done|]. by apply elem_of_nil in He.
    + split; [by left|]. intros [?|(e & He & _)]; [done|]. by apply elem_of_nil in He.
  - destruct (ext_cases a) as [Hb|[Hw|[Hb Hw]]].
    + rewrite (norm_step_blank _ _ Hb). destruct (IH st Hs) as (I1 & I2 & I3).
      split; [done|]. split.
      * rewrite I2. split.
        -- intros [?|(e & He & ?)]; [by left|]. right. exists e.
           split; [by apply list_elem_of_further|done].
        -- intros [?|(e & He & Hb' & Hw' & <-)]; [by left|].
           apply elem_of_cons in He as [->|He]; [done|]. right. eauto.
      * rewrite I3. split.
        -- intros [?|(e & He & ?)]; [by left|]. right. exists e.
           split; [by apply list_elem_of_further|done].
        -- intros [?|(e & He & Hw')]; [by left|].
           apply elem_of_cons in He as [->|He]; [|right; eauto].
           exfalso. unfold is_blank, is_wildcard in *. rewrite Hb in Hw'.
           by destruct Hw'.
    + rewrite (norm_step_wild _ _ Hw).
      destruct (IH {| normalized := normalized st; matchAll := true; seen := seen st |} Hs)
        as (I1 & I2 & I3). cbn in I2, I3.
      split; [done|]. split.
      * rewrite I2. split.
        -- intros [?|(e & He & ?)]; [by left|]. right. exists e.
           split; [by apply list_elem_of_further|done].
        -- intros [?|(e & He & Hb' & Hw' & <-)]; [by left|].
           apply elem_of_cons in He as [->|He]; [done|]. right. eauto.
      * rewrite I3. split; [|by left]. intros _. right. exists a.
        split; [apply list_elem_of_here|done].
    + rewrite (norm_step_kept _ _ Hb Hw). cbn zeta.
      set (e0 := with_dot (TrimSpace (ToLower a))).
      case_decide as Hin.
      * destruct (IH st Hs) as (I1 & I2 & I3). split; [done|]. split.
        -- rewrite I2. split.
           ++ intros [?|(e & He & ?)]; [by left|]. right. exists e.
              split; [by apply list_elem_of_further|done].
           ++ intros [?|(e & He & Hb' & Hw' & <-)]; [by left|].
              apply elem_of_cons in He as [->|He]; [|right; eauto].
              left. by apply Hs.
        -- rewrite I3. split.
           ++ intros [?|(e & He & ?)]; [by left|]. right. exists e.
              split; [by apply list_elem_of_further|done].
           ++ intros [?|(e & He & Hw')]; [by left|].
              apply elem_of_cons in He as [->|He]; [done|]. right. eauto.
      * match goal with |- context [fold_left norm_step exts ?s] =>
          destruct (IH s) as (I1 & I2 & I3) end.
        { intros y. cbn. rewrite elem_of_union, elem_of_singleton, elem_of_app,
            list_elem_of_singleton, Hs. tauto. }
        cbn in I2, I3. split; [done|]. split.
        -- rewrite I2, elem_of_app, list_elem_of_singleton. split.
           ++ intros [[?| ->]|(e & He & ?)]; [by left| |].
              ** right. exists a. split; [apply list_elem_of_here|done].
              ** right. exists e. split; [by apply list_elem_of_further|done].
           ++ intros [?|(e & He & Hb' & Hw' & <-)]; [by left; left|].
              apply elem_of_cons in He as [->|He]; [by left; right|]. right. eauto.
        -- rewrite I3. split.
           ++ intros [?|(e & He & ?)]; [by left|]. right. exists e.
              split; [by apply list_elem_of_further|done].
           ++ intros [?|(e & He & Hw')]; [by left|].
              apply elem_of_cons in He as [->|He]; [done|]. right. eauto.
Qed.

Lemma norm_loop_start :
  let st := {| normalized := []; matchAll := false; seen := ∅ |} in
  Forall good_ext (normalized st) /\ NoDup (normalized st)
  /\ (forall x, x ∈ seen st <-> x ∈ normalized st).
Proof.
  cbn. split; [constructor|]. split; [constructor|].
  intros x. rewrite elem_of_empty, elem_of_nil. done.
Qed.

Lemma normalizeIncludeExtensions_good (exts : list string) :
  Forall good_ext (normalizeIncludeExtensions exts)
  /\ NoDup (normalizeIncludeExtensions exts).
Proof.
  unfold normalizeIncludeExtensions. destruct exts as [|a exts].
  { split; constructor. }
  destruct norm_loop_start as (S1 & S2 & S3).
  destruct (norm_loop_inv (a :: exts) _ S1 S2 S3) as (I1 & I2 & _).
  cbn zeta in I1, I2. unfold norm_loop.
  destruct (_ || _); [split; constructor|done].
Qed.

(** X3. What [normalizeIncludeExtensions] leaves in the include list: no
    entry twice, and every entry starts with a dot, has no white space
    around it, is in lower case and is not the wildcard ".*". *)
Theorem normalizeIncludeExtensions_well_formed (exts : list string) :
  NoDup (normalizeIncludeExtensions exts)
  /\ forall e, e ∈ normalizeIncludeExtensions exts ->
       HasPrefix e "." = true /\ TrimSpace e = e /\ ToLower e = e /\ e <> ".*".
Proof.
  destruct (normalizeIncludeExtensions_good exts) as [Hg Hn].
  split; [done|]. intros e He. rewrite Forall_forall in Hg. exact (Hg e He).
Qed.

(** A list of entries that are already in normal form goes through the loop
    unchanged. *)
Lemma norm_loop_on_good (l : list string) (st : NormState) :
  Forall good_ext l -> NoDup (normalized st ++ l) ->
  (forall x, x ∈ seen st <-> x ∈ normalized st) ->
  normalized (fold_left norm_step l st) = (normalized st ++ l)%list
  /\ matchAll (fold_left norm_step l st) = matchAll st.
Proof.
  revert st. induction l as [|a l IH]; intros st Hg Hn Hs; cbn.
  { by rewrite app_nil_r. }
  apply Forall_cons in Hg as [Ha Hg].
  destruct (good_ext_clean _ Ha) as (Hc & Hb & Hw).
  rewrite (norm_step_kept _ _ Hb Hw). cbn zeta. rewrite Hc.
  destruct Ha as (Hp & _). rewrite (with_dot_fixed _ Hp).
  case_decide as Hin.
  { exfalso. apply Hs in Hin. apply NoDup_app in Hn as (_ & Hn & _).
    apply (Hn a Hin), list_elem_of_here. }
  match goal with |- context [fold_left norm_step l ?s] =>
    destruct (IH s) as [I1 I2] end; cbn.
  - done.
  - by rewrite <- app_assoc.
  - intros y. rewrite elem_of_union, elem_of_singleton, elem_of_app,
      list_elem_of_singleton, Hs. tauto.
  - cbn in I1, I2. by rewrite I1, I2, <- app_assoc.
Qed.

Lemma normalizeIncludeExtensions_fixed (l : list string) :
  Forall good_ext l -> NoDup l -> normalizeIncludeExtensions l = l.
Proof.
  intros Hg Hn. destruct l as [|a l]; [done|].
  unfold normalizeIncludeExtensions, norm_loop.
  destruct (norm_loop_on_good (a :: l)
              {| normalized := []; matchAll := false; seen := ∅ |}) as [I1 I2].
  - done.
  - done.
  - intros x. cbn. rewrite elem_of_empty, elem_of_nil. done.
  - cbn in I1, I2. cbn [fold_left] in *. rewrite I1, I2. done.
Qed.

(** X4. Normalising an include list a second time changes nothing. *)
Theorem normalizeIncludeExtensions_idempotent (exts : list string) :
  normalizeIncludeExtensions (normalizeIncludeExtensions exts)
  = normalizeIncludeExtensions exts.
Proof.
  destruct (normalizeIncludeExtensions_good exts) as [Hg Hn].
  by apply normalizeIncludeExtensions_fixed.
Qed.

(** X5. Which paths a normalised include list accepts.  The list accepts a
    path exactly when one of its entries is a wildcard, or all of them are
    blank, or some entry that is neither, once trimmed, lower-cased and
    given its dot, is the lower-cased extension of the path. *)
Theorem normalized_include_accepts (windows : bool) (exts : list string)
    (path : string) :
  MatchesInclude windows (normalizeIncludeExtensions exts) path = true
  <-> (exists e, e ∈ exts /\ is_wildcard e)
      \/ (forall e, e ∈ exts -> is_blank e)
      \/ (exists e, e ∈ exts /\ ~ is_blank e
            /\ with_dot (TrimSpace (ToLower e)) = ToLower (Ext windows path)).
Proof.
  unfold normalizeIncludeExtensions. destruct exts as [|a exts].
  { split; [|done]. intros _. right. left. intros e He. by apply elem_of_nil in He. }
  set (l := a :: exts). unfold norm_loop.
  set (st0 := {| normalized := []; matchAll := false; seen := ∅ |}).
  assert (Hs0 : forall y, y ∈ seen st0 <-> y ∈ normalized st0).
  { intros y. cbn. rewrite elem_of_empty, elem_of_nil. done. }
  assert (Hall := fun x => norm_loop_elem l st0 x Hs0). cbn zeta in Hall.
  destruct norm_loop_start as (S1 & S2 & S3).
  destruct (norm_loop_inv l st0 S1 S2 S3) as (Hg & _ & _). cbn zeta in Hg.
  set (st := fold_left norm_step l st0) in *.
  assert (Hm : matchAll st = true <-> exists e, e ∈ l /\ is_wildcard e).
  { destruct (Hall "") as (_ & _ & ->). cbn. naive_solver. }
  assert (Hel : forall x, x ∈ normalized st
            <-> exists e, e ∈ l /\ ~ is_blank e /\ ~ is_wildcard e
                  /\ with_dot (TrimSpace (ToLower e)) = x).
  { intros x. destruct (Hall x) as (_ & -> & _). cbn. rewrite elem_of_nil. naive_solver. }
  destruct (matchAll st) eqn:Em; cbn [orb].
  { split; [|done]. intros _. left. by apply Hm. }
  assert (Hnw : forall e, e ∈ l -> ~ is_wildcard e).
  { intros e He Hw. assert (false = true) by (apply Hm; eauto). done. }
  destruct (normalized st) as [|n ns] eqn:En; cbn [is_empty].
  - split; [|done]. intros _. right. left. intros e He.
    destruct (ext_cases e) as [?|[?|[Hb Hw]]]; [done|by apply Hnw in He|].
    exfalso. assert (Hx : with_dot (TrimSpace (ToLower e)) ∈ []) by (apply Hel; eauto).
    by apply elem_of_nil in Hx.
  - rewrite <- En in *. rewrite MatchesInclude_nonempty by (by rewrite En). split.
    + intros (x & Hx & Heq). right. right. apply Hel in Hx as (e & He & Hb & _ & <-).
      exists e. split; [done|]. split; [done|].
      rewrite <- Heq. symmetry.
      rewrite Forall_forall in Hg.
      apply (Hg (with_dot (TrimSpace (ToLower e)))), Hel.
      exists e. split; [done|]. split; [done|]. split; [by apply Hnw|done].
    + intros [(e & He & Hw)|[Hb|(e & He & Hb & Heq)]].
      * by apply Hnw in He.
      * exfalso. assert (Hn : n ∈ normalized st) by (rewrite En; apply list_elem_of_here).
        apply Hel in Hn as (e & He & Hb' & _). by apply Hb' , Hb.
      * exists (with_dot (TrimSpace (ToLower e))).
        assert (Hin : with_dot (TrimSpace (ToLower e)) ∈ normalized st).
        { apply Hel. exists e. split; [done|]. split; [done|].
          split; [by apply Hnw|done]. }
        split; [done|]. rewrite <- Heq.
        rewrite Forall_forall in Hg. apply (Hg _ Hin).
Qed.

(** *** [NormalizeExtension] and [NormalizeExtensions] *)

Lemma NormalizeExtension_eq (e : string) :
  e <> "" -> NormalizeExtension e = with_dot (ToLower (TrimSpace e)).
Proof.
  intros Hne. unfold NormalizeExtension, with_dot.
  destruct (String.eqb_spec e ""); [done|]. by destruct (HasPrefix _ ".").
Qed.

Lemma NormalizeExtension_normal (e : string) :
  e <> "" -> normal_ext (NormalizeExtension e).
Proof.
  intros Hne. rewrite (NormalizeExtension_eq _ Hne).
  destruct (clean_fixed' e) as [Ht Hl]. cbn zeta in Ht, Hl.
  destruct (with_dot_clean _ Ht Hl). split; [apply with_dot_prefix|done].
Qed.

Lemma normal_ext_nonempty (e : string) : normal_ext e -> e <> "".
Proof. intros (Hp & _) ->. done. Qed.

Lemma NormalizeExtension_fixed (e : string) : normal_ext e -> NormalizeExtension e = e.
Proof.
  intros He. rewrite NormalizeExtension_eq by (by apply normal_ext_nonempty).
  destruct He as (Hp & Ht & Hl). rewrite Ht, Hl. by apply with_dot_fixed.
Qed.

Lemma normalize_step_skip (st : list string * gset string) :
  normalize_step st "" = st.
Proof. reflexivity. Qed.

Lemma normalize_step_kept (st : list string * gset string) (ext : string) :
  ext <> "" ->
  let e := NormalizeExtension ext in
  normalize_step st ext
  = if decide (e ∈ st.2) then st else ((st.1 ++ [e])%list, {[e]} ∪ st.2).
Proof.
  intros Hne. cbn zeta. unfold normalize_step.
  pose proof (normal_ext_nonempty _ (NormalizeExtension_normal _ Hne)) as Hn.
  destruct (String.eqb_spec (NormalizeExtension ext) ""); [done|].
  cbn [negb andb]. unfold bool_decide. by destruct (decide_rel _ _ _).
Qed.

Lemma normalize_loop_inv (exts : list string) (st : list string * gset string) :
  Forall normal_ext st.1 -> NoDup st.1 -> (forall x, x ∈ st.2 <-> x ∈ st.1) ->
  let st' := fold_left normalize_step exts st in
  Forall normal_ext st'.1 /\ NoDup st'.1 /\ (forall x, x ∈ st'.2 <-> x ∈ st'.1).
Proof.
  revert st. induction exts as [|a exts IH]; intros st Hg Hn Hs; cbn; [done|].
  apply IH.
  all: destruct (String.eqb_spec a "") as [->|Hne]; [by rewrite normalize_step_skip|].
  all: rewrite (normalize_step_kept _ _ Hne); cbn zeta; case_decide as Hin; [done|]; cbn.
  - apply Forall_app. split; [done|]. constructor; [|done].
    by apply NormalizeExtension_normal.
  - apply NoDup_app. split; [done|]. split; [|apply NoDup_singleton].
    intros x Hx ->%list_elem_of_singleton. apply Hin. by apply Hs.
  - intros x. rewrite elem_of_union, elem_of_singleton, elem_of_app,
      list_elem_of_singleton, Hs. tauto.
Qed.

Lemma normalize_loop_on_normal (l : list string) (st : list string * gset string) :
  Forall normal_ext l -> NoDup (st.1 ++ l) -> (forall x, x ∈ st.2 <-> x ∈ st.1) ->
  (fold_left normalize_step l st).1 = (st.1 ++ l)%list.
Proof.
  revert st. induction l as [|a l IH]; intros st Hg Hn Hs; cbn.
  { by rewrite app_nil_r. }
  apply Forall_cons in Hg as [Ha Hg].
  rewrite (normalize_step_kept _ _ (normal_ext_nonempty _ Ha)). cbn zeta.
  rewrite (NormalizeExtension_fixed _ Ha).
  case_decide as Hin.
  { exfalso. apply Hs in Hin. apply NoDup_app in Hn as (_ & Hn & _).
    apply (Hn a Hin), list_elem_of_here. }
  rewrite IH; cbn.
  - by rewrite <- app_assoc.
  - done.
  - by rewrite <- app_assoc.
  - intros y. rewrite elem_of_union, elem_of_singleton, elem_of_app,
      list_elem_of_singleton, Hs. tauto.
Qed.

Lemma NormalizeExtensions_normal (exts : list string) :
  Forall normal_ext (NormalizeExtensions exts) /\ NoDup (NormalizeExtensions exts).
Proof.
  unfold NormalizeExtensions. destruct exts as [|a exts]; [split; constructor|].
  destruct (normalize_loop_inv (a :: exts) ([], ∅)) as (I1 & I2 & _); cbn; try done.
  - constructor.
  - intros x. rewrite elem_of_empty, elem_of_nil. done.
Qed.

(** X6. [NormalizeExtensions] yields a list in normal form: no entry
    twice, every entry starts with a dot, is trimmed and in lower case;
    and it leaves such a list as it is, so that applying it twice is the
    same as applying it once. *)
Theorem NormalizeExtensions_normal_form (exts : list string) :
  NoDup (NormalizeExtensions exts)
  /\ (forall e, e ∈ NormalizeExtensions exts ->
        HasPrefix e "." = true /\ TrimSpace e = e /\ ToLower e = e)
  /\ NormalizeExtensions (NormalizeExtensions exts) = NormalizeExtensions exts.
Proof.
  destruct (NormalizeExtensions_normal exts) as [Hg Hn].
  split; [done|]. split.
  { intros e He. rewrite Forall_forall in Hg. exact (Hg e He). }
  destruct (NormalizeExtensions exts) as [|a l] eqn:E; [done|].
  unfold NormalizeExtensions at 1.
  rewrite (normalize_loop_on_normal (a :: l) ([], ∅)); cbn; try done.
  intros x. rewrite elem_of_empty, elem_of_nil. done.
Qed.

Lemma normalizers_step (exts : list string) (st : NormState) :
  Forall (fun e => e = "" \/ (~ is_blank e /\ ~ is_wildcard e)) exts ->
  let st' := fold_left norm_step exts st in
  fold_left normalize_step exts (normalized st, seen st) = (normalized st', seen st')
  /\ matchAll st' = matchAll st.
Proof.
  revert st. induction exts as [|a exts IH]; intros st Hall; cbn; [done|].
  apply Forall_cons in Hall as [Ha Hall].
  destruct Ha as [->|[Hb Hw]].
  - rewrite normalize_step_skip. rewrite (norm_step_blank st "") by reflexivity.
    by apply IH.
  - assert (Hne : a <> "") by (intros ->; by apply Hb).
    rewrite (normalize_step_kept _ _ Hne), (norm_step_kept _ _ Hb Hw). cbn zeta.
    rewrite (NormalizeExtension_eq _ Hne), <- TrimSpace_lower. cbn [fst snd].
    case_decide as Hin; [by apply IH|].
    match goal with |- context [fold_left norm_step exts ?s] =>
      destruct (IH s Hall) as [I1 I2] end.
    cbn in I1, I2. by rewrite I1, I2.
Qed.

(** X7. The two normalisers of extension lists, [normalizeIncludeExtensions]
    of pair.go and [NormalizeExtensions] of filters.go, agree on every list
    whose entries are empty or are neither white space only nor a
    wildcard. *)
Theorem normalizers_agree (exts : list string) :
  Forall (fun e => e = "" \/ (~ is_blank e /\ ~ is_wildcard e)) exts ->
  normalizeIncludeExtensions exts = NormalizeExtensions exts.
Proof.
  intros Hall. unfold normalizeIncludeExtensions, NormalizeExtensions.
  destruct exts as [|a exts]; [done|].
  destruct (normalizers_step (a :: exts)
              {| normalized := []; matchAll := false; seen := ∅ |} Hall) as [I1 I2].
  cbn [normalized seen matchAll] in I1, I2. unfold norm_loop.
  rewrite I1, I2. cbn [fst orb].
  by destruct (normalized _).
Qed.

Lemma MatchesInclude_ignores_case_witness :
  Forall2 (fun a b => ToLower a = ToLower b) [".JPG"; ".Png"] [".jpg"; ".png"]
  /\ ToLower "/Src/Holiday/IMG_1.Jpg" = ToLower "/src/holiday/img_1.jpg"
  /\ MatchesInclude false [".JPG"; ".Png"] "/Src/Holiday/IMG_1.Jpg"
     = MatchesInclude false [".jpg"; ".png"] "/src/holiday/img_1.jpg".
Proof.
  assert (Hl : Forall2 (fun a b => ToLower a = ToLower b) [".JPG"; ".Png"] [".jpg"; ".png"])
    by (repeat constructor).
  assert (Hp : ToLower "/Src/Holiday/IMG_1.Jpg" = ToLower "/src/holiday/img_1.jpg")
    by reflexivity.
  split; [exact Hl|]. split; [exact Hp|].
  exact (MatchesInclude_ignores_case false _ _ _ _ Hl Hp).
Defined.

Lemma MatchesInclude_dotless_rejects_all_witness :
  ["jpg"; "png"] <> []
  /\ Forall (fun e => e <> "" /\ HasPrefix e "." = false) ["jpg"; "png"]
  /\ MatchesInclude false ["jpg"; "png"] "/src/a.jpg" = false.
Proof.
  assert (Hne : ["jpg"; "png"] <> ([] : list string)) by discriminate.
  assert (Hall : Forall (fun e => e <> "" /\ HasPrefix e "." = false) ["jpg"; "png"]).
  { repeat constructor; discriminate. }
  split; [exact Hne|]. split; [exact Hall|].
  exact (MatchesInclude_dotless_rejects_all false _ "/src/a.jpg" Hne Hall).
Defined.

Lemma normalizers_agree_witness :
  Forall (fun e => e = "" \/ (~ is_blank e /\ ~ is_wildcard e))
    ["JPG"; " .png "; ""; "jpg"]
  /\ normalizeIncludeExtensions ["JPG"; " .png "; ""; "jpg"] = [".jpg"; ".png"]
  /\ NormalizeExtensions ["JPG"; " .png "; ""; "jpg"] = [".jpg"; ".png"].
Proof.
  assert (Hall : Forall (fun e => e = "" \/ (~ is_blank e /\ ~ is_wildcard e))
                   ["JPG"; " .png "; ""; "jpg"]).
  { repeat (apply Forall_cons; split); [| |by left| |constructor].
    all: right; split; [intros H|intros [H|H]]; vm_compute in H; discriminate. }
  split; [exact Hall|].
  pose proof (normalizers_agree _ Hall) as Heq.
  split; [reflexivity|]. rewrite <- Heq. reflexivity.
Defined.

(** ** More on the scheduler *)

Section SchedulerMore.

Variable ParseDuration : string -> option Z.
Variable ParseClock : string -> option Z.
Variable CronParse : string -> option (Z -> Z).

Local Abbreviation scheduleTask := (scheduler.scheduleTask ParseDuration ParseClock CronParse).
Local Abbreviation AddTask := (scheduler.AddTask ParseDuration ParseClock CronParse).
Local Abbreviation UpdateTask := (scheduler.UpdateTask ParseDuration ParseClock CronParse).
Local Abbreviation EnableTask := (scheduler.EnableTask ParseDuration ParseClock CronParse).

Ltac split_schedule H :=
  unfold scheduler.scheduleTask, scheduler.scheduleIntervalTask,
    scheduler.scheduleCronTask, scheduler.scheduleCustomTask in H;
  repeat match type of H with
         | (if ?b then _ else _) = _ => destruct b eqn:?
         | match ?x with _ => _ end = _ => destruct x eqn:?
         end; inversion H; subst; clear H.

(** A schedule that cannot be set up changes nothing. *)
Lemma scheduleTask_error now s t s' t' err :
  scheduleTask now s t = (s', t', Some err) -> s' = s /\ t' = t.
Proof. intros H. split_schedule H; done. Qed.

(** Setting a schedule up touches the ticker, the cron entry and the next
    run only. *)
Lemma scheduleTask_fields now s t s' t' e :
  scheduleTask now s t = (s', t', e) ->
  scheduler.ID t' = scheduler.ID t /\ scheduler.Name t' = scheduler.Name t
  /\ scheduler.TSchedule t' = scheduler.TSchedule t
  /\ scheduler.Enabled t' = scheduler.Enabled t
  /\ scheduler.LastRun t' = scheduler.LastRun t
  /\ scheduler.RunCount t' = scheduler.RunCount t
  /\ scheduler.FailCount t' = scheduler.FailCount t
  /\ scheduler.LastError t' = scheduler.LastError t.
Proof. intros H. split_schedule H; done. Qed.

Lemma unscheduleTask_fields s t s' t' :
  scheduler.unscheduleTask s t = (s', t') ->
  t' = scheduler.set_sched t None None 0
  /\ scheduler.tasks s' = scheduler.tasks s
  /\ scheduler.cronNextID s' = scheduler.cronNextID s
  /\ scheduler.cronEntries s'
     = (if scheduler.cronEntry t =? 0 then scheduler.cronEntries s
        else delete (scheduler.cronEntry t) (scheduler.cronEntries s)).
Proof.
  unfold scheduler.unscheduleTask. intros H.
  destruct (scheduler.cronEntry t =? 0); inversion H; subst; done.
Qed.

(** X8. [AddTask] is all or nothing.  When it returns an error (the id is
    taken, or the schedule cannot be set up) the scheduler is as before,
    its cron entries included.  When it succeeds the id was free, the other
    tasks are untouched, and the new task is filed under its id, enabled,
    with the name and schedule given and with no runs, failures or error
    recorded. *)
Theorem AddTask_all_or_nothing (now : Z) (s : scheduler.Scheduler) (id name : string)
    (schedule : scheduler.Schedule) :
  match AddTask now s id name schedule with
  | (s', Some _) => s' = s
  | (s', None) =>
      scheduler.tasks s !! id = None
      /\ (forall id', id' <> id -> scheduler.tasks s' !! id' = scheduler.tasks s !! id')
      /\ exists t, scheduler.tasks s' !! id = Some t
           /\ scheduler.ID t = id /\ scheduler.Name t = name
           /\ scheduler.TSchedule t = schedule /\ scheduler.Enabled t = true
           /\ scheduler.LastRun t = None /\ scheduler.RunCount t = 0
           /\ scheduler.FailCount t = 0 /\ scheduler.LastError t = ""
  end.
Proof.
  unfold scheduler.AddTask. destruct (scheduler.tasks s !! id) eqn:Hl; [done|].
  match goal with |- context [scheduler.scheduleTask _ _ _ now s ?t] =>
    destruct (scheduleTask now s t) as [[s1 t1] [err|]] eqn:Hs end.
  - by apply scheduleTask_error in Hs as [-> _].
  - pose proof (scheduleTask_fields _ _ _ _ _ _ Hs) as (F1 & F2 & F3 & F4 & F5 & F6 & F7 & F8).
    pose proof (scheduleTask_keeps _ _ _ _ _ _ _ _ _ Hs) as (K & _).
    cbn in *. split; [done|]. split.
    + intros id' Hne. by rewrite lookup_insert_ne, K.
    + exists t1. rewrite lookup_insert_eq. done.
Qed.

(** X9. [UpdateTask] on a registered task stores the new schedule and keeps
    the name, the enabled flag and the statistics, whether or not the new
    schedule can be set up.  If it cannot, the error is returned and the
    task is left with the new schedule but with no ticker, no cron entry and
    no next run: it stays registered and enabled, and nothing triggers it. *)
Theorem UpdateTask_keeps_statistics (now : Z) (s : scheduler.Scheduler) (id : string)
    (schedule : scheduler.Schedule) (t : scheduler.Task) :
  scheduler.tasks s !! id = Some t ->
  let r := UpdateTask now s id schedule in
  exists t', scheduler.tasks r.1 !! id = Some t'
    /\ scheduler.TSchedule t' = schedule
    /\ scheduler.Name t' = scheduler.Name t
    /\ scheduler.Enabled t' = scheduler.Enabled t
    /\ scheduler.LastRun t' = scheduler.LastRun t
    /\ scheduler.RunCount t' = scheduler.RunCount t
    /\ scheduler.FailCount t' = scheduler.FailCount t
    /\ scheduler.LastError t' = scheduler.LastError t
    /\ (is_Some r.2 ->
        scheduler.Enabled t' = true /\ scheduler.ticker t' = None
        /\ scheduler.cronEntry t' = 0 /\ scheduler.NextRun t' = None).
Proof.
  intros Hl. cbn zeta. unfold scheduler.UpdateTask. rewrite Hl.
  destruct (scheduler.unscheduleTask s t) as [s1 t1] eqn:Hu.
  apply unscheduleTask_fields in Hu as (-> & Ht & _ & _).
  cbn [scheduler.set_schedule scheduler.set_sched scheduler.Enabled].
  destruct (scheduler.Enabled t) eqn:He.
  - match goal with |- context [scheduler.scheduleTask _ _ _ now s1 ?u] =>
      destruct (scheduleTask now s1 u) as [[s2 t3] [err|]] eqn:Hs end.
    + apply scheduleTask_error in Hs as [-> ->]. cbn.
      eexists. rewrite lookup_insert_eq. split; [done|]. cbn. by rewrite He.
    + pose proof (scheduleTask_fields _ _ _ _ _ _ Hs) as (F1 & F2 & F3 & F4 & F5 & F6 & F7 & F8).
      cbn in *. exists t3. rewrite lookup_insert_eq. rewrite He in F4.
      split_and!; try done; by intros [? [=]].
  - cbn. eexists. rewrite lookup_insert_eq. split; [done|]. cbn. rewrite He.
    split_and!; try done; by intros [? [=]].
Qed.

End SchedulerMore.

(** *** The ticker loops *)

Lemma set_next_fields (t : scheduler.Task) (nx : option Z) :
  scheduler.RunCount (scheduler_run.set_next t nx) = scheduler.RunCount t
  /\ scheduler.FailCount (scheduler_run.set_next t nx) = scheduler.FailCount t
  /\ scheduler.TSchedule (scheduler_run.set_next t nx) = scheduler.TSchedule t
  /\ scheduler.Enabled (scheduler_run.set_next t nx) = scheduler.Enabled t.
Proof. done. Qed.

Lemma executeTask_keeps (now : Z) (out : scheduler.Outcome) (t : scheduler.Task) :
  scheduler.TSchedule (scheduler.executeTask now out t) = scheduler.TSchedule t
  /\ scheduler.Enabled (scheduler.executeTask now out t) = scheduler.Enabled t.
Proof. by destruct out. Qed.

(** A run that [shouldExecuteTask] lets through stays within [MaxRuns]. *)
Lemma gated_run_bounded (c now : Z) (out : scheduler.Outcome) (t : scheduler.Task) :
  0 < scheduler.MaxRuns (scheduler.TSchedule t) < 2 ^ 63 ->
  - 2 ^ 63 <= scheduler.RunCount t ->
  scheduler.shouldExecuteTask c t = true ->
  - 2 ^ 63 <= scheduler.RunCount (scheduler.executeTask now out t)
    <= scheduler.MaxRuns (scheduler.TSchedule t).
Proof.
  intros Hm Hr Hs. unfold scheduler.shouldExecuteTask in Hs.
  repeat match type of Hs with
         | (if ?b then _ else _) = _ => destruct b eqn:?
         end; try done.
  assert (scheduler.RunCount t < scheduler.MaxRuns (scheduler.TSchedule t)) by lia.
  destruct out; cbn; rewrite ?incr_no_overflow by lia; lia.
Qed.

Lemma interval_fire_bounded (interval : Z) (t : scheduler.Task) (f : scheduler_run.Firing) :
  0 < scheduler.MaxRuns (scheduler.TSchedule t) < 2 ^ 63 ->
  - 2 ^ 63 <= scheduler.RunCount t <= scheduler.MaxRuns (scheduler.TSchedule t) ->
  let t' := scheduler_run.interval_fire interval t f in
  scheduler.TSchedule t' = scheduler.TSchedule t
  /\ - 2 ^ 63 <= scheduler.RunCount t' <= scheduler.MaxRuns (scheduler.TSchedule t).
Proof.
  intros Hm Hr. cbn zeta. unfold scheduler_run.interval_fire.
  destruct (scheduler.shouldExecuteTask _ t) eqn:Hs; [|done].
  split; [by destruct (scheduler_run.out f)|].
  destruct (set_next_fields (scheduler.executeTask (scheduler_run.started f)
              (scheduler_run.out f) t) (Some (scheduler_run.finished f + interval)))
    as (-> & _).
  eapply gated_run_bounded; [done|lia|exact Hs].
Qed.

(** X10. [MaxRuns] holds for the interval loop: a task with a positive
    [MaxRuns] that has not run more often than that is never taken beyond
    it by its ticker loop, however many deliveries the loop handles and
    whatever the task function does. *)
Theorem runIntervalTask_respects_MaxRuns (interval : Z) (task : scheduler.Task)
    (fs : list scheduler_run.Firing) :
  0 < scheduler.MaxRuns (scheduler.TSchedule task) < 2 ^ 63 ->
  - 2 ^ 63 <= scheduler.RunCount task <= scheduler.MaxRuns (scheduler.TSchedule task) ->
  scheduler.RunCount (scheduler_run.runIntervalTask interval task fs)
    <= scheduler.MaxRuns (scheduler.TSchedule task).
Proof.
  unfold scheduler_run.runIntervalTask. revert task.
  induction fs as [|f fs IH]; intros task Hm Hr; cbn [fold_left]; [lia|].
  destruct (interval_fire_bounded interval task f Hm Hr) as [Hs Hb].
  rewrite <- Hs. apply IH; by rewrite Hs.
Qed.

Lemma interval_fire_panic (interval : Z) (t : scheduler.Task) (f : scheduler_run.Firing) :
  (exists v, scheduler_run.out f = scheduler.Panics v) ->
  let t' := scheduler_run.interval_fire interval t f in
  scheduler.RunCount t' = scheduler.RunCount t
  /\ scheduler.TSchedule t' = scheduler.TSchedule t
  /\ scheduler.Enabled t' = scheduler.Enabled t.
Proof.
  intros (v & Hv). cbn zeta. unfold scheduler_run.interval_fire.
  destruct (scheduler.shouldExecuteTask _ t); [|done]. by rewrite Hv.
Qed.

(** X11. Panics use up none of [MaxRuns]: after any number of deliveries
    in which the task function panicked, the run count is what it was, and
    the task is let through by [shouldExecuteTask] exactly when it was
    before. *)
Theorem panics_do_not_count_against_MaxRuns (interval : Z) (task : scheduler.Task)
    (fs : list scheduler_run.Firing) :
  Forall (fun f => exists v, scheduler_run.out f = scheduler.Panics v) fs ->
  let task' := scheduler_run.runIntervalTask interval task fs in
  scheduler.RunCount task' = scheduler.RunCount task
  /\ forall now, scheduler.shouldExecuteTask now task' = scheduler.shouldExecuteTask now task.
Proof.
  intros Hall. cbn zeta.
  assert (H : let task' := scheduler_run.runIntervalTask interval task fs in
              scheduler.RunCount task' = scheduler.RunCount task
              /\ scheduler.TSchedule task' = scheduler.TSchedule task
              /\ scheduler.Enabled task' = scheduler.Enabled task).
  { unfold scheduler_run.runIntervalTask. revert task.
    induction Hall as [|f fs Hf _ IH]; intros task; cbn [fold_left]; [done|].
    destruct (interval_fire_panic interval task f Hf) as (E1 & E2 & E3).
    destruct (IH (scheduler_run.interval_fire interval task f)) as (I1 & I2 & I3).
    cbn zeta. by rewrite I1, I2, I3. }
  destruct H as (H1 & H2 & H3). split; [done|]. intros now.
  unfold scheduler.shouldExecuteTask. by rewrite H1, H2, H3.
Qed.

(** *** The window of a custom schedule *)

Lemma on_day_one_clock (c : Z) :
  scheduler_run.on_day_one (scheduler_run.clock_hour c) (scheduler_run.clock_minute c) 0
  = 60 * (c / 60).
Proof.
  unfold scheduler_run.on_day_one, scheduler_run.clock_hour, scheduler_run.clock_minute.
  pose proof (Z.div_mod c 3600 ltac:(lia)) as H1.
  pose proof (Z.mod_pos_bound c 3600 ltac:(lia)) as H2.
  assert (c / 60 = 60 * (c / 3600) + (c mod 3600) / 60) as ->; [|lia].
  rewrite H1 at 1.
  replace (3600 * (c / 3600) + c mod 3600) with (c mod 3600 + (60 * (c / 3600)) * 60) by lia.
  rewrite Z.div_add by lia. lia.
Qed.

Section CustomWindow.

Variable ParseDuration : string -> option Z.
Variable Weekday : Z -> Z.
Variable Hour : Z -> Z.
Variable Minute : Z -> Z.
Variable Second : Z -> Z.

Lemma window_across_midnight (now startTime endTime : Z) :
  endTime / 60 < startTime / 60 ->
  scheduler_run.isWithinTimeWindow Hour Minute Second now startTime endTime = false.
Proof.
  intros H. unfold scheduler_run.isWithinTimeWindow. rewrite !on_day_one_clock.
  apply not_true_is_false. intros Hw.
  apply andb_true_iff in Hw as [H1 H2].
  apply negb_true_iff, Z.ltb_ge in H1. apply negb_true_iff, Z.ltb_ge in H2. lia.
Qed.

(** X12. A custom schedule whose window ends at an earlier minute of the day
    than it starts (22:00 to 06:00, say) never runs: whatever deliveries
    its loop handles, the task is never executed. *)
Theorem custom_window_across_midnight_never_runs (task : scheduler.Task)
    (custom : scheduler.CustomSchedule) (startTime endTime interval : Z)
    (fs : list scheduler_run.Firing) :
  scheduler.Custom (scheduler.TSchedule task) = Some custom ->
  endTime / 60 < startTime / 60 ->
  scheduler_run.runCustomTask ParseDuration Weekday Hour Minute Second
    task startTime endTime interval fs = Some (task, None).
Proof.
  intros Hc Hw. unfold scheduler_run.runCustomTask.
  induction fs as [|f fs IH]; cbn [fold_left]; [done|].
  replace (scheduler_run.custom_fire ParseDuration Weekday Hour Minute Second
             startTime endTime interval (Some (task, None)) f)
    with (Some (task, @None Z)); [done|].
  unfold scheduler_run.custom_fire, scheduler_run.shouldExecuteCustomTask.
  rewrite Hc, (window_across_midnight _ _ _ Hw).
  destruct (negb (scheduler.shouldExecuteTask _ task)); [done|].
  by destruct (negb (scheduler_run.isValidWeekDay _ _)).
Qed.

End CustomWindow.

(** *** What a session keeps true of the scheduler *)

Lemma cron_ok_unscheduled E n m id t t1 :
  cron_ok E n m -> m !! id = Some t ->
  scheduler.ID t1 = id -> scheduler.cronEntry t1 = 0 -> scheduler.ticker t1 = None ->
  cron_ok (if scheduler.cronEntry t =? 0 then E else delete (scheduler.cronEntry t) E)
    n (<[id := t1]> m).
Proof.
  intros (I1 & I2 & I3 & I4 & I5 & I6 & I7) Hl H1 H2 H3.
  assert (Hown : forall e id', E !! e = Some id' -> e <> scheduler.cronEntry t -> id' <> id).
  { intros e id' He Hne ->. destruct (I2 _ _ He) as (t' & Ht' & Hc). congruence. }
  assert (Hpos : forall e id', E !! e = Some id' -> e <> 0).
  { intros e id' He. assert (0 < e < n) by (apply I4; eauto). lia. }
  split_and!.
  - intros id' t'. destruct (decide (id' = id)) as [->|Hne].
    + rewrite lookup_insert_eq. by intros [= <-].
    + rewrite lookup_insert_ne by done. apply I1.
  - intros e id' He.
    assert (E !! e = Some id' /\ e <> scheduler.cronEntry t) as [He' Hne].
    { destruct (Z.eqb_spec (scheduler.cronEntry t) 0) as [Hz|Hz].
      - split; [done|]. rewrite Hz. by eapply Hpos.
      - apply lookup_delete_Some in He as [? ?]. done. }
    destruct (I2 _ _ He') as (t' & Ht' & Hc).
    exists t'. split; [|done]. rewrite lookup_insert_ne; [done|].
    intros <-. by eapply Hown.
  - intros id' t'. destruct (decide (id' = id)) as [->|Hne].
    + rewrite lookup_insert_eq. intros [= <-]. done.
    + rewrite lookup_insert_ne by done. intros Ht' Hc.
      pose proof (I3 _ _ Ht' Hc) as He.
      destruct (Z.eqb_spec (scheduler.cronEntry t) 0) as [Hz|Hz]; [done|].
      rewrite lookup_delete_ne; [done|]. intros Heq.
      pose proof (I3 _ _ Hl Hz) as He2. rewrite Heq in He2. congruence.
  - intros e [x He]. apply I4. exists x.
    destruct (scheduler.cronEntry t =? 0); [done|].
    by apply lookup_delete_Some in He as [_ ?].
  - done.
  - intros id' t'. destruct (decide (id' = id)) as [->|Hne].
    + rewrite lookup_insert_eq. intros [= <-]. done.
    + rewrite lookup_insert_ne by done. apply (I6 id').
  - intros id' t'. destruct (decide (id' = id)) as [->|Hne].
    + rewrite lookup_insert_eq. intros [= <-]. done.
    + rewrite lookup_insert_ne by done. apply (I7 id').
Qed.

Lemma cron_ok_removed E n m id t :
  cron_ok E n m -> m !! id = Some t ->
  cron_ok (if scheduler.cronEntry t =? 0 then E else delete (scheduler.cronEntry t) E)
    n (delete id m).
Proof.
  intros (I1 & I2 & I3 & I4 & I5 & I6 & I7) Hl.
  assert (Hpos : forall e id', E !! e = Some id' -> e <> 0).
  { intros e id' He. assert (0 < e < n) by (apply I4; eauto). lia. }
  split_and!.
  - intros id' t' [_ ?]%lookup_delete_Some. by apply I1.
  - intros e id' He.
    assert (E !! e = Some id' /\ e <> scheduler.cronEntry t) as [He' Hne].
    { destruct (Z.eqb_spec (scheduler.cronEntry t) 0) as [Hz|Hz].
      - split; [done|]. rewrite Hz. by eapply Hpos.
      - apply lookup_delete_Some in He as [? ?]. done. }
    destruct (I2 _ _ He') as (t' & Ht' & Hc).
    exists t'. split; [|done]. rewrite lookup_delete_ne; [done|].
    intros <-. congruence.
  - intros id' t' [Hne Ht']%lookup_delete_Some Hc.
    pose proof (I3 _ _ Ht' Hc) as He.
    destruct (Z.eqb_spec (scheduler.cronEntry t) 0) as [Hz|Hz]; [done|].
    rewrite lookup_delete_ne; [done|]. intros Heq.
    pose proof (I3 _ _ Hl Hz) as He2. rewrite Heq in He2. congruence.
  - intros e [x He]. apply I4. exists x.
    destruct (scheduler.cronEntry t =? 0); [done|].
    by apply lookup_delete_Some in He as [_ ?].
  - done.
  - intros id' t' [_ ?]%lookup_delete_Some. by apply (I6 id').
  - intros id' t' [_ ?]%lookup_delete_Some. by apply (I7 id').
Qed.

(** Replacing a task by one with the same schedule state. *)
Lemma cron_ok_same_schedule E n m id t t' :
  cron_ok E n m -> m !! id = Some t ->
  scheduler.ID t' = scheduler.ID t -> scheduler.cronEntry t' = scheduler.cronEntry t ->
  scheduler.ticker t' = scheduler.ticker t -> scheduler.Enabled t' = scheduler.Enabled t ->
  scheduler.TSchedule t' = scheduler.TSchedule t ->
  cron_ok E n (<[id := t']> m).
Proof.
  intros (I1 & I2 & I3 & I4 & I5 & I6 & I7) Hl H1 H2 H3 H4 H5.
  split_and!; try done.
  - intros id' u. destruct (decide (id' = id)) as [->|Hne].
    + rewrite lookup_insert_eq. intros [= <-]. rewrite H1. by apply I1.
    + rewrite lookup_insert_ne by done. apply I1.
  - intros e id' He. destruct (I2 _ _ He) as (u & Hu & Hc).
    destruct (decide (id' = id)) as [->|Hne].
    + exists t'. rewrite lookup_insert_eq. split; [done|]. congruence.
    + exists u. by rewrite lookup_insert_ne.
  - intros id' u. destruct (decide (id' = id)) as [->|Hne].
    + rewrite lookup_insert_eq. intros [= <-]. rewrite H2. by apply I3.
    + rewrite lookup_insert_ne by done. apply I3.
  - intros id' u. destruct (decide (id' = id)) as [->|Hne].
    + rewrite lookup_insert_eq. intros [= <-]. rewrite H2, H4, H5. by apply (I6 id).
    + rewrite lookup_insert_ne by done. apply (I6 id').
  - intros id' u. destruct (decide (id' = id)) as [->|Hne].
    + rewrite lookup_insert_eq. intros [= <-]. rewrite H3, H4, H5. by apply (I7 id).
    + rewrite lookup_insert_ne by done. apply (I7 id').
Qed.

Ltac unfold_sched_call := unfold sched_call.
Ltac unfold_sched_session := unfold sched_session.

Section SessionProps.

Variable ParseDuration : string -> option Z.
Variable ParseClock : string -> option Z.
Variable CronParse : string -> option (Z -> Z).

Local Abbreviation scheduleTask := (scheduler.scheduleTask ParseDuration ParseClock CronParse).
Local Abbreviation sched_call := (sched_call ParseDuration ParseClock CronParse).
Local Abbreviation sched_session := (sched_session ParseDuration ParseClock CronParse).

(** Inserting a task that holds no schedule where no cron entry is held. *)
Lemma cron_ok_plain E n m id t :
  cron_ok E n m -> (forall t0, m !! id = Some t0 -> scheduler.cronEntry t0 = 0) ->
  scheduler.ID t = id -> scheduler.cronEntry t = 0 -> scheduler.ticker t = None ->
  cron_ok E n (<[id := t]> m).
Proof.
  intros Hok Hfree H1 H2 H3.
  destruct (m !! id) as [t0|] eqn:Hl.
  - pose proof (cron_ok_unscheduled E n m id t0 t Hok Hl H1 H2 H3) as H.
    by rewrite (Hfree t0 eq_refl) in H.
  - destruct Hok as (I1 & I2 & I3 & I4 & I5 & I6 & I7). split_and!; try done.
    + intros id' u. destruct (decide (id' = id)) as [->|Hne].
      * rewrite lookup_insert_eq. by intros [= <-].
      * rewrite lookup_insert_ne by done. apply I1.
    + intros e id' He. destruct (I2 _ _ He) as (u & Hu & Hc). exists u.
      split; [|done]. rewrite lookup_insert_ne; [done|]. intros <-. congruence.
    + intros id' u. destruct (decide (id' = id)) as [->|Hne].
      * rewrite lookup_insert_eq. by intros [= <-].
      * rewrite lookup_insert_ne by done. apply I3.
    + intros id' u. destruct (decide (id' = id)) as [->|Hne].
      * rewrite lookup_insert_eq. by intros [= <-].
      * rewrite lookup_insert_ne by done. apply (I6 id').
    + intros id' u. destruct (decide (id' = id)) as [->|Hne].
      * rewrite lookup_insert_eq. by intros [= <-].
      * rewrite lookup_insert_ne by done. apply (I7 id').
Qed.

Lemma cron_ok_ticker E n m id t tk nx :
  cron_ok E n m -> (forall t0, m !! id = Some t0 -> scheduler.cronEntry t0 = 0) ->
  scheduler.ID t = id -> scheduler.cronEntry t = 0 -> scheduler.Enabled t = true ->
  scheduler.SType (scheduler.TSchedule t) = scheduler.ScheduleTypeInterval
  \/ scheduler.SType (scheduler.TSchedule t) = scheduler.ScheduleTypeCustom ->
  cron_ok E n (<[id := scheduler.set_sched t tk nx (scheduler.cronEntry t)]> m).
Proof.
  intros Hok Hfree H1 H2 H3 H4.
  pose proof (cron_ok_plain E n m id (scheduler.set_sched t None None 0) Hok Hfree H1
                eq_refl eq_refl) as (I1 & I2 & I3 & I4 & I5 & I6 & I7).
  rewrite H2. split_and!; try done.
  - intros id' u. destruct (decide (id' = id)) as [->|Hne].
    + rewrite lookup_insert_eq. by intros [= <-].
    + intros Hu. apply I1. by rewrite lookup_insert_ne in Hu |- *.
  - intros e id' He. destruct (I2 _ _ He) as (u & Hu & Hc).
    destruct (decide (id' = id)) as [->|Hne].
    + rewrite lookup_insert_eq in Hu. injection Hu as <-.
      eexists. rewrite lookup_insert_eq. done.
    + exists u. by rewrite lookup_insert_ne in Hu |- *.
  - intros id' u. destruct (decide (id' = id)) as [->|Hne].
    + rewrite lookup_insert_eq. by intros [= <-].
    + intros Hu. apply I3. by rewrite lookup_insert_ne in Hu |- *.
  - intros id' u. destruct (decide (id' = id)) as [->|Hne].
    + rewrite lookup_insert_eq. by intros [= <-].
    + intros Hu. apply (I6 id'). by rewrite lookup_insert_ne in Hu |- *.
  - intros id' u. destruct (decide (id' = id)) as [->|Hne].
    + rewrite lookup_insert_eq. by intros [= <-].
    + intros Hu. apply (I7 id'). by rewrite lookup_insert_ne in Hu |- *.
Qed.

Lemma cron_ok_entry E n m id t nx :
  cron_ok E n m -> (forall t0, m !! id = Some t0 -> scheduler.cronEntry t0 = 0) ->
  scheduler.ID t = id -> scheduler.ticker t = None -> scheduler.Enabled t = true ->
  scheduler.SType (scheduler.TSchedule t) = scheduler.ScheduleTypeCron ->
  cron_ok (<[n := id]> E) (n + 1)
    (<[id := scheduler.set_sched t (scheduler.ticker t) nx n]> m).
Proof.
  intros Hok Hfree H1 H2 H3 H4.
  pose proof (cron_ok_plain E n m id (scheduler.set_sched t None None 0) Hok Hfree H1
                eq_refl eq_refl) as (I1 & I2 & I3 & I4 & I5 & I6 & I7).
  assert (Hfresh : E !! n = None).
  { destruct (E !! n) eqn:He; [|done]. assert (0 < n < n) by (apply I4; eauto). lia. }
  split_and!.
  - intros id' u. destruct (decide (id' = id)) as [->|Hne].
    + rewrite lookup_insert_eq. by intros [= <-].
    + intros Hu. apply I1. by rewrite lookup_insert_ne in Hu |- *.
  - intros e id'. destruct (decide (e = n)) as [->|Hne].
    + rewrite lookup_insert_eq. intros [= <-]. eexists. by rewrite lookup_insert_eq.
    + rewrite lookup_insert_ne by done. intros He.
      destruct (I2 _ _ He) as (u & Hu & Hc).
      destruct (decide (id' = id)) as [->|Hne'].
      * rewrite lookup_insert_eq in Hu. injection Hu as <-. cbn in Hc.
        assert (0 < e < n) by (apply I4; eauto). lia.
      * exists u. by rewrite lookup_insert_ne in Hu |- *.
  - intros id' u. destruct (decide (id' = id)) as [->|Hne].
    + rewrite lookup_insert_eq. intros [= <-] _. cbn. by rewrite lookup_insert_eq.
    + intros Hu Hc. rewrite lookup_insert_ne in Hu by done.
      assert (Hu' : <[id := scheduler.set_sched t None None 0]> m !! id' = Some u)
        by (by rewrite lookup_insert_ne).
      pose proof (I3 _ _ Hu' Hc) as He.
      rewrite lookup_insert_ne; [done|]. intros Heq. rewrite <- Heq in He. congruence.
  - intros e [x He]. destruct (decide (e = n)) as [->|Hne]; [lia|].
    rewrite lookup_insert_ne in He by done.
    assert (0 < e < n) by (apply I4; eauto). lia.
  - lia.
  - intros id' u. destruct (decide (id' = id)) as [->|Hne].
    + rewrite lookup_insert_eq. by intros [= <-].
    + intros Hu. apply (I6 id'). by rewrite lookup_insert_ne in Hu |- *.
  - intros id' u. destruct (decide (id' = id)) as [->|Hne].
    + rewrite lookup_insert_eq. intros [= <-]. cbn. by rewrite H2.
    + intros Hu. apply (I7 id'). by rewrite lookup_insert_ne in Hu |- *.
Qed.

(** Setting up the schedule of an enabled task that holds none. *)
Lemma cron_ok_scheduled now s m id t s' t' e :
  cron_ok (scheduler.cronEntries s) (scheduler.cronNextID s) m ->
  (forall t0, m !! id = Some t0 -> scheduler.cronEntry t0 = 0) ->
  scheduler.ID t = id -> scheduler.cronEntry t = 0 -> scheduler.ticker t = None ->
  scheduler.Enabled t = true ->
  scheduleTask now s t = (s', t', e) ->
  cron_ok (scheduler.cronEntries s') (scheduler.cronNextID s') (<[id := t']> m).
Proof.
  intros Hok Hfree H1 H2 H3 H4 Hs.
  pose proof (cron_ok_plain _ _ m id t Hok Hfree H1 H2 H3) as Hplain.
  unfold scheduler.scheduleTask, scheduler.scheduleIntervalTask,
    scheduler.scheduleCronTask, scheduler.scheduleCustomTask in Hs.
  destruct (String.eqb_spec (scheduler.SType (scheduler.TSchedule t))
              scheduler.ScheduleTypeDisabled); [by inversion Hs; subst|].
  destruct (String.eqb_spec (scheduler.SType (scheduler.TSchedule t))
              scheduler.ScheduleTypeWatcher); [by inversion Hs; subst|].
  destruct (String.eqb_spec (scheduler.SType (scheduler.TSchedule t))
              scheduler.ScheduleTypeInterval) as [Hi|_].
  { destruct (ParseDuration _) as [d|]; [|by inversion Hs; subst].
    destruct (d <=? 0); inversion Hs; subst; [done|].
    apply cron_ok_ticker; auto. }
  destruct (String.eqb_spec (scheduler.SType (scheduler.TSchedule t))
              scheduler.ScheduleTypeCron) as [Hc|_].
  { destruct (CronParse _); inversion Hs; subst; [|done]. cbn.
    apply cron_ok_entry; auto. }
  destruct (String.eqb_spec (scheduler.SType (scheduler.TSchedule t))
              scheduler.ScheduleTypeCustom) as [Hc|_]; [|by inversion Hs; subst].
  destruct (scheduler.Custom _); [|by inversion Hs; subst].
  destruct (scheduler.validateCustomSchedule _ _ _); [by inversion Hs; subst|].
  cbn zeta in Hs.
  destruct (scheduler.calculateCheckInterval _ <=? 0); inversion Hs; subst; [done|].
  apply cron_ok_ticker; auto.
Qed.

Lemma sched_call_ok (s : scheduler.Scheduler) (c : Z * SchedCall) :
  sched_ok s -> sched_ok (sched_call s c).1.
Proof.
  intros Hok. destruct c as [now c]. unfold_sched_call. cbn [fst snd].
  destruct c as [id name schedule|id|id schedule|id|id|id out].
  - (* AddTask *)
    unfold scheduler.AddTask. destruct (scheduler.tasks s !! id) eqn:Hl; [done|].
    match goal with |- context [scheduler.scheduleTask _ _ _ now s ?t] =>
      destruct (scheduleTask now s t) as [[s1 t1] [err|]] eqn:Hs end.
    + by apply scheduleTask_error in Hs as [-> _].
    + pose proof (scheduleTask_keeps _ _ _ _ _ _ _ _ _ Hs) as (K & _).
      unfold sched_ok. cbn. rewrite K.
      eapply cron_ok_scheduled; [exact Hok| | | | | |exact Hs]; try done.
      intros t0. by rewrite Hl.
  - (* RemoveTask *)
    unfold scheduler.RemoveTask. destruct (scheduler.tasks s !! id) as [t|] eqn:Hl; [|done].
    destruct (scheduler.unscheduleTask s t) as [s1 t1] eqn:Hu.
    apply unscheduleTask_fields in Hu as (_ & Ht & Hn & He).
    unfold sched_ok. cbn. rewrite Ht, Hn, He. by apply cron_ok_removed.
  - (* UpdateTask *)
    unfold scheduler.UpdateTask. destruct (scheduler.tasks s !! id) as [t|] eqn:Hl; [|done].
    destruct (scheduler.unscheduleTask s t) as [s1 t1] eqn:Hu.
    apply unscheduleTask_fields in Hu as (-> & Ht & Hn & He).
    pose proof (proj1 Hok id t Hl) as Hid.
    set (t2 := scheduler.set_schedule (scheduler.set_sched t None None 0) schedule).
    assert (Hok1 : cron_ok (scheduler.cronEntries s1) (scheduler.cronNextID s1)
                     (<[id := t2]> (scheduler.tasks s))).
    { rewrite Hn, He. by apply cron_ok_unscheduled. }
    destruct (scheduler.Enabled t2) eqn:Hen.
    + destruct (scheduleTask now s1 t2) as [[s2 t3] e] eqn:Hs.
      pose proof (scheduleTask_keeps _ _ _ _ _ _ _ _ _ Hs) as (K & _).
      assert (Hfin : cron_ok (scheduler.cronEntries s2) (scheduler.cronNextID s2)
                       (<[id := t3]> (scheduler.tasks s))).
      { rewrite <- (insert_insert_eq (scheduler.tasks s) id t3 t2).
        eapply cron_ok_scheduled; [exact Hok1| | | | | |exact Hs]; try done.
        intros t0. rewrite lookup_insert_eq. by intros [= <-]. }
      destruct e; unfold sched_ok; cbn; by rewrite K, Ht.
    + unfold sched_ok. cbn. by rewrite Ht.
  - (* EnableTask *)
    unfold scheduler.EnableTask. destruct (scheduler.tasks s !! id) as [t|] eqn:Hl; [|done].
    destruct (scheduler.Enabled t) eqn:Hen; [done|].
    destruct (scheduleTask now s (scheduler.set_enabled t true)) as [[s1 t1] e] eqn:Hs.
    pose proof (scheduleTask_keeps _ _ _ _ _ _ _ _ _ Hs) as (K & _).
    pose proof Hok as (I1 & _ & _ & _ & _ & I6 & I7).
    assert (Hce : scheduler.cronEntry t = 0).
    { destruct (Z.eq_dec (scheduler.cronEntry t) 0) as [|Hne]; [done|].
      destruct (I6 _ _ Hl Hne). congruence. }
    assert (Htk : scheduler.ticker t = None).
    { destruct (scheduler.ticker t) eqn:E; [|done].
      destruct (I7 id t Hl) as [? _]; [by rewrite E|congruence]. }
    unfold sched_ok. cbn. rewrite K.
    eapply cron_ok_scheduled; [exact Hok| | | | | |exact Hs]; try done.
    + intros t0. rewrite Hl. by intros [= <-].
    + cbn. by apply I1.
  - (* DisableTask *)
    unfold scheduler.DisableTask. destruct (scheduler.tasks s !! id) as [t|] eqn:Hl; [|done].
    destruct (negb (scheduler.Enabled t)); [done|].
    destruct (scheduler.unscheduleTask s (scheduler.set_enabled t false)) as [s1 t1] eqn:Hu.
    apply unscheduleTask_fields in Hu as (-> & Ht & Hn & He).
    unfold sched_ok. cbn. rewrite Ht. cbn in He. rewrite Hn, He.
    apply cron_ok_unscheduled; try done. cbn. by apply (proj1 Hok).
  - (* RunTaskNow *)
    unfold scheduler.RunTaskNow. destruct (scheduler.tasks s !! id) as [t|] eqn:Hl; [|done].
    unfold sched_ok. cbn. eapply cron_ok_same_schedule; [exact Hok|exact Hl|..];
      by destruct out.
Qed.

Lemma NewScheduler_ok : sched_ok scheduler.NewScheduler.
Proof.
  unfold sched_ok, cron_ok. cbn. split_and!; try done.
  intros e [x Hx]. by rewrite lookup_empty in Hx.
Qed.

Lemma sched_session_ok (cs : list (Z * SchedCall)) : sched_ok (sched_session cs).
Proof.
  unfold_sched_session.
  generalize NewScheduler_ok. generalize scheduler.NewScheduler.
  induction cs as [|c cs IH]; intros s Hs; cbn [fold_left]; [done|].
  apply IH. by apply sched_call_ok.
Qed.

(** X13. No schedule is left behind.  After any sequence of [AddTask],
    [RemoveTask], [UpdateTask], [EnableTask], [DisableTask] and [RunTaskNow]
    calls on a new scheduler, failing ones included: every entry of the cron
    component belongs to a registered task that is enabled, has a cron
    schedule and holds exactly that entry; and a registered task that is
    disabled holds neither a ticker nor a cron entry. *)
Theorem session_leaves_no_stray_schedule (cs : list (Z * SchedCall)) :
  let s := sched_session cs in
  (forall e id, scheduler.cronEntries s !! e = Some id ->
     exists t, scheduler.tasks s !! id = Some t /\ scheduler.cronEntry t = e
       /\ scheduler.Enabled t = true
       /\ scheduler.SType (scheduler.TSchedule t) = scheduler.ScheduleTypeCron)
  /\ (forall id t, scheduler.tasks s !! id = Some t -> scheduler.Enabled t = false ->
        scheduler.ticker t = None /\ scheduler.cronEntry t = 0).
Proof.
  cbn zeta. destruct (sched_session_ok cs) as (I1 & I2 & I3 & I4 & I5 & I6 & I7).
  split.
  - intros e id He. destruct (I2 _ _ He) as (t & Ht & Hc). exists t.
    assert (0 < e < scheduler.cronNextID (sched_session cs)) by (apply I4; eauto).
    destruct (I6 _ _ Ht) as [? ?]; [lia|]. done.
  - intros id t Ht Hen. split.
    + destruct (scheduler.ticker t) eqn:E; [|done].
      destruct (I7 id t Ht) as [? _]; [by rewrite E|congruence].
    + destruct (Z.eq_dec (scheduler.cronEntry t) 0) as [|Hne]; [done|].
      destruct (I6 _ _ Ht Hne). congruence.
Qed.

End SessionProps.

(** ** Validation of a pair *)

Section ValidationProps.

Variable windows : bool.
Variable IsAbs : string -> bool.
Variable ParseDuration : string -> option Z.
Variable ParseClock : string -> option Z.

Lemma normalizeWindowsLongPath_twice (path : string) :
  normalizeWindowsLongPath IsAbs (normalizeWindowsLongPath IsAbs path)
  = normalizeWindowsLongPath IsAbs path.
Proof.
  unfold normalizeWindowsLongPath.
  destruct (String.eqb_spec path "") as [->|Hne]; [done|].
  destruct (HasPrefix path "\\?\") eqn:H1; [by rewrite H1; destruct (String.eqb path "")|].
  destruct (HasPrefix path "\\") eqn:H2; [done|].
  destruct (IsAbs path) eqn:H3; [by destruct path|].
  destruct (String.eqb_spec path ""); [done|]. by rewrite H1, H2, H3.
Qed.

Lemma normalizeWindowsLongPath_nonempty (path : string) :
  path <> "" -> normalizeWindowsLongPath IsAbs path <> "".
Proof.
  intros Hne. unfold normalizeWindowsLongPath.
  destruct (String.eqb_spec path ""); [done|].
  repeat match goal with |- context [if ?b then _ else _] => destruct b end;
    try done; by destruct path.
Qed.

(** The schedule types [validateScheduleConfiguration] lets through. *)
Lemma validateScheduleConfiguration_type (schedule : scheduler.Schedule) :
  validateScheduleConfiguration ParseDuration ParseClock schedule = None ->
  scheduler.SType schedule ∈
    [scheduler.ScheduleTypeDisabled; scheduler.ScheduleTypeWatcher;
     scheduler.ScheduleTypeInterval; scheduler.ScheduleTypeCron;
     scheduler.ScheduleTypeCustom].
Proof.
  unfold validateScheduleConfiguration.
  destruct (String.eqb_spec (scheduler.SType schedule) scheduler.ScheduleTypeDisabled)
    as [->|_]; [intros _; set_solver|].
  destruct (String.eqb_spec (scheduler.SType schedule) scheduler.ScheduleTypeWatcher)
    as [->|_]; [intros _; set_solver|].
  destruct (String.eqb_spec (scheduler.SType schedule) scheduler.ScheduleTypeInterval)
    as [->|_]; [intros _; set_solver|].
  destruct (String.eqb_spec (scheduler.SType schedule) scheduler.ScheduleTypeCron)
    as [->|_]; [intros _; set_solver|].
  destruct (String.eqb_spec (scheduler.SType schedule) scheduler.ScheduleTypeCustom)
    as [->|_]; [intros _; set_solver|]. done.
Qed.

Lemma ValidatePair_ok (pair pair' : Pair) :
  ValidatePair windows IsAbs ParseDuration ParseClock pair = (pair', None) ->
  ID pair <> "" /\ Source pair <> "" /\ Target pair <> ""
  /\ validateScheduleConfiguration ParseDuration ParseClock (Schedule pair) = None
  /\ pair' =
     {| ID := ID pair; Enabled := Enabled pair;
        Source := if windows then normalizeWindowsLongPath IsAbs (Source pair)
                  else Source pair;
        Target := if windows then normalizeWindowsLongPath IsAbs (Target pair)
                  else Target pair;
        IncludeExt := normalizeIncludeExtensions (IncludeExt pair);
        ExcludeGlobs := ExcludeGlobs pair;
        SyncStrategy := if String.eqb (SyncStrategy pair) "" then DefaultSyncStrategy
                        else SyncStrategy pair;
        DebounceMs := if DebounceMs pair <=? 0 then DefaultDebounceMs else DebounceMs pair;
        MirrorDeletes := MirrorDeletes pair; Hooks := Hooks pair;
        Schedule := Schedule pair; Description := Description pair |}.
Proof.
  unfold ValidatePair. intros H.
  destruct (String.eqb_spec (ID pair) ""); [done|].
  destruct (String.eqb_spec (Source pair) ""); [done|].
  destruct (String.eqb_spec (Target pair) ""); [done|].
  cbn [orb] in H.
  assert (Hs : validateScheduleConfiguration ParseDuration ParseClock (Schedule pair) = None).
  { destruct windows; cbn in H;
      by destruct (validateScheduleConfiguration _ _ (Schedule pair)). }
  split_and!; try done.
  assert (Hty : String.eqb (scheduler.SType (Schedule pair)) "" = false).
  { apply validateScheduleConfiguration_type in Hs.
    destruct (String.eqb_spec (scheduler.SType (Schedule pair)) "") as [E|]; [|done].
    rewrite E in Hs. set_solver. }
  destruct windows; cbn in H; rewrite Hs in H; injection H as <-;
    unfold applyPairDefaults, set_IncludeExt; cbn; by rewrite Hty.
Qed.

(** X14. What [ValidatePair] accepts.  A pair it accepts has a non-empty
    id, source and target, a schedule of one of the five known types, which
    it leaves as it is (a blank type is an error, never defaulted), a
    positive debounce time, a sync strategy, and an include list in normal
    form. *)
Theorem ValidatePair_accepts_well_formed (pair pair' : Pair) :
  ValidatePair windows IsAbs ParseDuration ParseClock pair = (pair', None) ->
  ID pair' = ID pair /\ ID pair' <> "" /\ Source pair' <> "" /\ Target pair' <> ""
  /\ Schedule pair' = Schedule pair
  /\ scheduler.SType (Schedule pair') ∈
       [scheduler.ScheduleTypeDisabled; scheduler.ScheduleTypeWatcher;
        scheduler.ScheduleTypeInterval; scheduler.ScheduleTypeCron;
        scheduler.ScheduleTypeCustom]
  /\ 0 < DebounceMs pair' /\ SyncStrategy pair' <> ""
  /\ NoDup (IncludeExt pair')
  /\ forall e, e ∈ IncludeExt pair' ->
       HasPrefix e "." = true /\ TrimSpace e = e /\ ToLower e = e /\ e <> ".*".
Proof.
  intros H. apply ValidatePair_ok in H as (H1 & H2 & H3 & Hs & ->). cbn.
  destruct (normalizeIncludeExtensions_good (IncludeExt pair)) as [Hg Hn].
  split_and!; try done.
  - destruct windows; [by apply normalizeWindowsLongPath_nonempty|done].
  - destruct windows; [by apply normalizeWindowsLongPath_nonempty|done].
  - by apply validateScheduleConfiguration_type.
  - destruct (Z.leb_spec (DebounceMs pair) 0); [done|lia].
  - by destruct (String.eqb_spec (SyncStrategy pair) "").
  - intros e He. rewrite Forall_forall in Hg. exact (Hg e He).
Qed.

(** X15. [ValidatePair] is idempotent: a pair it has accepted and put into
    normal form is accepted again and comes back unchanged. *)
Theorem ValidatePair_idempotent (pair pair' : Pair) :
  ValidatePair windows IsAbs ParseDuration ParseClock pair = (pair', None) ->
  ValidatePair windows IsAbs ParseDuration ParseClock pair' = (pair', None).
Proof.
  intros H. apply ValidatePair_ok in H as (H1 & H2 & H3 & Hs & ->).
  destruct (normalizeIncludeExtensions_good (IncludeExt pair)) as [Hg Hn].
  unfold ValidatePair. cbn.
  destruct (String.eqb_spec (ID pair) ""); [done|].
  assert (Hty : String.eqb (scheduler.SType (Schedule pair)) "" = false).
  { apply validateScheduleConfiguration_type in Hs.
    destruct (String.eqb_spec (scheduler.SType (Schedule pair)) "") as [E|]; [|done].
    rewrite E in Hs. set_solver. }
  assert (Hdeb : forall d, (if (if d <=? 0 then DefaultDebounceMs else d) <=? 0
                            then DefaultDebounceMs else (if d <=? 0 then DefaultDebounceMs else d))
                           = (if d <=? 0 then DefaultDebounceMs else d)).
  { intros d. destruct (Z.leb_spec d 0); [done|]. destruct (Z.leb_spec d 0); [lia|done]. }
  assert (Hstr : forall x, (if String.eqb (if String.eqb x "" then DefaultSyncStrategy else x) ""
                            then DefaultSyncStrategy
                            else (if String.eqb x "" then DefaultSyncStrategy else x))
                           = (if String.eqb x "" then DefaultSyncStrategy else x)).
  { intros x. destruct (String.eqb_spec x ""); [done|]. by destruct (String.eqb_spec x ""). }
  destruct windows; cbn.
  - pose proof (normalizeWindowsLongPath_nonempty _ H2) as N2.
    pose proof (normalizeWindowsLongPath_nonempty _ H3) as N3.
    destruct (String.eqb_spec (normalizeWindowsLongPath IsAbs (Source pair)) ""); [done|].
    destruct (String.eqb_spec (normalizeWindowsLongPath IsAbs (Target pair)) ""); [done|].
    cbn. rewrite Hs. unfold applyPairDefaults, set_IncludeExt. cbn.
    by rewrite !normalizeWindowsLongPath_twice, (normalizeIncludeExtensions_fixed _ Hg Hn),
      Hty, Hdeb, Hstr.
  - destruct (String.eqb_spec (Source pair) ""); [done|].
    destruct (String.eqb_spec (Target pair) ""); [done|].
    cbn. rewrite Hs. unfold applyPairDefaults, set_IncludeExt. cbn.
    by rewrite (normalizeIncludeExtensions_fixed _ Hg Hn), Hty, Hdeb, Hstr.
Qed.

End ValidationProps.

(** ** Pairs are handled one at a time *)

Section IsolationProps.

Variable ParseDuration : string -> option Z.
Variable ParseClock : string -> option Z.
Variable CronParse : string -> option (Z -> Z).

(** A call on the scheduler leaves the tasks filed under other ids alone. *)
Lemma AddTask_frame now s id name schedule id' :
  id' <> id ->
  scheduler.tasks (scheduler.AddTask ParseDuration ParseClock CronParse now s id name
                     schedule).1 !! id'
  = scheduler.tasks s !! id'.
Proof.
  intros Hne. unfold scheduler.AddTask. destruct (scheduler.tasks s !! id); [done|].
  match goal with |- context [scheduler.scheduleTask _ _ _ now s ?t] =>
    destruct (scheduler.scheduleTask ParseDuration ParseClock CronParse now s t)
      as [[s1 t1] [err|]] eqn:Hs end;
    pose proof (scheduleTask_keeps _ _ _ _ _ _ _ _ _ Hs) as (K & _); cbn.
  - by rewrite K.
  - by rewrite lookup_insert_ne, K.
Qed.

Lemma AddTask_error now s id name schedule s' err :
  scheduler.AddTask ParseDuration ParseClock CronParse now s id name schedule
  = (s', Some err) -> s' = s.
Proof.
  unfold scheduler.AddTask. destruct (scheduler.tasks s !! id); [by intros [= <-]|].
  match goal with |- context [scheduler.scheduleTask _ _ _ now s ?t] =>
    destruct (scheduler.scheduleTask ParseDuration ParseClock CronParse now s t)
      as [[s1 t1] [e|]] eqn:Hs end; [|done].
  apply scheduleTask_error in Hs as [-> _]. by intros [= <-].
Qed.

Lemma RemoveTask_frame s id id' :
  id' <> id ->
  scheduler.tasks (scheduler.RemoveTask s id).1 !! id' = scheduler.tasks s !! id'.
Proof.
  intros Hne. unfold scheduler.RemoveTask.
  destruct (scheduler.tasks s !! id) as [t|]; [|done].
  destruct (scheduler.unscheduleTask s t) as [s1 t1] eqn:Hu.
  apply unscheduleTask_keeps in Hu as (K & _). cbn. by rewrite lookup_delete_ne, K.
Qed.

Lemma RemoveTask_gone s id :
  scheduler.tasks (scheduler.RemoveTask s id).1 !! id = None.
Proof.
  unfold scheduler.RemoveTask.
  destruct (scheduler.tasks s !! id) as [t|] eqn:Hl; [|done].
  destruct (scheduler.unscheduleTask s t) as [s1 t1] eqn:Hu. cbn.
  by rewrite lookup_delete_eq.
Qed.

Lemma UpdateTask_frame now s id schedule id' :
  id' <> id ->
  scheduler.tasks (scheduler.UpdateTask ParseDuration ParseClock CronParse now s id
                     schedule).1 !! id'
  = scheduler.tasks s !! id'.
Proof.
  intros Hne. unfold scheduler.UpdateTask.
  destruct (scheduler.tasks s !! id) as [t|]; [|done].
  destruct (scheduler.unscheduleTask s t) as [s1 t1] eqn:Hu.
  apply unscheduleTask_keeps in Hu as (K & _).
  destruct (scheduler.Enabled _).
  - match goal with |- context [scheduler.scheduleTask _ _ _ now s1 ?u] =>
      destruct (scheduler.scheduleTask ParseDuration ParseClock CronParse now s1 u)
        as [[s2 t3] [err|]] eqn:Hs end;
      pose proof (scheduleTask_keeps _ _ _ _ _ _ _ _ _ Hs) as (K2 & _); cbn;
      by rewrite lookup_insert_ne, K2, K.
  - cbn. by rewrite lookup_insert_ne, K.
Qed.

Lemma EnableTask_frame now s id id' :
  id' <> id ->
  scheduler.tasks (scheduler.EnableTask ParseDuration ParseClock CronParse now s id).1 !! id'
  = scheduler.tasks s !! id'.
Proof.
  intros Hne. unfold scheduler.EnableTask.
  destruct (scheduler.tasks s !! id) as [t|]; [|done].
  destruct (scheduler.Enabled t); [done|].
  destruct (scheduler.scheduleTask _ _ _ _ _ _) as [[s1 t1] e] eqn:Hs.
  pose proof (scheduleTask_keeps _ _ _ _ _ _ _ _ _ Hs) as (K & _). cbn.
  by rewrite lookup_insert_ne, K.
Qed.

Lemma DisableTask_frame s id id' :
  id' <> id ->
  scheduler.tasks (scheduler.DisableTask s id).1 !! id' = scheduler.tasks s !! id'.
Proof.
  intros Hne. unfold scheduler.DisableTask.
  destruct (scheduler.tasks s !! id) as [t|]; [|done].
  destruct (negb (scheduler.Enabled t)); [done|].
  destruct (scheduler.unscheduleTask _ _) as [s1 t1] eqn:Hu.
  apply unscheduleTask_keeps in Hu as (K & _). cbn. by rewrite lookup_insert_ne, K.
Qed.

Lemma RunTaskNow_frame now out s id id' :
  id' <> id ->
  scheduler.tasks (scheduler.RunTaskNow now out s id).1 !! id' = scheduler.tasks s !! id'.
Proof.
  intros Hne. unfold scheduler.RunTaskNow.
  destruct (scheduler.tasks s !! id) as [t|]; [|done]. cbn. by rewrite lookup_insert_ne.
Qed.

Lemma StartPair_frame now pm pair id' :
  id' <> ID pair ->
  let pm' := (StartPair ParseDuration ParseClock CronParse now pm pair).1 in
  scheduler.tasks (sched pm') !! id' = scheduler.tasks (sched pm) !! id'
  /\ workers pm' !! id' = workers pm !! id'.
Proof.
  intros Hne. cbn zeta. unfold StartPair.
  set (pm1 := match workers pm !! ID pair with Some _ => _ | None => pm end).
  assert (H1 : scheduler.tasks (sched pm1) !! id' = scheduler.tasks (sched pm) !! id'
               /\ workers pm1 !! id' = workers pm !! id').
  { subst pm1. destruct (workers pm !! ID pair); [|done].
    pose proof (RemoveTask_frame (sched pm) (ID pair) id' Hne) as F.
    destruct (scheduler.RemoveTask (sched pm) (ID pair)) as [s1 e]. cbn in *.
    by rewrite lookup_delete_ne. }
  destruct H1 as [T1 W1].
  match goal with |- context [scheduler.AddTask _ _ _ now (sched pm1) (ID pair) ?d ?sc] =>
    pose proof (AddTask_frame now (sched pm1) (ID pair) d sc id' Hne) as F;
    destruct (scheduler.AddTask ParseDuration ParseClock CronParse now (sched pm1)
                (ID pair) d sc) as [s2 [err|]] end; cbn in F.
  - cbn. by rewrite F, T1, W1.
  - destruct (String.eqb _ _); cbn; rewrite ?lookup_insert_ne by done; by rewrite F, T1, W1.
Qed.

Lemma StopPair_frame pm id id' :
  id' <> id ->
  let pm' := (StopPair pm id).1 in
  scheduler.tasks (sched pm') !! id' = scheduler.tasks (sched pm) !! id'
  /\ workers pm' !! id' = workers pm !! id'.
Proof.
  intros Hne. cbn zeta. unfold StopPair.
  pose proof (RemoveTask_frame (sched pm) id id' Hne) as F.
  destruct (scheduler.RemoveTask (sched pm) id) as [s1 e]. cbn in *.
  split; [done|]. destruct (workers pm !! id); [by rewrite lookup_delete_ne|done].
Qed.

Lemma UpdatePair_frame now pm pair id' :
  id' <> ID pair ->
  let pm' := (UpdatePair ParseDuration ParseClock CronParse now pm pair).1 in
  scheduler.tasks (sched pm') !! id' = scheduler.tasks (sched pm) !! id'
  /\ workers pm' !! id' = workers pm !! id'.
Proof.
  intros Hne. cbn zeta. unfold UpdatePair.
  pose proof (UpdateTask_frame now (sched pm) (ID pair) (Schedule pair) id' Hne) as F.
  destruct (scheduler.UpdateTask _ _ _ _ _ _ _) as [s1 [err|]]; cbn in F; [done|].
  destruct (String.eqb _ _), (workers pm !! ID pair); cbn;
    rewrite ?lookup_insert_ne, ?lookup_delete_ne by done; done.
Qed.

(** X16. Pairs do not interfere: a call on the manager about one pair
    (start, stop, update, sync now, enable, disable), whether it succeeds
    or fails, leaves the task and the watcher of every other pair as they
    were. *)
Theorem calls_leave_other_pairs_alone (now : Z) (pm : PairManager) (c : Call)
    (id' : string) :
  id' <> call_id c ->
  let pm' := (do_call ParseDuration ParseClock CronParse now pm c).1 in
  scheduler.tasks (sched pm') !! id' = scheduler.tasks (sched pm) !! id'
  /\ workers pm' !! id' = workers pm !! id'.
Proof.
  intros Hne. cbn zeta. destruct c as [p|pairID|p|pairID out|id|id]; cbn in Hne |- *.
  - by apply StartPair_frame.
  - by apply StopPair_frame.
  - by apply UpdatePair_frame.
  - unfold SyncPairNow.
    pose proof (RunTaskNow_frame now out (sched pm) pairID id' Hne) as F.
    by destruct (scheduler.RunTaskNow _ _ _ _).
  - pose proof (EnableTask_frame now (sched pm) id id' Hne) as F.
    by destruct (scheduler.EnableTask _ _ _ _ _ _).
  - pose proof (DisableTask_frame (sched pm) id id' Hne) as F.
    by destruct (scheduler.DisableTask _ _).
Qed.

(** X17. [StopPair] leaves nothing of the pair behind: after the call there
    is neither a task nor a watcher for the id, whatever was there before;
    and the call returns an error exactly when no task was registered, even
    if it has just stopped a watcher. *)
Theorem StopPair_removes_task_and_watcher (pm : PairManager) (pairID : string) :
  let r := StopPair pm pairID in
  scheduler.tasks (sched r.1) !! pairID = None
  /\ workers r.1 !! pairID = None
  /\ (r.2 = None <-> is_Some (scheduler.tasks (sched pm) !! pairID)).
Proof.
  cbn zeta. unfold StopPair.
  pose proof (RemoveTask_gone (sched pm) pairID) as G.
  assert (E : (scheduler.RemoveTask (sched pm) pairID).2 = None
              <-> is_Some (scheduler.tasks (sched pm) !! pairID)).
  { unfold scheduler.RemoveTask. destruct (scheduler.tasks (sched pm) !! pairID) as [t|].
    - destruct (scheduler.unscheduleTask _ _). cbn. split; [eauto|done].
    - cbn. split; [done|]. by intros [? ?]. }
  destruct (scheduler.RemoveTask (sched pm) pairID) as [s1 e]. cbn in *.
  split; [done|]. split; [|done].
  destruct (workers pm !! pairID) eqn:W; [by rewrite lookup_delete_eq|done].
Qed.

(** X18. A failed restart stops the pair.  [StartPair] on a pair whose
    watcher is running first stops the watcher and removes the task; if the
    new task cannot then be added (its schedule cannot be set up), the
    error is returned and the pair is left with neither task nor watcher. *)
Theorem StartPair_failure_stops_watcher (now : Z) (pm pm' : PairManager) (pair : Pair)
    (worker : PairWorker) (err : scheduler.SchedError) :
  workers pm !! ID pair = Some worker ->
  StartPair ParseDuration ParseClock CronParse now pm pair = (pm', Some err) ->
  scheduler.tasks (sched pm') !! ID pair = None /\ workers pm' !! ID pair = None.
Proof.
  intros Hw. unfold StartPair. rewrite Hw.
  pose proof (RemoveTask_gone (sched pm) (ID pair)) as G.
  destruct (scheduler.RemoveTask (sched pm) (ID pair)) as [s1 e]. cbn in G |- *.
  match goal with |- context [scheduler.AddTask _ _ _ now s1 (ID pair) ?d ?sc] =>
    destruct (scheduler.AddTask ParseDuration ParseClock CronParse now s1
                (ID pair) d sc) as [s2 [err'|]] eqn:A end.
  - apply AddTask_error in A as ->. intros [= <- _]. cbn. by rewrite lookup_delete_eq.
  - destruct (String.eqb (scheduler.SType _) _); cbn; intros H; discriminate H.
Qed.

End IsolationProps.

(** ** Where a run writes *)

Lemma stays_within_of_touches (S : list string) (P : string -> Prop) w w' :
  touches_only S w w' -> (forall p, p ∈ S -> P p) -> stays_within P w w'.
Proof.
  intros (new & Hs & Hall) HS. exists new. split; [done|].
  eapply Forall_impl; [exact Hall|]. cbn. intros ev Hev p Hp. apply Hev.
  intros Hin. by apply Hp, HS.
Qed.

Lemma stays_within_frame (P : string -> Prop) w w' p :
  stays_within P w w' -> ~ P p -> fs w' !! p = fs w !! p.
Proof.
  intros (new & [Ht Hf] & Hall) Hp. rewrite Hf. destruct new as [|ev new]; [done|].
  by apply Forall_cons in Hall as [Hev _]; apply Hev.
Qed.

Lemma stays_within_trans (P : string -> Prop) w w1 w2 :
  stays_within P w w1 -> stays_within P w1 w2 -> stays_within P w w2.
Proof.
  intros H1 (new2 & [Ht2 Hf2] & Hall2).
  pose proof H1 as (new1 & [Ht1 Hf1] & Hall1).
  exists (new2 ++ new1)%list. split; [split|].
  - by rewrite Ht2, Ht1, app_assoc.
  - rewrite Hf2. destruct new2 as [|ev2 new2]; [|done]. done.
  - apply Forall_app. split; [|done].
    eapply Forall_impl; [exact Hall2|]. cbn. intros ev Hev p Hp.
    rewrite Hev by done. by eapply stays_within_frame.
Qed.

Lemma stays_within_refl (P : string -> Prop) w w' :
  trace w' = trace w -> fs w' = fs w -> stays_within P w w'.
Proof. intros Ht Hf. exists []. split; [split|]; done. Qed.

Lemma touches_nothing_within (P : string -> Prop) w w' :
  touches_only [] w w' -> stays_within P w w'.
Proof. intros H. eapply stays_within_of_touches; [exact H|]. intros p Hp. set_solver. Qed.

Section WhereRunsWrite.

Variable windows : bool.
Variable PathMatch : string -> string -> bool.
Variable sha256 : string -> string.

Lemma calculateFileHash_touch p w r w' :
  calculateFileHash sha256 p w = (r, w') -> touches_only [] w w'.
Proof.
  intros H. unfold calculateFileHash in H.
  bind_step H e w1 H1. apply (os_Open_spec []) in H1 as (T1 & F1 & _).
  destruct e; [by ret_inv H|].
  unfold mbind, M_bind, next_fault, get_fs in H. cbn in H.
  eapply touches_only_trans; [exact T1|].
  destruct (hd NoFault (faults w1)); ret_inv H; by apply touches_only_refl.
Qed.

Lemma compareByHash_touch a b w r w' :
  compareByHash sha256 a b w = (r, w') -> touches_only [] w w'.
Proof.
  intros H. unfold compareByHash in H.
  bind_step H r1 w1 H1. destruct r1 as [h1 e1]. apply calculateFileHash_touch in H1.
  destruct e1; [by ret_inv H|].
  bind_step H r2 w2 H2. destruct r2 as [h2 e2]. apply calculateFileHash_touch in H2.
  destruct e2; ret_inv H; by eapply touches_only_trans.
Qed.

Lemma isFileChanged_touch src pair rel w r w' :
  isFileChanged sha256 src pair rel w = (r, w') -> touches_only [] w w'.
Proof.
  intros H. unfold isFileChanged in H.
  bind_step H si w1 H1. apply os_Stat_spec in H1 as (-> & ->).
  destruct (stat_of w src) as [sinfo|sinfo| |];
    try (ret_inv H; by apply touches_only_refl).
  all: bind_step H ti w2 H2; apply os_Stat_spec in H2 as (-> & ->);
    destruct (stat_of w (Join (Target pair) rel)) as [tinfo|tinfo| |];
      try (ret_inv H; by apply touches_only_refl);
    unfold filesAreDifferent in H;
    (destruct (String.eqb _ _); [by eapply compareByHash_touch|]);
    ret_inv H; by apply touches_only_refl.
Qed.

Lemma run_hooks_from_touch i hooks rel w r w' :
  run_hooks_from windows PathMatch i hooks rel w = (r, w') -> touches_only [] w w'.
Proof.
  revert i w. induction hooks as [|h hooks IH]; intros i w H; cbn in H.
  - ret_inv H. by apply touches_only_refl.
  - bind_step H u w1 H1. apply IH in H.
    eapply touches_only_trans; [|exact H].
    destruct (shouldTriggerHook _ _ _ _); [|ret_inv H1; by apply touches_only_refl].
    unfold mbind, M_bind, get_fs, emit in H1. inversion H1; subst.
    by apply touches_only_one.
Qed.

Lemma copyFile_touch src pair rel w r w' :
  copyFile src pair rel w = (r, w') ->
  touches_only [Join (Target pair) rel ++ ".tmp"; Join (Target pair) rel] w w'.
Proof.
  intros H. unfold copyFile in H.
  bind_step H e w1 H1. apply (os_MkdirAll_spec [Join (Target pair) rel ++ ".tmp";
                                                Join (Target pair) rel]) in H1 as (T1 & _).
  destruct e; [by ret_inv H|]. destruct r as [n err].
  apply copyAtomic_spec in H as (T & _). by eapply touches_only_trans.
Qed.

Lemma under_tmp (root rel : string) : under root (Join root rel ++ ".tmp") = true.
Proof. rewrite <- Join_tmp. apply under_Join. Qed.

Lemma syncEntry_within pair path res w r w' :
  syncEntry windows PathMatch sha256 pair path res w = (r, w') ->
  stays_within (fun p => under (Target pair) p = true) w w'.
Proof.
  intros H. unfold syncEntry in H.
  destruct (Rel (Source pair) path) as [rel|]; [|ret_inv H; by apply stays_within_refl].
  destruct (negb (shouldSyncFile _ _ _ _ _)); [ret_inv H; by apply stays_within_refl|].
  bind_step H r1 w1 H1. destruct r1 as [changed e1].
  apply isFileChanged_touch, (touches_nothing_within (fun p => under (Target pair) p = true))
    in H1.
  destruct e1; [by ret_inv H|].
  destruct (negb changed); [by ret_inv H|].
  bind_step H r2 w2 H2. destruct r2 as [bytes e2].
  apply copyFile_touch in H2.
  apply (stays_within_of_touches _ (fun p => under (Target pair) p = true)) in H2.
  2: { intros p Hp. apply elem_of_cons in Hp as [->|Hp]; [apply under_tmp|].
       apply list_elem_of_singleton in Hp as ->. apply under_Join. }
  pose proof (stays_within_trans _ _ _ _ H1 H2) as H12.
  destruct e2; [by ret_inv H|].
  bind_step H u3 w3 H3. apply (log_msg_spec []) in H3 as (T3 & _).
  bind_step H u4 w4 H4. apply run_hooks_from_touch in H4. ret_inv H.
  eapply stays_within_trans; [exact H12|].
  apply touches_nothing_within. by eapply touches_only_trans.
Qed.

Lemma mirrorEntry_within pair path res w r w' :
  mirrorEntry pair path res w = (r, w') ->
  stays_within (fun p => under (Target pair) p = true) w w'.
Proof.
  intros H. unfold mirrorEntry in H.
  destruct (Rel (Target pair) path) as [rel|] eqn:Hrel;
    [|ret_inv H; by apply stays_within_refl].
  apply Rel_Some in Hrel as ->.
  bind_step H si w1 H1. apply os_Stat_spec in H1 as (-> & ->).
  destruct (stat_of w _); try (ret_inv H; by apply stays_within_refl).
  bind_step H e w2 H2. apply os_Remove_spec in H2 as (T2 & _).
  apply (stays_within_of_touches _ (fun p => under (Target pair) p = true)) in T2.
  2: { intros p Hp. apply list_elem_of_singleton in Hp as ->. apply under_Join. }
  eapply stays_within_trans; [exact T2|]. apply touches_nothing_within.
  destruct e; bind_step H u w3 H3; apply (log_msg_spec []) in H3 as (T3 & _);
    by ret_inv H.
Qed.

Lemma walk_with_within (P : string -> Prop)
    (f : string -> SyncResult -> M (SyncResult * option OSError)) l res w r w' :
  (forall p res w r w', f p res w = (r, w') -> stays_within P w w') ->
  walk_with f l res w = (r, w') -> stays_within P w w'.
Proof.
  intros Hf. revert res w. induction l as [|p l IH]; intros res w H; cbn in H.
  - ret_inv H. by apply stays_within_refl.
  - bind_step H r1 w1 H1. destruct r1 as [res1 e1]. apply Hf in H1.
    destruct e1; [by ret_inv H|]. apply IH in H. by eapply stays_within_trans.
Qed.

Lemma WalkDir_touch root w r w' : WalkDir root w = (r, w') -> touches_only [] w w'.
Proof.
  intros H. unfold WalkDir in H. run_prim H; by apply touches_only_one.
Qed.

Lemma performSync_within pair w r w' :
  performSync windows PathMatch sha256 pair w = (r, w') ->
  stays_within (fun p => under (Target pair) p = true) w w'.
Proof.
  intros H. unfold performSync in H.
  bind_step H e w1 H1. apply (os_MkdirAll_spec []) in H1 as (T1 & _).
  apply (touches_nothing_within (fun p => under (Target pair) p = true)) in T1.
  destruct e; [by ret_inv H|].
  bind_step H r2 w2 H2. destruct r2 as [res2 e2].
  assert (T2 : stays_within (fun p => under (Target pair) p = true) w1 w2).
  { unfold syncSourceToTarget in H2.
    bind_step H2 r3 w3 H3. destruct r3 as [paths e3].
    apply WalkDir_touch, (touches_nothing_within (fun p => under (Target pair) p = true))
      in H3.
    destruct e3; [by ret_inv H2|].
    eapply stays_within_trans; [exact H3|].
    eapply walk_with_within; [|exact H2]. intros. by eapply syncEntry_within. }
  pose proof (stays_within_trans _ _ _ _ T1 T2) as T12.
  destruct e2; [by ret_inv H|].
  destruct (MirrorDeletes pair); [|by ret_inv H].
  eapply stays_within_trans; [exact T12|].
  unfold mirrorDeletions in H.
  bind_step H r3 w3 H3. destruct r3 as [paths e3].
  apply WalkDir_touch, (touches_nothing_within (fun p => under (Target pair) p = true))
    in H3.
  destruct e3; [by ret_inv H|].
  eapply stays_within_trans; [exact H3|].
  eapply walk_with_within; [|exact H]. intros. by eapply mirrorEntry_within.
Qed.


End WhereRunsWrite.

Section WatcherWrites.

Variable windows : bool.
Variable PathMatch : string -> string -> bool.

Lemma retry_loop_touch n i delays src dst e w r w' :
  retry_loop n i delays src dst e w = (r, w') ->
  touches_only [dst ++ ".tmp"; dst] w w'.
Proof.
  revert i e w. induction delays as [|d delays IH]; intros i e w H; cbn in H.
  - ret_inv H. by apply touches_only_refl.
  - bind_step H r1 w1 H1. destruct r1 as [n1 e1].
    apply copyAtomic_spec in H1 as (T1 & _).
    destruct e1 as [e1|]; [|by ret_inv H].
    bind_step H u w2 H2.
    assert (T2 : touches_only [dst ++ ".tmp"; dst] w1 w2).
    { match type of H2 with (if ?b then _ else _) _ = _ => destruct b end;
        [by apply (time_Sleep_spec [dst ++ ".tmp"; dst]) in H2 as (? & _)|].
      ret_inv H2. by apply touches_only_refl. }
    apply IH in H. eapply touches_only_trans; [|exact H]. by eapply touches_only_trans.
Qed.

(** X20. For a pair without hooks, handling one change event writes at two
    paths at most, log output aside: whatever happens (the source is gone, is a directory,
    is filtered out or locked, the copy fails and is retried),
    [handleFileModification] changes no file other than the target file of
    that event and its temp file, at any moment of the run. *)
Theorem handleFileModification_touches_its_target_only (pair : Pair)
    (sourcePath relativePath : string) (w : World) :
  Hooks pair = [] ->
  let dst := Join (Target pair) relativePath in
  touches_only [dst ++ ".tmp"; dst] w
    (handleFileModification windows PathMatch pair sourcePath relativePath w).2.
Proof.
  intros _. cbn zeta.
  destruct (handleFileModification windows PathMatch pair sourcePath relativePath w)
    as [r w'] eqn:H. cbn.
  set (dst := Join (Target pair) relativePath) in *.
  unfold handleFileModification in H. fold dst in H.
  bind_step H fi w1 H1. apply os_Stat_spec in H1 as (-> & ->).
  destruct (stat_of w sourcePath) as [info|info| |].
  2: { ret_inv H. by apply touches_only_refl. }
  - destruct (negb (MatchesInclude _ _ _)); [ret_inv H; by apply touches_only_refl|].
    bind_step H e w2 H2. apply (os_MkdirAll_spec [dst ++ ".tmp"; dst]) in H2 as (T2 & _).
    destruct e; [by ret_inv H|].
    bind_step H ce w3 H3. apply retry_loop_touch in H3.
    eapply touches_only_trans; [exact T2|]. eapply touches_only_trans; [exact H3|].
    destruct ce.
    + by apply (log_msg_spec [dst ++ ".tmp"; dst]) in H as (? & _).
    + bind_step H u w4 H4. apply (log_msg_spec [dst ++ ".tmp"; dst]) in H4 as (T4 & _).
      eapply touches_only_trans; [exact T4|].
      apply run_hooks_from_touch in H.
      eapply touches_only_mono; [|exact H]. set_solver.
  - destruct (MirrorDeletes pair); [|ret_inv H; by apply touches_only_refl].
    bind_step H u w2 H2. apply (time_Sleep_spec [dst ++ ".tmp"; dst]) in H2 as (T2 & _).
    eapply touches_only_trans; [exact T2|].
    bind_step H again w3 H3. apply os_Stat_spec in H3 as (-> & ->).
    destruct (stat_of w2 sourcePath); try (ret_inv H; by apply touches_only_refl).
    bind_step H e w4 H4. apply os_Remove_spec in H4 as (T4 & _). ret_inv H.
    eapply touches_only_mono; [|exact T4]. set_solver.
  - destruct (MirrorDeletes pair); [|ret_inv H; by apply touches_only_refl].
    bind_step H u w2 H2. apply (time_Sleep_spec [dst ++ ".tmp"; dst]) in H2 as (T2 & _).
    eapply touches_only_trans; [exact T2|].
    bind_step H again w3 H3. apply os_Stat_spec in H3 as (-> & ->).
    destruct (stat_of w2 sourcePath); try (ret_inv H; by apply touches_only_refl).
    bind_step H e w4 H4. apply os_Remove_spec in H4 as (T4 & _). ret_inv H.
    eapply touches_only_mono; [|exact T4]. set_solver.
Qed.

End WatcherWrites.

(** ** Saving the configuration *)

Lemma file_Write_spec p content w r w' :
  file_Write p content w = (r, w') ->
  touches_only [p] w w'
  /\ (r = None -> fs w' = alter (append_data content) p (fs w)).
Proof.
  intros H. unfold file_Write in H.
  bind_step H f w1 H1. unfold next_fault in H1. inversion H1; subst; clear H1.
  destruct (hd NoFault (faults w)); bind_step H u w2 H2;
    apply os_Write_spec in H2 as [T2 F2]; ret_inv H.
  all: split; [|done].
  all: destruct T2 as (new & [Ht Hf] & Hall); exists new; split; [split|]; done.
Qed.

Lemma os_WriteFile_spec p content w r w' :
  os_WriteFile p content w = (r, w') ->
  touches_only [p] w w'
  /\ (r = None -> data <$> fs w' !! p = Some content).
Proof.
  intros H. unfold os_WriteFile in H.
  bind_step H e1 w1 H1. apply os_Create_spec in H1 as (T1 & F1).
  destruct e1; [by ret_inv H|].
  bind_step H e2 w2 H2. apply file_Write_spec in H2 as (T2 & F2).
  bind_step H e3 w3 H3. apply (file_Close_spec [p]) in H3 as (T3 & F3). ret_inv H.
  split; [eapply touches_only_trans; [|exact T3]; by eapply touches_only_trans|].
  destruct e2; [done|]. intros ->. rewrite F3, (F2 eq_refl), F1.
  by rewrite lookup_alter_eq, lookup_insert_eq.
Qed.

(** X21. [config.Save] never damages the configuration file.  When it
    returns an error, no call of the run has written to the file's path: at
    every moment the path holds what it held.  When it succeeds, the path
    holds exactly the new content and the temp file is gone.  Either way
    nothing but the file and its temp file is touched. *)
Theorem Save_replaces_or_keeps (path : string) (encoded : option string) (w : World) :
  let r := Save path encoded w in
  touches_only [path ++ ".tmp"; path] w r.2
  /\ match r.1 with
     | Some _ => touches_only [path ++ ".tmp"] w r.2
     | None =>
         exists content, encoded = Some content
           /\ data <$> fs r.2 !! path = Some content
           /\ fs r.2 !! (path ++ ".tmp") = None
     end.
Proof.
  cbn zeta. destruct (Save path encoded w) as [r w'] eqn:H. cbn.
  unfold Save in H. set (tmp := path ++ ".tmp") in *.
  assert (Hsub : [tmp] ⊆ [tmp; path]) by set_solver.
  destruct encoded as [content|].
  2: { ret_inv H. split; by apply touches_only_refl. }
  bind_step H e1 w1 H1. apply os_WriteFile_spec in H1 as (T1 & C1).
  destruct e1 as [e1|].
  { ret_inv H. split; [by eapply touches_only_mono|done]. }
  specialize (C1 eq_refl).
  bind_step H e2 w2 H2. apply os_Rename_spec in H2.
  destruct e2 as [e2|].
  - destruct H2 as (T2 & F2). bind_step H e3 w3 H3.
    apply os_Remove_spec in H3 as (T3 & _). ret_inv H.
    assert (T : touches_only [tmp] w w').
    { eapply touches_only_trans; [|exact T3]. eapply touches_only_trans; [exact T1|].
      apply T2. }
    split; [by eapply touches_only_mono|done].
  - destruct H2 as (file & Hfile & F2 & Htr). ret_inv H. split.
    + eapply touches_only_trans; [by eapply touches_only_mono|].
      exists [{| call := SysRename tmp path; failed := false; after := fs w' |}].
      split; [split; done|]. apply Forall_singleton. cbn. intros p Hp.
      rewrite F2, lookup_insert_ne, lookup_delete_ne; set_solver.
    + exists content. split; [done|]. rewrite F2. split.
      * rewrite lookup_insert_eq. cbn. rewrite Hfile in C1. by inversion C1.
      * rewrite lookup_insert_ne by (symmetry; apply tmp_ne). by rewrite lookup_delete_eq.
Qed.

(** ** A sync of trees that are in sync *)

Section SyncOfSynced.

Variable windows : bool.
Variable PathMatch : string -> string -> bool.
Variable sha256 : string -> string.

Lemma calculateFileHash_value p w h w' :
  calculateFileHash sha256 p w = ((h, None), w') ->
  h = sha256 (default "" (data <$> fs w !! p)).
Proof.
  intros H. unfold calculateFileHash in H.
  bind_step H e w1 H1. apply (os_Open_spec []) in H1 as (_ & F1 & _).
  destruct e; [by ret_inv H|].
  unfold mbind, M_bind, next_fault, get_fs in H. cbn in H.
  destruct (hd NoFault (faults w1)); ret_inv H. by rewrite F1.
Qed.

Lemma isFileChanged_same src pair rel w s t changed err w' :
  fs w !! src = Some s -> fs w !! Join (Target pair) rel = Some t ->
  same_by sha256 (SyncStrategy pair) s t ->
  isFileChanged sha256 src pair rel w = ((changed, err), w') ->
  changed = false.
Proof.
  intros Hs Ht Hsame H. unfold isFileChanged in H.
  bind_step H si w1 H1. apply os_Stat_spec in H1 as (-> & ->).
  rewrite (stat_of_file _ _ _ Hs) in H.
  bind_step H ti w2 H2. apply os_Stat_spec in H2 as (-> & ->).
  rewrite (stat_of_file _ _ _ Ht) in H.
  unfold filesAreDifferent in H. unfold same_by in Hsame.
  destruct (String.eqb _ _).
  - unfold compareByHash in H.
    bind_step H r1 w1 H1. destruct r1 as [h1 e1].
    destruct e1; [by ret_inv H|].
    pose proof H1 as F1. apply calculateFileHash_fs in F1.
    apply calculateFileHash_value in H1. rewrite Hs in H1. cbn in H1.
    bind_step H r2 w2 H2. destruct r2 as [h2 e2].
    destruct e2; [by ret_inv H|].
    apply calculateFileHash_value in H2. rewrite F1, Ht in H2. cbn in H2.
    ret_inv H. rewrite Hsame. by rewrite String.eqb_refl.
  - by ret_inv H.
Qed.

Lemma syncEntry_synced pair path res w res' err w' :
  in_sync windows PathMatch sha256 pair (fs w) ->
  is_Some (fs w !! path) ->
  syncEntry windows PathMatch sha256 pair path res w = ((res', err), w') ->
  fs w' = fs w /\ FilesCopied res' = FilesCopied res /\ BytesCopied res' = BytesCopied res.
Proof.
  intros [Hin _] [s Hs] H. unfold syncEntry in H.
  destruct (Rel (Source pair) path) as [rel|] eqn:Hrel; [|by ret_inv H].
  apply Rel_Some in Hrel as ->.
  destruct (shouldSyncFile _ _ _ _ _) eqn:Hwant; cbn [negb] in H; [|by ret_inv H].
  destruct (Hin rel s Hs Hwant) as (t & Ht & Hsame).
  bind_step H r1 w1 H1. destruct r1 as [changed e1].
  pose proof H1 as H1'. apply isFileChanged_spec in H1' as (F1 & _).
  apply (isFileChanged_same _ _ _ _ s t) in H1 as ->; try done.
  destruct e1; ret_inv H; done.
Qed.

Lemma sync_walk_synced pair l res w res' err w' :
  in_sync windows PathMatch sha256 pair (fs w) ->
  Forall (fun p => is_Some (fs w !! p)) l ->
  walk_with (syncEntry windows PathMatch sha256 pair) l res w = ((res', err), w') ->
  fs w' = fs w /\ FilesCopied res' = FilesCopied res /\ BytesCopied res' = BytesCopied res.
Proof.
  revert res w. induction l as [|p l IH]; intros res w Hin Hall H; cbn in H.
  { by ret_inv H. }
  apply Forall_cons in Hall as [Hp Hall].
  bind_step H r1 w1 H1. destruct r1 as [res1 e1].
  apply syncEntry_synced in H1 as (F1 & C1 & B1); [|done..].
  destruct e1; [by ret_inv H|].
  apply IH in H as (F & C & B); rewrite ?F1; try done.
  split_and!; congruence.
Qed.

Lemma mirror_walk_synced pair l res w res' err w' :
  MirrorDeletes pair = true ->
  in_sync windows PathMatch sha256 pair (fs w) ->
  Forall (fun p => is_Some (fs w !! p)) l ->
  walk_with (mirrorEntry pair) l res w = ((res', err), w') ->
  fs w' = fs w /\ FilesCopied res' = FilesCopied res /\ BytesCopied res' = BytesCopied res.
Proof.
  intros Hm. revert res w. induction l as [|p l IH]; intros res w Hin Hall H; cbn in H.
  { by ret_inv H. }
  apply Forall_cons in Hall as [Hp Hall].
  bind_step H r1 w1 H1. destruct r1 as [res1 e1].
  assert (E : w1 = w /\ res1 = res).
  { unfold mirrorEntry in H1.
    destruct (Rel (Target pair) p) as [rel|] eqn:Hrel; [|by ret_inv H1].
    apply Rel_Some in Hrel as ->.
    bind_step H1 si w2 H2. apply os_Stat_spec in H2 as (-> & ->).
    destruct (proj2 Hin Hm rel Hp) as [s Hs].
    rewrite (stat_of_file _ _ _ Hs) in H1. by ret_inv H1. }
  destruct E as [-> ->]. destruct e1; [by ret_inv H|]. by apply IH in H.
Qed.

Lemma WalkDir_listing root w paths w' :
  WalkDir root w = ((paths, None), w') ->
  fs w' = fs w /\ Forall (fun p => is_Some (fs w !! p)) paths.
Proof.
  intros H. unfold WalkDir in H. run_prim H. split; [done|].
  apply Forall_forall. intros p Hp. by apply elem_of_walk_files in Hp as [_ ?].
Qed.

Lemma performSync_synced pair w res e w1 :
  in_sync windows PathMatch sha256 pair (fs w) ->
  performSync windows PathMatch sha256 pair w = ((res, e), w1) ->
  fs w1 = fs w /\ FilesCopied res = 0 /\ BytesCopied res = 0.
Proof.
  intros Hin H1. unfold performSync in H1.
  bind_step H1 e0 w0 H0. apply (os_MkdirAll_spec []) in H0 as (_ & F0).
  destruct e0; [by ret_inv H1|].
  bind_step H1 r2 w2 H2. destruct r2 as [res2 e2].
  assert (P2 : fs w2 = fs w /\ FilesCopied res2 = 0 /\ BytesCopied res2 = 0).
  { unfold syncSourceToTarget in H2.
    bind_step H2 r3 w3 H3. destruct r3 as [paths e3].
    destruct e3 as [e3|].
    { unfold WalkDir in H3. run_prim H3; by ret_inv H2. }
    apply WalkDir_listing in H3 as (F3 & Hall).
    apply sync_walk_synced in H2 as (F & C & B).
    - split_and!; [by rewrite F, F3, F0|done|done].
    - by rewrite F3, F0.
    - by rewrite F3. }
  destruct P2 as (F2 & C2 & B2).
  destruct e2; [by ret_inv H1|].
  destruct (MirrorDeletes pair) eqn:Hm; [|by ret_inv H1].
  unfold mirrorDeletions in H1.
  bind_step H1 r3 w3 H3. destruct r3 as [paths e3].
  destruct e3 as [e3|].
  { unfold WalkDir in H3. run_prim H3; by ret_inv H1. }
  apply WalkDir_listing in H3 as (F3 & Hall).
  apply mirror_walk_synced in H1 as (F & C & B).
  - split_and!; congruence.
  - done.
  - by rewrite F3, F2.
  - by rewrite F3.
Qed.

(** X22. Syncing trees that are in sync does nothing.  If every source
    file that passes the filters has a target counterpart that passes for a
    copy of it under the pair's strategy (and, for a mirroring pair, every
    target file has a source counterpart), then [CompareAndSync] reports no
    file and no byte copied and leaves every file as it was, whether or not
    the run meets an error on the way. *)
Theorem CompareAndSync_of_synced_trees (pair : Pair) (w : World) :
  in_sync windows PathMatch sha256 pair (fs w) ->
  let r := CompareAndSync windows PathMatch sha256 pair w in
  r.1.1 = (0, 0) /\ fs r.2 = fs w.
Proof.
  intros Hin. cbn zeta.
  destruct (CompareAndSync windows PathMatch sha256 pair w) as [[[files bytes] err] w'] eqn:H.
  cbn. unfold CompareAndSync in H.
  bind_step H r1 w1 H1. destruct r1 as [res e].
  apply performSync_synced in H1 as (F1 & C1 & B1); [|done].
  destruct e.
  - ret_inv H. split; [congruence|done].
  - bind_step H u w2 H2. apply (log_msg_spec []) in H2 as (_ & F2). ret_inv H.
    split; [congruence|]. by rewrite F2.
Qed.

End SyncOfSynced.

(** ** Runs without faults *)

Ltac quiet_prim H Hq :=
  unfold mbind, M_bind, mret, M_ret, next_fault, get_fs, get_clock, emit in H;
  cbn in H; rewrite ?Hq in H; cbn in H;
  repeat match type of H with
         | context [match ?x with _ => _ end] => destruct x eqn:?
         end;
  cbn in H; inversion H; subst; clear H; cbn.

Lemma os_Open_quiet p w r w' :
  faults w = [] -> os_Open p w = (r, w') ->
  faults w' = [] /\ fs w' = fs w /\ (is_Some (fs w !! p) -> r = None).
Proof.
  intros Hq H. unfold os_Open in H. quiet_prim H Hq; split_and!; try done.
Qed.

Lemma os_Create_quiet p w r w' :
  faults w = [] -> os_Create p w = (r, w') ->
  faults w' = [] /\ r = None
  /\ fs w' = <[p := {| data := ""; mtime := clock w |}]> (fs w).
Proof. intros Hq H. unfold os_Create in H. by quiet_prim H Hq. Qed.

Lemma os_Write_faults p c w r w' : os_Write p c w = (r, w') -> faults w' = faults w.
Proof. intros H. unfold os_Write, mbind, M_bind, get_fs, emit in H. by inversion H. Qed.

Lemma write_chunks_faults p cs w r w' :
  write_chunks p cs w = (r, w') -> faults w' = faults w.
Proof.
  revert w. induction cs as [|c cs IH]; intros w H; cbn in H; [by ret_inv H|].
  bind_step H u w1 H1. apply os_Write_faults in H1. apply IH in H. congruence.
Qed.

Lemma io_CopyBuffer_quiet dst src w r w' :
  faults w = [] -> io_CopyBuffer dst src w = (r, w') ->
  faults w' = [] /\ r.2 = None.
Proof.
  intros Hq H. destruct w as [m oth flt clk tr]. cbn in Hq. subst flt.
  unfold io_CopyBuffer in H.
  bind_step H f w1 H1. bind_step H m2 w2 H2.
  unfold next_fault in H1. unfold get_fs in H2. inversion H1; inversion H2; subst.
  clear H1 H2. cbn in H.
  bind_step H a w3 H3. apply write_chunks_faults in H3. by ret_inv H.
Qed.

Lemma file_Close_quiet p w r w' :
  faults w = [] -> file_Close p w = (r, w') -> faults w' = [] /\ r = None /\ fs w' = fs w.
Proof. intros Hq H. unfold file_Close in H. by quiet_prim H Hq. Qed.

Lemma os_MkdirAll_quiet p w r w' :
  faults w = [] -> os_MkdirAll p w = (r, w') -> faults w' = [] /\ r = None /\ fs w' = fs w.
Proof. intros Hq H. unfold os_MkdirAll in H. by quiet_prim H Hq. Qed.

Lemma os_Chtimes_quiet p t w r w' :
  faults w = [] -> os_Chtimes p t w = (r, w') ->
  faults w' = [] /\ fs w' = alter (set_mtime t) p (fs w).
Proof.
  intros Hq H. unfold os_Chtimes in H. quiet_prim H Hq; split; try done.
  symmetry. apply map_eq. intros q. destruct (decide (q = p)) as [->|Hne].
  - rewrite lookup_alter_eq. by match goal with E : _ !! _ = None |- _ => rewrite E end.
  - by rewrite lookup_alter_ne.
Qed.

Lemma os_Rename_quiet a b w r w' file :
  faults w = [] -> fs w !! a = Some file -> os_Rename a b w = (r, w') ->
  faults w' = [] /\ r = None /\ fs w' = <[b := file]> (delete a (fs w)).
Proof.
  intros Hq Ha H. unfold os_Rename in H. quiet_prim H Hq; split_and!; try done;
    congruence.
Qed.

Lemma os_Remove_quiet p w r w' :
  faults w = [] -> is_Some (fs w !! p) -> os_Remove p w = (r, w') ->
  faults w' = [] /\ r = None /\ fs w' = delete p (fs w).
Proof.
  intros Hq [f Hf] H. unfold os_Remove in H. quiet_prim H Hq; split_and!; try done;
    congruence.
Qed.

Lemma log_msg_quiet msg w r w' :
  log_msg msg w = (r, w') -> faults w' = faults w /\ fs w' = fs w.
Proof. intros H. unfold log_msg, mbind, M_bind, get_fs, emit in H. by inversion H. Qed.

Lemma WalkDir_quiet root w r w' :
  faults w = [] -> WalkDir root w = (r, w') ->
  faults w' = [] /\ fs w' = fs w /\ r = (walk_files root (fs w), None).
Proof. intros Hq H. unfold WalkDir in H. by quiet_prim H Hq. Qed.

(** Without faults, a copy of an existing file succeeds and installs a file
    with the content and the modification time of the source. *)
Lemma copyAtomic_quiet src dst w f r w' :
  faults w = [] -> fs w !! src = Some f -> src <> dst ++ ".tmp" ->
  copyAtomic src dst w = (r, w') ->
  r = (Z.of_nat (String.length (data f)), None) /\ faults w' = []
  /\ fs w' = <[dst := {| data := data f; mtime := mtime f |}]> (delete (dst ++ ".tmp") (fs w)).
Proof.
  intros Hq Hf Hsrc H. unfold copyAtomic in H.
  set (tmp := dst ++ ".tmp") in *.
  bind_step H e1 w1 H1. apply os_Open_quiet in H1 as (Q1 & F1 & O1); [|done].
  rewrite (O1 (ltac:(eauto))) in H.
  bind_step H e2 w2 H2. apply os_Create_quiet in H2 as (Q2 & -> & F2); [|done].
  bind_step H r3 w3 H3. destruct r3 as [b ce].
  pose proof (io_CopyBuffer_quiet _ _ _ _ _ Q2 H3) as [Q3 E3]. cbn in E3. subst ce.
  pose proof (io_CopyBuffer_spec _ _ _ _ _ H3) as [T3 _].
  apply io_CopyBuffer_content in H3 as (C3 & ->).
  rewrite F2, F1, lookup_insert_eq, lookup_insert_ne, Hf in C3 by done. cbn in C3.
  assert (O3 : forall q, q <> tmp -> fs w3 !! q = fs w !! q).
  { intros q Hq'. rewrite (touches_only_frame _ _ _ q T3) by set_solver.
    by rewrite F2, lookup_insert_ne, F1. }
  bind_step H e4 w4 H4. apply file_Close_quiet in H4 as (Q4 & -> & F4); [|done].
  bind_step H info w5 H5. apply os_Stat_spec in H5 as (-> & ->).
  rewrite (stat_of_file w4 src f) in H by (by rewrite F4, (O3 src Hsrc)).
  cbn [stat_info] in H.
  bind_step H u6 w6 H6. bind_step H6 e7 w7 H7. ret_inv H6.
  apply os_Chtimes_quiet in H7 as (Q7 & F7); [|done].
  bind_step H e8 w8 H8.
  apply (os_Rename_quiet _ _ _ _ _ {| data := data f; mtime := mtime f |}) in H8
    as (Q8 & -> & F8); [|done|].
  2: { rewrite F7, lookup_alter_eq, F4, C3. done. }
  ret_inv H. split_and!; [|done|].
  { by rewrite F2, lookup_insert_ne, F1, Hf. }
  rewrite F8. f_equal. apply map_eq. intros q.
  destruct (decide (q = tmp)) as [->|Hne]; [by rewrite !lookup_delete_eq|].
  rewrite !lookup_delete_ne by done. by rewrite F7, lookup_alter_ne, F4, O3.
Qed.

(** X23. Without faults of the operating system, [copyAtomic] of an
    existing file succeeds, reports the length of the source, and leaves
    under the target path a file with the content and the modification time
    of the source; a file that was lying at the temp path is gone, and no
    other path is changed. *)
Theorem copyAtomic_without_faults (src dst : string) (w : World) (f : File) :
  faults w = [] -> fs w !! src = Some f -> src <> dst ++ ".tmp" ->
  let r := copyAtomic src dst w in
  r.1 = (Z.of_nat (String.length (data f)), None)
  /\ fs r.2 = <[dst := {| data := data f; mtime := mtime f |}]>
                (delete (dst ++ ".tmp") (fs w)).
Proof.
  intros Hq Hf Hsrc. cbn zeta. destruct (copyAtomic src dst w) as [r w'] eqn:H. cbn.
  by apply (copyAtomic_quiet _ _ _ f) in H as (-> & _ & ->).
Qed.

Section FaultFreeSync.

Variable windows : bool.
Variable PathMatch : string -> string -> bool.
Variable sha256 : string -> string.

Lemma calculateFileHash_quiet p w r w' :
  faults w = [] -> is_Some (fs w !! p) ->
  calculateFileHash sha256 p w = (r, w') ->
  faults w' = [] /\ fs w' = fs w
  /\ r = (sha256 (default "" (data <$> fs w !! p)), None).
Proof.
  intros Hq Hp H. unfold calculateFileHash in H.
  bind_step H e w1 H1. apply os_Open_quiet in H1 as (Q1 & F1 & O1); [|done].
  rewrite (O1 Hp) in H. destruct w1 as [m oth flt clk tr]. cbn in Q1, F1. subst flt m.
  unfold mbind, M_bind, next_fault, get_fs in H. cbn in H. by ret_inv H.
Qed.

Lemma same_by_copy (strategy : string) (s : File) :
  same_by sha256 strategy s {| data := data s; mtime := mtime s |}.
Proof.
  unfold same_by. destruct (String.eqb _ _); [done|].
  unfold compareByModTimeAndSize. cbn. rewrite Nat.eqb_refl. cbn.
  rewrite Z.sub_diag. done.
Qed.

Lemma isFileChanged_quiet src pair rel w s r w' :
  faults w = [] -> fs w !! src = Some s ->
  others w !! Join (Target pair) rel = None ->
  isFileChanged sha256 src pair rel w = (r, w') ->
  faults w' = [] /\ fs w' = fs w /\ r.2 = None
  /\ (r.1 = false ->
      exists t, fs w !! Join (Target pair) rel = Some t
        /\ same_by sha256 (SyncStrategy pair) s t).
Proof.
  intros Hq Hs Ho H. unfold isFileChanged in H.
  bind_step H si w1 H1. apply os_Stat_spec in H1 as (-> & ->).
  rewrite (stat_of_file _ _ _ Hs) in H.
  bind_step H ti w2 H2. apply os_Stat_spec in H2 as (-> & ->).
  unfold stat_of in H. rewrite Ho in H.
  destruct (fs w !! Join (Target pair) rel) as [t|] eqn:Ht; [|by ret_inv H].
  unfold filesAreDifferent in H. unfold same_by.
  destruct (String.eqb _ _).
  - unfold compareByHash in H.
    bind_step H r1 w1 H1. apply calculateFileHash_quiet in H1 as (Q1 & F1 & ->); [|done..].
    bind_step H r2 w2 H2.
    apply calculateFileHash_quiet in H2 as (Q2 & F2 & ->); [|done|by rewrite F1, Ht].
    ret_inv H. cbn. rewrite F1, Hs, Ht. cbn. split_and!; try congruence.
    intros Hn. exists t. split; [done|]. apply negb_false_iff in Hn.
    by apply String.eqb_eq in Hn.
  - ret_inv H. cbn. split_and!; try done. intros Hc. eauto.
Qed.

Lemma run_hooks_from_faults i hooks rel w r w' :
  run_hooks_from windows PathMatch i hooks rel w = (r, w') -> faults w' = faults w.
Proof.
  revert i w. induction hooks as [|h hooks IH]; intros i w H; cbn in H.
  - by ret_inv H.
  - bind_step H u w1 H1. apply IH in H. rewrite H.
    destruct (shouldTriggerHook _ _ _ _); [|by ret_inv H1].
    unfold mbind, M_bind, get_fs, emit in H1. by inversion H1.
Qed.

Lemma syncEntry_quiet pair rel res w s r w' :
  faults w = [] -> fs w !! Join (Source pair) rel = Some s ->
  others w !! Join (Target pair) rel = None ->
  Join (Source pair) rel <> Join (Target pair) rel ++ ".tmp" ->
  syncEntry windows PathMatch sha256 pair (Join (Source pair) rel) res w = (r, w') ->
  r.2 = None /\ faults w' = []
  /\ (forall q, q <> Join (Target pair) rel -> q <> Join (Target pair) rel ++ ".tmp" ->
        fs w' !! q = fs w !! q)
  /\ (shouldSyncFile windows PathMatch pair (Join (Source pair) rel) rel = true ->
      exists t, fs w' !! Join (Target pair) rel = Some t
        /\ same_by sha256 (SyncStrategy pair) s t).
Proof.
  intros Hq Hs Ho Hne H. unfold syncEntry in H. rewrite Rel_Join in H.
  destruct (shouldSyncFile _ _ _ _ _) eqn:Hwant; cbn [negb] in H; [|by ret_inv H].
  bind_step H r1 w1 H1. apply (isFileChanged_quiet _ _ _ _ s) in H1 as (Q1 & F1 & E1 & C1);
    [|done..].
  destruct r1 as [changed e1]. cbn in E1, C1. subst e1.
  destruct changed; cbn [negb] in H.
  2: { ret_inv H. cbn. split_and!; try done; [by rewrite F1|].
       intros _. rewrite F1. by apply C1. }
  bind_step H r2 w2 H2. unfold copyFile in H2.
  bind_step H2 e3 w3 H3. apply os_MkdirAll_quiet in H3 as (Q3 & -> & F3); [|done].
  apply (copyAtomic_quiet _ _ _ s) in H2 as (-> & Q2 & F2);
    [|done|by rewrite F3, F1|done].
  bind_step H u4 w4 H4. apply log_msg_quiet in H4 as (Q4 & F4).
  bind_step H u5 w5 H5.
  pose proof (run_hooks_from_faults _ _ _ _ _ _ H5) as Q5.
  apply run_hooks_from_fs in H5. ret_inv H. cbn.
  split_and!; try done.
  - congruence.
  - intros q Hq1 Hq2. by rewrite H5, F4, F2, lookup_insert_ne, lookup_delete_ne, F3, F1.
  - intros _. eexists. rewrite H5, F4, F2, lookup_insert_eq. split; [done|].
    apply same_by_copy.
Qed.

Lemma sync_walk_quiet pair l res w r w' :
  roots_apart (Source pair) (Target pair) = true ->
  StronglySorted path_le l ->
  Forall (fun p => under (Source pair) p = true /\ is_Some (fs w !! p)) l ->
  (forall rel, Join (Source pair) rel ∈ l -> others w !! Join (Target pair) rel = None) ->
  faults w = [] ->
  walk_with (syncEntry windows PathMatch sha256 pair) l res w = (r, w') ->
  r.2 = None /\ faults w' = []
  /\ (forall q, (forall rel, Join (Source pair) rel ∈ l ->
                   q <> Join (Target pair) rel /\ q <> Join (Target pair) rel ++ ".tmp") ->
        fs w' !! q = fs w !! q)
  /\ (forall rel s, Join (Source pair) rel ∈ l ->
        fs w !! Join (Source pair) rel = Some s ->
        shouldSyncFile windows PathMatch pair (Join (Source pair) rel) rel = true ->
        exists t, fs w' !! Join (Target pair) rel = Some t
          /\ same_by sha256 (SyncStrategy pair) s t).
Proof.
  intros Hapart. revert res w.
  induction l as [|p l IH]; intros res w Hsorted Hall Hoth Hq H; cbn in H.
  { ret_inv H. cbn. split_and!; try done. intros rel s Hin. by apply elem_of_nil in Hin. }
  apply StronglySorted_inv in Hsorted as [Hsorted Hle].
  apply Forall_cons in Hall as [[Hp [sp Hsp]] Hall].
  apply under_inv in Hp as (relp & Hrelp & ->).
  assert (Hsrc_out : forall rel q, under (Target pair) q = true ->
                       Join (Source pair) rel <> q).
  { intros rel q Hu <-. eapply roots_apart_disjoint; [exact Hapart| |exact Hu].
    apply under_Join. }
  bind_step H r1 w1 H1. destruct r1 as [res1 e1].
  pose proof (keeps_syncEntry _ _ _ _ _ _ _ _ _ H1) as Ho1.
  apply (syncEntry_quiet _ _ _ _ sp) in H1 as (E1 & Q1 & Fr1 & S1); [|done|done| |].
  2: { apply Hoth, list_elem_of_here. }
  2: { apply Hsrc_out, under_tmp. }
  cbn in E1. subst e1.
  assert (Hsrc1 : forall rel, fs w1 !! Join (Source pair) rel = fs w !! Join (Source pair) rel).
  { intros rel. apply Fr1; apply Hsrc_out; [apply under_Join|apply under_tmp]. }
  apply IH in H as (E & Q & Fr & S); [|done| | |done].
  2: { eapply Forall_impl; [exact Hall|]. cbn. intros q [Hu Hex].
       split; [done|]. apply under_inv in Hu as (rq & _ & ->). by rewrite Hsrc1. }
  2: { intros rel Hin. rewrite Ho1. by apply Hoth, list_elem_of_further. }
  split_and!; try done.
  - intros q Hno. rewrite Fr.
    + apply Fr1; apply (Hno relp), list_elem_of_here.
    + intros rel Hin. apply Hno. by apply list_elem_of_further.
  - intros rel s Hin Hs Hwant.
    destruct (decide (Join (Source pair) rel ∈ l)) as [Hl|Hl].
    { apply S; [done|by rewrite Hsrc1|done]. }
    apply elem_of_cons in Hin as [E'|Hin]; [|done].
    apply Join_inj in E'. subst rel.
    rewrite Hsp in Hs. injection Hs as <-.
    destruct (S1 Hwant) as (t & Ht & Hsame). exists t. split; [|done].
    rewrite Fr; [done|]. intros rel Hin. split.
    + intros E'. apply Join_inj in E'. by subst rel.
    + intros E'. rewrite <- Join_tmp in E'. apply Join_inj in E'. subst relp.
      rewrite Forall_forall in Hle. specialize (Hle _ Hin).
      rewrite Join_tmp in Hle.
      eapply tmp_not_before; [exact Hle|apply path_le_refl].
Qed.

Lemma NoDup_List_filter {A} (f : A -> bool) (l : list A) :
  NoDup l -> NoDup (List.filter f l).
Proof.
  induction 1 as [|x l Hx Hl IH]; cbn; [constructor|].
  destruct (f x); [|done]. constructor; [|done].
  rewrite list_elem_of_In, filter_In, <- list_elem_of_In. tauto.
Qed.

Lemma walk_files_NoDup (root : string) (m : gmap string File) :
  NoDup (walk_files root m).
Proof.
  unfold walk_files. rewrite merge_sort_Permutation.
  apply NoDup_List_filter, NoDup_fst_map_to_list.
Qed.

Lemma mirror_walk_quiet pair l res w r w' :
  roots_apart (Source pair) (Target pair) = true ->
  NoDup l ->
  Forall (fun q => under (Target pair) q = true /\ is_Some (fs w !! q)) l ->
  (forall rel, Join (Target pair) rel ∈ l -> fs w !! Join (Source pair) rel = None ->
     others w !! Join (Source pair) rel = None) ->
  faults w = [] ->
  walk_with (mirrorEntry pair) l res w = (r, w') ->
  r.2 = None /\ faults w' = []
  /\ (forall q, q ∉ l -> fs w' !! q = fs w !! q)
  /\ (forall rel, Join (Target pair) rel ∈ l ->
        (is_Some (fs w !! Join (Source pair) rel) ->
         fs w' !! Join (Target pair) rel = fs w !! Join (Target pair) rel)
        /\ (fs w !! Join (Source pair) rel = None ->
            fs w' !! Join (Target pair) rel = None)).
Proof.
  intros Hapart. revert res w.
  induction l as [|p l IH]; intros res w Hnd Hall Hoth Hq H; cbn in H.
  { ret_inv H. cbn. split_and!; try done. intros rel Hin. by apply elem_of_nil in Hin. }
  apply NoDup_cons in Hnd as [Hp_new Hnd].
  apply Forall_cons in Hall as [[Hp Hpex] Hall].
  apply under_inv in Hp as (relp & Hrelp & ->).
  assert (Hsrc_out : forall rel q, under (Target pair) q = true ->
                       Join (Source pair) rel <> q).
  { intros rel q Hu <-. eapply roots_apart_disjoint; [exact Hapart| |exact Hu].
    apply under_Join. }
  bind_step H r1 w1 H1. destruct r1 as [res1 e1].
  pose proof (keeps_mirrorEntry _ _ _ _ _ _ H1) as Ho1.
  assert (M1 : e1 = None /\ faults w1 = []
               /\ fs w1 = match fs w !! Join (Source pair) relp with
                           | Some _ => fs w
                           | None => delete (Join (Target pair) relp) (fs w)
                           end).
  { unfold mirrorEntry in H1. rewrite Rel_Join in H1.
    bind_step H1 si w2 H2. apply os_Stat_spec in H2 as (-> & ->).
    unfold stat_of in H1.
    destruct (fs w !! Join (Source pair) relp) eqn:Esrc; [by ret_inv H1|].
    rewrite (Hoth relp) in H1 by (done || apply list_elem_of_here).
    bind_step H1 e w3 H3. apply os_Remove_quiet in H3 as (Q3 & -> & F3); [|done..].
    bind_step H1 u w4 H4. apply log_msg_quiet in H4 as (Q4 & F4). ret_inv H1.
    split_and!; congruence. }
  destruct M1 as (-> & Q1 & F1).
  assert (Hother : forall q, q <> Join (Target pair) relp -> fs w1 !! q = fs w !! q).
  { intros q Hne. rewrite F1. destruct (fs w !! Join (Source pair) relp); [done|].
    by rewrite lookup_delete_ne. }
  apply IH in H as (E & Q & Fr & S); [|done| | |done].
  2: { rewrite Forall_forall in Hall |- *. intros q Hin. destruct (Hall q Hin) as [Hu Hex].
       split; [done|]. rewrite Hother; [done|]. by intros ->. }
  2: { intros rel Hin. rewrite Ho1, Hother by apply Hsrc_out, under_Join.
       by apply Hoth, list_elem_of_further. }
  split_and!; try done.
  - intros q Hno. apply not_elem_of_cons in Hno as [Hne Hno]. by rewrite Fr, Hother.
  - intros rel Hin.
    assert (Hs1 : fs w1 !! Join (Source pair) rel = fs w !! Join (Source pair) rel).
    { apply Hother, Hsrc_out, under_Join. }
    destruct (decide (Join (Target pair) rel ∈ l)) as [Hl|Hl].
    { destruct (S rel Hl) as [Sa Sb]. rewrite Hs1 in Sa, Sb.
      rewrite Hother in Sa; [done|]. intros E'. by rewrite E' in Hl. }
    apply elem_of_cons in Hin as [E'|Hin]; [|done].
    apply Join_inj in E'. subst rel. rewrite (Fr _ Hl), F1.
    split.
    + intros [s Hs]. by rewrite Hs.
    + intros Hs. rewrite Hs. by rewrite lookup_delete_eq.
Qed.

Lemma performSync_quiet pair w r w' :
  roots_apart (Source pair) (Target pair) = true ->
  faults w = [] ->
  plain_trees pair w ->
  performSync windows PathMatch sha256 pair w = (r, w') ->
  r.2 = None /\ in_sync windows PathMatch sha256 pair (fs w').
Proof.
  intros Hapart Hq [Pl1 Pl2] H. unfold performSync in H.
  assert (Hsrc_out : forall rel q, under (Target pair) q = true ->
                       Join (Source pair) rel <> q).
  { intros rel q Hu <-. eapply roots_apart_disjoint; [exact Hapart| |exact Hu].
    apply under_Join. }
  bind_step H e0 w0 H0. pose proof (keeps_os_MkdirAll _ _ _ _ H0) as O0.
  apply os_MkdirAll_quiet in H0 as (Q0 & -> & F0); [|done].
  bind_step H r2 w2 H2. destruct r2 as [res2 e2].
  unfold syncSourceToTarget in H2.
  bind_step H2 r3 w3 H3. pose proof (keeps_WalkDir _ _ _ _ H3) as O3.
  apply WalkDir_quiet in H3 as (Q3 & F3 & ->); [|done].
  pose proof H2 as H2'.
  pose proof (keeps_walk_with _ _ _ (keeps_syncEntry windows PathMatch sha256 pair)
                _ _ _ H2) as O2.
  apply sync_walk_quiet in H2 as (E2 & Q2 & Fr2 & S2);
    [|done|apply walk_files_sorted| | |done].
  2: { apply Forall_forall. intros p Hp. apply elem_of_walk_files in Hp. by rewrite F3. }
  2: { intros rel Hin%elem_of_walk_files. rewrite O3, O0. apply Pl1.
       rewrite <- F0. by destruct Hin. }
  cbn in E2. subst e2.
  apply sync_walk_spec in H2' as (_ & _ & _ & S4); [|apply walk_files_sorted|].
  2: { apply Forall_forall. intros p Hp. by apply elem_of_walk_files in Hp as [? _]. }
  assert (Hsrc2 : forall rel, fs w2 !! Join (Source pair) rel = fs w0 !! Join (Source pair) rel).
  { intros rel. rewrite Fr2, F3; [done|]. intros rel' _.
    split; apply Hsrc_out; [apply under_Join|apply under_tmp]. }
  assert (In1 : forall rel s, fs w2 !! Join (Source pair) rel = Some s ->
            shouldSyncFile windows PathMatch pair (Join (Source pair) rel) rel = true ->
            exists t, fs w2 !! Join (Target pair) rel = Some t
              /\ same_by sha256 (SyncStrategy pair) s t).
  { intros rel s Hs Hwant. rewrite Hsrc2 in Hs. apply S2; [|by rewrite F3|done].
    apply elem_of_walk_files. split; [apply under_Join|by rewrite Hs]. }
  destruct (MirrorDeletes pair) eqn:Hm.
  2: { ret_inv H. split; [done|]. split; [done|]. by rewrite Hm. }
  unfold mirrorDeletions in H.
  bind_step H r4 w4 H4. pose proof (keeps_WalkDir _ _ _ _ H4) as O4.
  apply WalkDir_quiet in H4 as (Q4 & F4 & ->); [|done].
  apply mirror_walk_quiet in H as (E & Q & Fr & S);
    [|done|apply walk_files_NoDup| | |done].
  2: { apply Forall_forall. intros p Hp. apply elem_of_walk_files in Hp. by rewrite F4. }
  2: { intros rel Hin%elem_of_walk_files Hnone. destruct Hin as [_ Hex].
       rewrite F4, Hsrc2, F0 in Hnone. rewrite O4, O2, O3, O0. apply Pl2.
       apply S4 in Hex as [Hex|[Hin _]]; [by rewrite F3, F0 in Hex|].
       apply elem_of_walk_files in Hin as [_ Hin]. rewrite F0, Hnone in Hin.
       by destruct Hin. }
  split; [done|].
  assert (Hsrc' : forall rel, fs w' !! Join (Source pair) rel = fs w2 !! Join (Source pair) rel).
  { intros rel. rewrite Fr, F4; [done|]. intros Hin%elem_of_walk_files.
    destruct Hin as [Hu _]. by eapply Hsrc_out. }
  split.
  - intros rel s Hs Hwant. rewrite Hsrc' in Hs.
    destruct (In1 rel s Hs Hwant) as (t & Ht & Hsame). exists t. split; [|done].
    assert (Hin : Join (Target pair) rel ∈ walk_files (Target pair) (fs w2)).
    { apply elem_of_walk_files. split; [apply under_Join|by rewrite Ht]. }
    destruct (S rel Hin) as [Sa _]. rewrite Sa, F4; [done|]. by rewrite F4, Hs.
  - intros _ rel Hex. rewrite Hsrc'.
    destruct (decide (Join (Target pair) rel ∈ walk_files (Target pair) (fs w2)))
      as [Hin|Hout].
    + destruct (S rel Hin) as [_ Sb]. rewrite F4 in Sb.
      destruct (fs w2 !! Join (Source pair) rel) eqn:E2; [done|].
      rewrite (Sb eq_refl) in Hex. by destruct Hex.
    + exfalso. apply Hout. apply elem_of_walk_files. split; [apply under_Join|].
      by rewrite <- F4, <- (Fr _ Hout).
Qed.


End FaultFreeSync.

(** ** More concrete runs *)

Lemma UpdateTask_keeps_statistics_witness :
  scheduler.tasks sampleScheduler !! "p1" = Some freshTask
  /\ exists t',
       scheduler.tasks
         (scheduler.UpdateTask sampleParseDuration sampleParseClock sampleCronParse 7
            sampleScheduler "p1" (scheduler.NewIntervalSchedule "soon")).1 !! "p1" = Some t'
       /\ scheduler.TSchedule t' = scheduler.NewIntervalSchedule "soon"
       /\ scheduler.RunCount t' = scheduler.RunCount freshTask
       /\ scheduler.Enabled t' = true /\ scheduler.ticker t' = None.
Proof.
  assert (H : scheduler.tasks sampleScheduler !! "p1" = Some freshTask)
    by (vm_compute; reflexivity).
  split; [exact H|].
  destruct (UpdateTask_keeps_statistics sampleParseDuration sampleParseClock sampleCronParse
              7 sampleScheduler "p1" (scheduler.NewIntervalSchedule "soon") freshTask H)
    as (t' & H1 & H2 & _ & _ & _ & H6 & _ & _ & Hfail).
  exists t'. split; [exact H1|]. split; [exact H2|]. split; [exact H6|].
  destruct Hfail as (E1 & E2 & _); [vm_compute; eexists; reflexivity|]. by split.
Defined.

Lemma runIntervalTask_respects_MaxRuns_witness :
  0 < scheduler.MaxRuns (scheduler.TSchedule limitedTask) < 2 ^ 63
  /\ - 2 ^ 63 <= scheduler.RunCount limitedTask
       <= scheduler.MaxRuns (scheduler.TSchedule limitedTask)
  /\ scheduler.RunCount (scheduler_run.runIntervalTask 60 limitedTask threeRuns)
       <= scheduler.MaxRuns (scheduler.TSchedule limitedTask).
Proof.
  assert (H1 : 0 < scheduler.MaxRuns (scheduler.TSchedule limitedTask) < 2 ^ 63)
    by (cbn; lia).
  assert (H2 : - 2 ^ 63 <= scheduler.RunCount limitedTask
               <= scheduler.MaxRuns (scheduler.TSchedule limitedTask)) by (cbn; lia).
  split; [exact H1|]. split; [exact H2|].
  exact (runIntervalTask_respects_MaxRuns 60 limitedTask threeRuns H1 H2).
Defined.

Lemma panics_do_not_count_against_MaxRuns_witness :
  Forall (fun f => exists v, scheduler_run.out f = scheduler.Panics v) threePanics
  /\ scheduler.RunCount (scheduler_run.runIntervalTask 60 limitedTask threePanics)
     = scheduler.RunCount limitedTask.
Proof.
  assert (H : Forall (fun f => exists v, scheduler_run.out f = scheduler.Panics v)
                threePanics).
  { repeat (apply Forall_cons; split); [| | |constructor]; by eexists. }
  split; [exact H|].
  exact (proj1 (panics_do_not_count_against_MaxRuns 60 limitedTask threePanics H)).
Defined.

Lemma custom_window_across_midnight_never_runs_witness :
  scheduler.Custom (scheduler.TSchedule nightTask) = Some nightWindow
  /\ (6 * 3600) / 60 < (22 * 3600) / 60
  /\ scheduler_run.runCustomTask sampleParseDuration sampleWeekday sampleHour sampleMinute
       sampleSecond nightTask (22 * 3600) (6 * 3600) (15 * 60) nightFirings
     = Some (nightTask, None).
Proof.
  assert (H1 : scheduler.Custom (scheduler.TSchedule nightTask) = Some nightWindow)
    by reflexivity.
  assert (H2 : (6 * 3600) / 60 < (22 * 3600) / 60) by (vm_compute; reflexivity).
  split; [exact H1|]. split; [exact H2|].
  exact (custom_window_across_midnight_never_runs sampleParseDuration sampleWeekday
           sampleHour sampleMinute sampleSecond nightTask nightWindow (22 * 3600) (6 * 3600)
           (15 * 60) nightFirings H1 H2).
Defined.

Lemma ValidatePair_accepts_well_formed_witness :
  ValidatePair false sampleIsAbs sampleParseDuration sampleParseClock rawPair
  = (validPair, None)
  /\ Schedule validPair = Schedule rawPair
  /\ 0 < DebounceMs validPair
  /\ NoDup (IncludeExt validPair).
Proof.
  assert (H : ValidatePair false sampleIsAbs sampleParseDuration sampleParseClock rawPair
              = (validPair, None)) by (vm_compute; reflexivity).
  split; [exact H|].
  destruct (ValidatePair_accepts_well_formed false sampleIsAbs sampleParseDuration
              sampleParseClock rawPair validPair H)
    as (_ & _ & _ & _ & H5 & _ & H7 & _ & H9 & _).
  split; [exact H5|]. split; [exact H7|exact H9].
Defined.

Lemma ValidatePair_idempotent_witness :
  ValidatePair false sampleIsAbs sampleParseDuration sampleParseClock rawPair
  = (validPair, None)
  /\ ValidatePair false sampleIsAbs sampleParseDuration sampleParseClock validPair
     = (validPair, None).
Proof.
  assert (H : ValidatePair false sampleIsAbs sampleParseDuration sampleParseClock rawPair
              = (validPair, None)) by (vm_compute; reflexivity).
  split; [exact H|].
  exact (ValidatePair_idempotent false sampleIsAbs sampleParseDuration sampleParseClock
           rawPair validPair H).
Defined.

Lemma calls_leave_other_pairs_alone_witness :
  "p2" <> call_id (CallStop "p1")
  /\ scheduler.tasks
       (sched (do_call sampleParseDuration sampleParseClock sampleCronParse 2 twoPairs
                 (CallStop "p1")).1) !! "p2"
     = scheduler.tasks (sched twoPairs) !! "p2".
Proof.
  assert (H : "p2" <> call_id (CallStop "p1")) by discriminate.
  split; [exact H|].
  exact (proj1 (calls_leave_other_pairs_alone sampleParseDuration sampleParseClock
                  sampleCronParse 2 twoPairs (CallStop "p1") "p2" H)).
Defined.

Lemma StartPair_failure_stops_watcher_witness :
  let bad := samplePair "p1" true (scheduler.NewIntervalSchedule "soon") in
  let r := StartPair sampleParseDuration sampleParseClock sampleCronParse 2 twoPairs bad in
  workers twoPairs !! ID bad
  = Some {| WPair := samplePair "p1" true scheduler.NewWatcherSchedule; running := true |}
  /\ r = (r.1, Some (scheduler.FailedToSchedule "p1" (scheduler.InvalidInterval "soon")))
  /\ scheduler.tasks (sched r.1) !! ID bad = None
  /\ workers r.1 !! ID bad = None.
Proof.
  cbn zeta.
  split; [vm_compute; reflexivity|]. split; [vm_compute; reflexivity|].
  apply (StartPair_failure_stops_watcher sampleParseDuration sampleParseClock sampleCronParse
           2 twoPairs _ (samplePair "p1" true (scheduler.NewIntervalSchedule "soon"))
           {| WPair := samplePair "p1" true scheduler.NewWatcherSchedule; running := true |}
           (scheduler.FailedToSchedule "p1" (scheduler.InvalidInterval "soon")));
    vm_compute; reflexivity.
Defined.

Lemma syncedWorld_in_sync :
  in_sync false samplePathMatch sampleSha256 plainPair (fs syncedWorld).
Proof.
  split; [|discriminate].
  intros rel s Hs _. cbn in Hs.
  apply lookup_insert_Some in Hs as [[E <-]|[_ Hs]].
  - change "/src/a.txt" with (Join "/src" "a.txt") in E. apply Join_inj in E. subst rel.
    eexists. split; [vm_compute; reflexivity|]. vm_compute. reflexivity.
  - apply lookup_singleton_Some in Hs as [E _]. discriminate E.
Defined.

Lemma CompareAndSync_of_synced_trees_witness :
  in_sync false samplePathMatch sampleSha256 plainPair (fs syncedWorld)
  /\ (CompareAndSync false samplePathMatch sampleSha256 plainPair syncedWorld).1.1 = (0, 0)
  /\ fs (CompareAndSync false samplePathMatch sampleSha256 plainPair syncedWorld).2
     = fs syncedWorld.
Proof.
  split; [exact syncedWorld_in_sync|].
  exact (CompareAndSync_of_synced_trees false samplePathMatch sampleSha256 plainPair
           syncedWorld syncedWorld_in_sync).
Defined.

Lemma copyAtomic_without_faults_witness :
  faults plainWorld = []
  /\ fs plainWorld !! "/src/a.txt" = Some {| data := "hi"; mtime := 5 |}
  /\ "/src/a.txt" <> "/dst/a.txt" ++ ".tmp"
  /\ (copyAtomic "/src/a.txt" "/dst/a.txt" plainWorld).1 = (2, None)
  /\ fs (copyAtomic "/src/a.txt" "/dst/a.txt" plainWorld).2
     = <[ "/dst/a.txt" := {| data := "hi"; mtime := 5 |} ]>
         (delete ("/dst/a.txt" ++ ".tmp") (fs plainWorld)).
Proof.
  assert (H1 : faults plainWorld = []) by reflexivity.
  assert (H2 : fs plainWorld !! "/src/a.txt" = Some {| data := "hi"; mtime := 5 |})
    by (vm_compute; reflexivity).
  assert (H3 : "/src/a.txt" <> "/dst/a.txt" ++ ".tmp") by discriminate.
  split; [exact H1|]. split; [exact H2|]. split; [exact H3|].
  exact (copyAtomic_without_faults "/src/a.txt" "/dst/a.txt" plainWorld
           {| data := "hi"; mtime := 5 |} H1 H2 H3).
Defined.

Lemma photoWorld_plain : plain_trees photoPair photoWorld.
Proof. split; intros rel _; apply lookup_empty. Defined.



Lemma handleFileModification_touches_its_target_only_witness :
  Hooks photoPair = []
  /\ touches_only [Join (Target photoPair) "a.jpg" ++ ".tmp"; Join (Target photoPair) "a.jpg"]
       photoWorld
       (handleFileModification false samplePathMatch photoPair "/src/a.jpg" "a.jpg"
          photoWorld).2.
Proof.
  split; [reflexivity|].
  exact (handleFileModification_touches_its_target_only false samplePathMatch photoPair
           "/src/a.jpg" "a.jpg" photoWorld eq_refl).
Defined.

(** The watcher's copy of the witness: the picture arrives in the target,
    and the other files are as they were. *)
Example watcher_copy_of_one_file :
  fs (handleFileModification false samplePathMatch photoPair "/src/a.jpg" "a.jpg"
        photoWorld).2
  = <[ "/dst/a.jpg" := {| data := "img"; mtime := 5 |} ]> (fs photoWorld).
Proof. vm_compute. reflexivity. Qed.

(** ** [FormatByteSize] *)

Lemma size_loop_S (fuel : nat) (n div : Z) (exp : nat) :
  size_loop (S fuel) n div exp
  = if 1024 <=? n then size_loop fuel (Z.quot n 1024) (wrap64 (div * 1024)) (S exp)
    else Some (div, exp).
Proof. reflexivity. Qed.

Lemma size_loop_rounds (fuel : nat) (n div : Z) (exp : nat) :
  0 <= n < 1024 ^ Z.of_nat fuel ->
  exists t div', size_loop (S fuel) n div exp = Some (div', (exp + t)%nat)
    /\ (t = O /\ n < 1024 \/ 1024 ^ Z.of_nat t <= n < 1024 ^ (Z.of_nat t + 1)).
Proof.
  revert n div exp. induction fuel as [|fuel IH]; intros n div exp Hn.
  { exists O, div. cbn in Hn. assert (n = 0) as -> by lia. cbn.
    split; [by rewrite Nat.add_0_r|]. left. split; [done|lia]. }
  rewrite size_loop_S.
  destruct (Z.leb_spec 1024 n) as [Hge|Hlt].
  - rewrite Z.quot_div_nonneg by lia.
    assert (Hq : 0 <= n / 1024 < 1024 ^ Z.of_nat fuel).
    { split; [apply Z.div_pos; lia|]. apply Z.div_lt_upper_bound; [lia|].
      replace (1024 * 1024 ^ Z.of_nat fuel) with (1024 ^ Z.of_nat (S fuel)); [lia|].
      rewrite Nat2Z.inj_succ, Z.pow_succ_r by lia. done. }
    destruct (IH (n / 1024) (wrap64 (div * 1024)) (S exp) Hq) as (t & div' & E & Hb).
    exists (S t), div'. split.
    { rewrite E. do 2 f_equal. lia. }
    right. rewrite Nat2Z.inj_succ.
    assert (Hdm := Z.div_mod n 1024 ltac:(lia)).
    assert (Hm := Z.mod_pos_bound n 1024 ltac:(lia)).
    destruct Hb as [[-> Hs]|[Hlo Hhi]].
    + cbn. lia.
    + rewrite Z.pow_add_r in Hhi |- * by lia. rewrite Z.pow_succ_r by lia.
      rewrite Z.pow_1_r in *. set (P := 1024 ^ Z.of_nat t) in *. lia.
  - exists O, div. split; [by rewrite Nat.add_0_r|]. left. split; [done|lia].
Qed.

(** X25. [FormatByteSize] at its edges, for every 64-bit [bytes].  From
    2^60 bytes (1 EiB) on, the call panics: the loop counts five rounds and
    the table of units has five entries, so [units[exp]] is out of range.
    Below that it returns a string.  The numbers in that string are not
    written in decimal: a count is converted with [string(rune(n))], so for
    [0 <= bytes < 128] the result is the single byte with that code,
    followed by " B". *)
Theorem FormatByteSize_edges (bytes : Z) :
  - 2 ^ 63 <= bytes < 2 ^ 63 ->
  (2 ^ 60 <= bytes -> FormatByteSize bytes = Some (IndexOutOfRange 5 5))
  /\ (bytes < 2 ^ 60 -> exists s, FormatByteSize bytes = Some (Text s))
  /\ (0 <= bytes < 128 ->
      FormatByteSize bytes = Some (Text (String (byte_of bytes) " B"))).
Proof.
  intros Hr. unfold FormatByteSize, unit_size.
  destruct (Z.ltb_spec bytes 1024) as [Hlt|Hge].
  { split; [lia|]. split; [eauto|]. intros Hb.
    assert (Hw : wrap32 bytes = bytes).
    { unfold wrap32. rewrite Z.mod_small; lia. }
    rewrite Hw. unfold rune_string.
    destruct (Z.ltb_spec bytes 0); [lia|].
    destruct (Z.ltb_spec 1114111 bytes); [lia|].
    destruct (Z.leb_spec 55296 bytes); [lia|]. cbn [orb andb].
    destruct (Z.ltb_spec bytes 128); [done|lia]. }
  rewrite Z.quot_div_nonneg by lia.
  assert (Hq : 0 <= bytes / 1024 < 1024 ^ Z.of_nat 63).
  { split; [apply Z.div_pos; lia|]. apply Z.div_lt_upper_bound; [lia|].
    eapply Z.lt_le_trans; [apply Hr|]. vm_compute. discriminate. }
  destruct (size_loop_rounds 63 (bytes / 1024) 1024 0 Hq) as (t & div' & E & Hb).
  rewrite E. cbn [Nat.add].
  assert (Hdm := Z.div_mod bytes 1024 ltac:(lia)).
  assert (Hm := Z.mod_pos_bound bytes 1024 ltac:(lia)).
  assert (Ht : (t <= 5)%nat).
  { destruct Hb as [[-> _]|[Hlo _]]; [lia|].
    destruct (Nat.le_gt_cases t 5) as [|Hgt]; [done|].
    assert (1024 ^ 6 <= 1024 ^ Z.of_nat t) by (apply Z.pow_le_mono_r; lia). lia. }
  assert (H5 : t = 5%nat <-> 2 ^ 60 <= bytes).
  { split.
    - intros ->. destruct Hb as [[? _]|[Hlo _]]; [done|].
      change (1024 ^ Z.of_nat 5) with (2 ^ 50) in Hlo. lia.
    - intros Hbig. destruct Hb as [[-> Hs]|[_ Hhi]]; [lia|].
      destruct (Nat.le_gt_cases 5 t) as [|Hlt5]; [lia|].
      assert (1024 ^ (Z.of_nat t + 1) <= 1024 ^ 5) by (apply Z.pow_le_mono_r; lia).
      change (1024 ^ 5) with (2 ^ 50) in *. lia. }
  split_and!.
  - intros Hbig. apply H5 in Hbig as ->. done.
  - intros Hsmall. assert (Hne : t <> 5%nat) by (intros Ht5; apply H5 in Ht5; lia).
    assert (Hlt5 : (t < 5)%nat) by lia.
    destruct (size_units !! t) as [u|] eqn:Hu; [eauto|].
    apply lookup_ge_None in Hu. cbn in Hu. lia.
  - lia.
Qed.

Lemma FormatByteSize_edges_witness :
  - 2 ^ 63 <= 2 ^ 60 < 2 ^ 63
  /\ FormatByteSize (2 ^ 60) = Some (IndexOutOfRange 5 5)
  /\ FormatByteSize 65 = Some (Text "A B").
Proof.
  assert (H : - 2 ^ 63 <= 2 ^ 60 < 2 ^ 63) by lia.
  split; [exact H|]. split.
  - apply (FormatByteSize_edges (2 ^ 60) H). lia.
  - reflexivity.
Defined.

(** ** The check of command hooks *)

Lemma command_loop_false (cmds : list string) (b : string) :
  (exists c, c ∈ cmds /\ (b = c \/ HasPrefix b (c ++ ".") = true)) ->
  command_loop cmds b = false.
Proof.
  induction cmds as [|a cmds IH]; intros (c & Hc & Hb); cbn.
  - by apply elem_of_nil in Hc.
  - apply elem_of_cons in Hc as [->|Hc].
    + destruct Hb as [->|Hp]; [by rewrite String.eqb_refl|].
      rewrite Hp. by rewrite orb_true_r.
    + destruct (_ || _); [done|]. apply IH. eauto.
Qed.

Lemma ToLower_app (a b : string) : ToLower (a ++ b) = ToLower a ++ ToLower b.
Proof.
  induction a as [|c a IH]; [done|].
  change (ToLower (String c (a ++ b)) = String (lower_ascii c) (ToLower a ++ ToLower b)).
  cbn [ToLower]. by rewrite IH.
Qed.

(** X26. Blocked executables are rejected however they are addressed.  If
    [filepath.Base] gives the last element of a path (as it does), then
    [isCommandSafe] rejects every executable whose file name is, up to
    letter case, one of the blocked commands, or one of them followed by a
    dot and anything (as in "RM.EXE"), in whatever directory it lies and
    whatever the arguments. *)
Theorem isCommandSafe_rejects_blocked_executables (Base : string -> string)
    (dir name cmd : string) (args : list string) :
  (forall d n, n <> "" -> has_sep false n = false -> Base (d ++ "/" ++ n) = n) ->
  name <> "" -> has_sep false name = false ->
  cmd ∈ dangerousCommands ->
  ToLower name = cmd \/ HasPrefix (ToLower name) (cmd ++ ".") = true ->
  isCommandSafe Base (dir ++ "/" ++ name) args = false.
Proof.
  intros HBase Hne Hsep Hcmd Hname. unfold isCommandSafe.
  rewrite HBase by done.
  rewrite (command_loop_false dangerousCommands (ToLower name)); [done|].
  exists cmd. split; [done|]. destruct Hname as [->|?]; auto.
Qed.

Lemma strip_trailing_name (n : string) :
  n <> "" -> has_sep false n = false -> strip_trailing n = n.
Proof.
  induction n as [|c r IH]; [done|]. intros _ Hs. cbn in Hs.
  apply orb_false_iff in Hs as [Hc Hr]. unfold IsPathSeparator in Hc. cbn in Hc.
  rewrite orb_false_r in Hc. cbn [strip_trailing].
  destruct r as [|c' r']; [cbn; by rewrite Hc|].
  rewrite IH by done. done.
Qed.

Lemma strip_trailing_app (d n : string) :
  n <> "" -> has_sep false n = false -> strip_trailing (d ++ n) = d ++ n.
Proof.
  intros Hne Hs. induction d as [|c d IH]; [by apply strip_trailing_name|].
  change (strip_trailing (String c (d ++ n)) = String c (d ++ n)).
  cbn [strip_trailing]. rewrite IH.
  destruct (d ++ n) eqn:E; [|done]. by destruct d, n.
Qed.

Lemma has_sep_app_slash (d n : string) : has_sep false (d ++ "/" ++ n) = true.
Proof.
  induction d as [|c d IH]; [done|].
  change (has_sep false (String c (d ++ "/" ++ n)) = true). cbn [has_sep].
  by rewrite IH, orb_true_r.
Qed.

Lemma last_elem_app (d n : string) :
  has_sep false n = false -> last_elem (d ++ "/" ++ n) = n.
Proof.
  intros Hs. induction d as [|c d IH].
  - change (last_elem (String "/" n) = n). cbn [last_elem]. by rewrite Hs.
  - change (last_elem (String c (d ++ "/" ++ n)) = n). cbn [last_elem].
    by rewrite has_sep_app_slash.
Qed.

Lemma Base_unix_last (d n : string) :
  n <> "" -> has_sep false n = false -> Base_unix (d ++ "/" ++ n) = n.
Proof.
  intros Hne Hs. unfold Base_unix.
  destruct (String.eqb_spec (d ++ "/" ++ n) "") as [E|_]; [by destruct d|].
  replace (d ++ "/" ++ n) with ((d ++ "/") ++ n) by apply append_assoc.
  rewrite strip_trailing_app by done.
  replace ((d ++ "/") ++ n) with (d ++ "/" ++ n) by (symmetry; apply append_assoc).
  rewrite last_elem_app by done. by destruct n.
Qed.

Lemma isCommandSafe_rejects_blocked_executables_witness :
  (forall d n, n <> "" -> has_sep false n = false -> Base_unix (d ++ "/" ++ n) = n)
  /\ "RM.exe" <> "" /\ has_sep false "RM.exe" = false
  /\ "rm" ∈ dangerousCommands
  /\ (ToLower "RM.exe" = "rm" \/ HasPrefix (ToLower "RM.exe") ("rm" ++ ".") = true)
  /\ isCommandSafe Base_unix ("/usr/local/bin" ++ "/" ++ "RM.exe") ["notes.txt"] = false.
Proof.
  assert (H1 : "RM.exe" <> "") by discriminate.
  assert (H2 : has_sep false "RM.exe" = false) by reflexivity.
  assert (H3 : "rm" ∈ dangerousCommands) by apply list_elem_of_here.
  assert (H4 : ToLower "RM.exe" = "rm" \/ HasPrefix (ToLower "RM.exe") ("rm" ++ ".") = true)
    by (right; reflexivity).
  split; [exact Base_unix_last|]. split; [exact H1|]. split; [exact H2|].
  split; [exact H3|]. split; [exact H4|].
  exact (isCommandSafe_rejects_blocked_executables Base_unix "/usr/local/bin" "RM.exe" "rm"
           ["notes.txt"] Base_unix_last H1 H2 H3 H4).
Defined.
